(** * Security Incident Management System: incident lifecycle and analytics

    A shallow embedding of the data layer of the dashboard:
    - the relational schema of the migration (tables, defaults, row-level
      security policies, the [updated_at] trigger);
    - the mutations of [IncidentForm] ([createIncident]) and
      [IncidentDetails] ([updateStatus], [addUpdate]);
    - the incident query and the client-side filter of [IncidentList];
    - the statistics of [Analytics].

    JavaScript values are modelled as follows.  The free texts that the
    code folds by case or trims (titles, descriptions, the search box,
    comments) are [Js.text]s: sequences of UTF-16 code units.  White
    space is that of the language; letter case is modelled for the
    characters U+0000 to U+00FF, and the statements about the search are
    made for such texts.  Identifiers, labels and names, which the code
    only compares and concatenates, are [string]s.  Counts are [nat]; the
    numbers computed from them are IEEE 754 doubles.  An object used as a dictionary is the list of its own
    properties in own-property order.  A promise is a state transformer on
    the [World] that resolves or rejects. *)

From Stdlib Require Import List String Ascii Bool Arith PeanoNat NArith ZArith.
From Stdlib Require Import QArith_base Lia Permutation Sorted.
From Stdlib Require Import DecimalNat DecimalString SpecFloat.
Import ListNotations.

#[local] Open Scope string_scope.
#[local] Open Scope nat_scope.
#[local] Open Scope list_scope.

(** ** Stable sorting by a comparator

    Both [Array.prototype.sort] and the store's [ORDER BY] are modelled by
    the same stable sort.  The comparator returns a number of which only
    the sign matters: positive when its second argument goes first. *)

Module Stable.
Section Sort.
Context {A : Type}.
Variable cmp : A -> A -> Z.

(** [x] stood before every element of [sorted] in the input. *)
Fixpoint insert (x : A) (sorted : list A) : list A :=
  match sorted with
  | [] => [x]
  | y :: rest =>
      if (0 <? cmp x y)%Z then y :: insert x rest else x :: y :: rest
  end.

Fixpoint sort (l : list A) : list A :=
  match l with
  | [] => []
  | x :: rest => insert x (sort rest)
  end.
End Sort.
End Stable.

(** ** JavaScript primitives used by the components *)

Module Js.

(** *** Texts

    A text is the sequence of its UTF-16 code units. *)
Definition text : Type := list N.

(** A text of 8-bit code units, such as a string literal. *)
Definition of_string (s : string) : text :=
  map N_of_ascii (list_ascii_of_string s).

(** One code unit of [String.prototype.toLowerCase].  From U+0000 to
    U+00FF the capital letters are A-Z, U+00C0-U+00D6 and U+00D8-U+00DE,
    each 32 below its small letter.  Code units from U+0100 on are left
    as they are, which is not what JavaScript does to every one of them:
    statements about this function are made for texts below U+0100. *)
Definition lower_unit (u : N) : N :=
  if ((65 <=? u) && (u <=? 90) ||
      (192 <=? u) && (u <=? 214) ||
      (216 <=? u) && (u <=? 222))%N
  then (u + 32)%N
  else u.

Definition toLowerCase (s : text) : text := map lower_unit s.

(** [s.startsWith(q)] *)
Fixpoint startsWith (s q : text) {struct q} : bool :=
  match q, s with
  | [], _ => true
  | _ :: _, [] => false
  | a :: q', b :: s' => (a =? b)%N && startsWith s' q'
  end.

(** [s.includes(q)]: [q] occurs in [s] as a contiguous substring. *)
Fixpoint includes (s q : text) : bool :=
  startsWith s q ||
  match s with
  | [] => false
  | _ :: s' => includes s' q
  end.

(** *** Strings *)

(** [s.split(sep).pop()] for a one-character separator: the text after
    the last separator, the whole text when there is none. *)
Fixpoint split_pop_from (sep : ascii) (cur s : string) : string :=
  match s with
  | EmptyString => cur
  | String c s' =>
      if Ascii.eqb c sep then split_pop_from sep s' s'
      else split_pop_from sep cur s'
  end.

Definition split_pop (sep : ascii) (s : string) : string :=
  split_pop_from sep s s.

(** Decimal rendering of a non-negative integer in a template literal. *)
Definition of_nat (n : nat) : string :=
  NilEmpty.string_of_uint (Nat.to_uint n).

(** *** Property keys *)

Definition is_digit (c : ascii) : bool :=
  let n := nat_of_ascii c in (48 <=? n) && (n <=? 57).

Fixpoint digits_value (acc : N) (s : string) : option N :=
  match s with
  | EmptyString => Some acc
  | String c s' =>
      if is_digit c
      then digits_value (10 * acc + N.of_nat (nat_of_ascii c - 48)) s'
      else None
  end.

(** A property key is an array index when it is the canonical decimal
    text of an integer in [0, 2^32 - 2]. *)
Definition array_index (k : string) : option N :=
  match k with
  | EmptyString => None
  | String c rest =>
      if Ascii.eqb c "0" && negb (String.eqb rest EmptyString) then None
      else match digits_value 0 k with
           | Some n => if (n <=? 4294967294)%N then Some n else None
           | None => None
           end
  end.

(** Names that every object inherits from [Object.prototype]. *)
Definition prototype_names : list string :=
  [ "constructor"; "hasOwnProperty"; "isPrototypeOf";
    "propertyIsEnumerable"; "toLocaleString"; "toString"; "valueOf";
    "__proto__"; "__defineGetter__"; "__defineSetter__";
    "__lookupGetter__"; "__lookupSetter__" ].

Definition inherited (k : string) : bool :=
  existsb (String.eqb k) prototype_names.

(** A label that is an ordinary string-keyed own property: neither an
    array index nor a name found on the prototype chain. *)
Definition plain_key (k : string) : bool :=
  match array_index k with
  | Some _ => false
  | None => negb (inherited k)
  end.

(** *** Objects used as dictionaries

    The own properties in the order of [OrdinaryOwnPropertyKeys]: array
    indices in ascending numeric order, then the other string keys in
    the order of their creation.  [get] reads own properties only; for a
    key in [prototype_names] JavaScript would read the inherited member
    instead, so statements about counts are made for labels outside
    that list. *)
Definition obj := list (string * nat).

Definition empty : obj := [].

Fixpoint get (o : obj) (k : string) : option nat :=
  match o with
  | [] => None
  | (k', v) :: o' => if String.eqb k k' then Some v else get o' k
  end.

(** [x || 0] on a count or [undefined]. *)
Definition or0 (x : option nat) : nat :=
  match x with
  | Some v => v
  | None => 0
  end.

(** Does a new key [k] come before the existing key [k']? *)
Definition key_before (k k' : string) : bool :=
  match array_index k, array_index k' with
  | Some n, Some n' => (n <? n')%N
  | Some _, None => true
  | None, _ => false
  end.

Fixpoint replace (o : obj) (k : string) (v : nat) : obj :=
  match o with
  | [] => []
  | (k', v') :: o' =>
      if String.eqb k k' then (k', v) :: o' else (k', v') :: replace o' k v
  end.

Fixpoint create (o : obj) (k : string) (v : nat) : obj :=
  match o with
  | [] => [(k, v)]
  | (k', v') :: o' =>
      if key_before k k' then (k, v) :: (k', v') :: o'
      else (k', v') :: create o' k v
  end.

(** [o[k] = v] *)
Definition set (o : obj) (k : string) (v : nat) : obj :=
  match get o k with
  | Some _ => replace o k v
  | None => create o k v
  end.

(** [Object.entries(o)] *)
Definition entries (o : obj) : list (string * nat) := o.

(** *** Arrays *)

(** [Array.prototype.sort(cmp)], which is stable. *)
Definition sort {A : Type} (cmp : A -> A -> Z) (a : list A) : list A :=
  Stable.sort cmp a.

(** [a.slice(0, n)] *)
Definition slice0 {A : Type} (n : nat) (a : list A) : list A := firstn n a.

(** *** Numbers

    A number is an IEEE 754 binary64 value; division and multiplication
    round to nearest, ties to even.  [value] reads a double as the
    rational it denotes; the sign of a zero or of an infinity is not
    kept, the numbers computed here being quotients of counts. *)
Definition double : Type := spec_float.

Definition of_count (n : nat) : double :=
  binary_normalize 53 1024 (Z.of_nat n) 0 false.

Definition div (x y : double) : double := SFdiv 53 1024 x y.

Definition mul (x y : double) : double := SFmul 53 1024 x y.

Inductive number : Type :=
| Finite (q : Q)
| Infinity
| NaN.

Definition value (x : double) : number :=
  match x with
  | S754_zero _ => Finite 0
  | S754_infinity _ => Infinity
  | S754_nan => NaN
  | S754_finite s m e =>
      let n := if s then Zneg m else Zpos m in
      Finite (match e with
              | Zneg p => Qmake n (2 ^ p)
              | _ => inject_Z (n * 2 ^ e)
              end)
  end.

(** *** More methods of texts *)

(** [WhiteSpace] and [LineTerminator]: tab, line feed, vertical tab, form
    feed, carriage return, space, no-break space, U+1680, U+2000-U+200A,
    U+2028, U+2029, U+202F, U+205F, U+3000 and U+FEFF. *)
Definition is_space (u : N) : bool :=
  ((9 <=? u) && (u <=? 13) || (u =? 32) || (u =? 160) || (u =? 5760) ||
   (8192 <=? u) && (u <=? 8202) || (u =? 8232) || (u =? 8233) ||
   (u =? 8239) || (u =? 8287) || (u =? 12288) || (u =? 65279))%N.

Fixpoint trimStart (s : text) : text :=
  match s with
  | [] => []
  | u :: s' => if is_space u then trimStart s' else s
  end.

Fixpoint trimEnd (s : text) : text :=
  match s with
  | [] => []
  | u :: s' =>
      match trimEnd s' with
      | [] => if is_space u then [] else [u]
      | rest => u :: rest
      end
  end.

(** [s.trim()] *)
Definition trim (s : text) : text := trimEnd (trimStart s).

(** A text used as a condition: only the empty text is falsy. *)
Definition truthy (s : text) : bool :=
  match s with
  | [] => false
  | _ :: _ => true
  end.

(** *** More methods of strings *)

(** [s.replace(c, by_)] with a one-character text [c]: the first
    occurrence only. *)
Fixpoint replaceFirst (c : ascii) (by_ s : string) : string :=
  match s with
  | EmptyString => EmptyString
  | String a s' =>
      if Ascii.eqb a c then (by_ ++ s')%string
      else String a (replaceFirst c by_ s')
  end.

(** [s.replace(/c/g, by_)]: every occurrence. *)
Fixpoint replaceAll (c : ascii) (by_ s : string) : string :=
  match s with
  | EmptyString => EmptyString
  | String a s' =>
      if Ascii.eqb a c then (by_ ++ replaceAll c by_ s')%string
      else String a (replaceAll c by_ s')
  end.

End Js.

Coercion Js.of_string : string >-> Js.text.

(** ** The schema of the migration *)

Module Schema.

Definition uuid := string.
Definition timestamptz := nat.

(** [CREATE TYPE incident_status AS ENUM (...)] *)
Inductive incident_status : Type :=
| open
| in_progress
| resolved
| closed.

(** [CREATE TYPE incident_priority AS ENUM (...)] *)
Inductive incident_priority : Type :=
| low
| medium
| high
| critical.

(** The label of an enum value, as rows carry it to the client. *)
Definition status_label (s : incident_status) : string :=
  match s with
  | open => "open"
  | in_progress => "in_progress"
  | resolved => "resolved"
  | closed => "closed"
  end.

Definition priority_label (p : incident_priority) : string :=
  match p with
  | low => "low"
  | medium => "medium"
  | high => "high"
  | critical => "critical"
  end.

Definition status_labels : list string :=
  map status_label [open; in_progress; resolved; closed].

End Schema.

(** A row of [public.profiles]. *)
Module Profile.
Record t : Type := make
  { id : Schema.uuid;
    full_name : string;
    email : string;
    role : string;
    avatar_url : option string;
    created_at : Schema.timestamptz;
    updated_at : Schema.timestamptz }.
End Profile.

(** A row of [public.incidents]. *)
Module Incident.
Record t : Type := make
  { id : Schema.uuid;
    title : Js.text;
    description : Js.text;
    status : string;
    priority : string;
    category : string;
    location : string;
    reporter_id : Schema.uuid;
    assigned_to : option Schema.uuid;
    evidence_urls : option (list string);
    created_at : Schema.timestamptz;
    updated_at : Schema.timestamptz;
    resolved_at : option Schema.timestamptz }.
End Incident.

(** A row of [public.incident_updates]. *)
Module Update.
Record t : Type := make
  { id : Schema.uuid;
    incident_id : Schema.uuid;
    user_id : Schema.uuid;
    update_type : string;
    content : Js.text;
    created_at : Schema.timestamptz }.
End Update.


(** ** Analytics.tsx: the statistics panel *)

Module Analytics.

(** [incidents?.filter(p).length || 0]; the query result is [undefined]
    until the first fetch has completed. *)
Definition count_where (p : Incident.t -> bool)
    (incidents : option (list Incident.t)) : nat :=
  match incidents with
  | Some l => List.length (filter p l)
  | None => 0
  end.

Record Stats : Type := mkStats
  { total : nat;
    open : nat;
    inProgress : nat;
    resolved : nat;
    closed : nat;
    critical : nat;
    high : nat }.

Definition stats (incidents : option (list Incident.t)) : Stats :=
  {| total := match incidents with Some l => List.length l | None => 0 end;
     open :=
       count_where (fun i => Incident.status i =? "open")%string incidents;
     inProgress :=
       count_where (fun i => Incident.status i =? "in_progress")%string incidents;
     resolved :=
       count_where (fun i => Incident.status i =? "resolved")%string incidents;
     closed :=
       count_where (fun i => Incident.status i =? "closed")%string incidents;
     critical :=
       count_where (fun i => Incident.priority i =? "critical")%string incidents;
     high :=
       count_where (fun i => Incident.priority i =? "high")%string incidents |}.

(** [incidents?.reduce((acc, incident) => { acc[key] = (acc[key] || 0) + 1;
    return acc; }, {})] *)
Definition tally (key : Incident.t -> string)
    (incidents : option (list Incident.t)) : option Js.obj :=
  match incidents with
  | Some l =>
      Some (fold_left
              (fun acc incident =>
                 Js.set acc (key incident) (Js.or0 (Js.get acc (key incident)) + 1))
              l Js.empty)
  | None => None
  end.

Definition categoryStats := tally Incident.category.
Definition locationStats := tally Incident.location.

(** The comparator [([, a], [, b]) => b - a]. *)
Definition by_count_desc (x y : string * nat) : Z :=
  (Z.of_nat (snd y) - Z.of_nat (snd x))%Z.

(** [Object.entries(stats || {}).sort(([, a], [, b]) => b - a)] *)
Definition ranked (stats : option Js.obj) : list (string * nat) :=
  Js.sort by_count_desc
    (Js.entries (match stats with Some o => o | None => Js.empty end)).

Definition topCategories (incidents : option (list Incident.t)) :=
  Js.slice0 5 (ranked (categoryStats incidents)).

Definition topLocations (incidents : option (list Incident.t)) :=
  Js.slice0 5 (ranked (locationStats incidents)).

(** The [width] of a bar of the priority breakdown: the template
    [`${(count / stats.total) * 100}%`]. *)
Inductive css_width : Type :=
| Percent (x : Js.number).

Definition criticalWidth (incidents : option (list Incident.t)) : css_width :=
  let s := stats incidents in
  Percent
    (Js.value
       (Js.mul (Js.div (Js.of_count (critical s)) (Js.of_count (total s)))
          (Js.of_count 100))).

Definition highWidth (incidents : option (list Incident.t)) : css_width :=
  let s := stats incidents in
  Percent
    (Js.value
       (Js.mul (Js.div (Js.of_count (high s)) (Js.of_count (total s)))
          (Js.of_count 100))).

(** The label of a row of "Top Categories":
    [category.replace(/_/g, " ")]. *)
Definition categoryLabel (category : string) : string :=
  Js.replaceAll "_" " " category.

End Analytics.

(** ** The hosted backend, as the client sees it

    The store answers every request with a [data]/[error] pair and never
    throws.  What it accepts is decided by the migration: column defaults,
    [NOT NULL] and foreign keys, the row-level security policies (all of
    them [TO authenticated]) and the [updated_at] trigger.  Whether a
    request reaches the store at all, and how long it takes, is up to the
    network, which the [World] carries as the outages and the delays of
    the coming requests.  Time is counted in milliseconds, the unit of
    [Date.now()]: a request may well take none.

    The client object of [@/integrations/supabase/client] only binds the
    library to the project; of it the [World] keeps the project URL. *)

Module Supabase.

Inductive PostgrestError : Type :=
| FetchFailed
| RowLevelSecurity (table : string)
| NotNullViolation (column : string)
| ForeignKeyViolation (column : string)
| AlreadyExists (path : string).

Inductive Request : Type :=
| AuthGetUser
| StorageUpload (path : string)
| InsertIncident
| UpdateIncident (id : Schema.uuid)
| InsertIncidentUpdate (incident_id : Schema.uuid)
| SelectIncidents
| SelectProfile (id : Schema.uuid).

Record World : Type := mkWorld
  { project_url : string;
    session : option Schema.uuid;
    profiles : list Profile.t;
    incidents : list Incident.t;
    incident_updates : list Update.t;
    evidence_bucket : list string;
    now : Schema.timestamptz;
    uuid_counter : nat;
    outages : list bool;
    delays : list nat;
    requests : list Request }.

Definition with_incidents (l : list Incident.t) (w : World) : World :=
  mkWorld (project_url w) (session w) (profiles w) l (incident_updates w)
    (evidence_bucket w) (now w) (uuid_counter w) (outages w) (delays w)
    (requests w).

Definition with_incident_updates (l : list Update.t) (w : World) : World :=
  mkWorld (project_url w) (session w) (profiles w) (incidents w) l
    (evidence_bucket w) (now w) (uuid_counter w) (outages w) (delays w)
    (requests w).

Definition with_evidence_bucket (l : list string) (w : World) : World :=
  mkWorld (project_url w) (session w) (profiles w) (incidents w)
    (incident_updates w) l (now w) (uuid_counter w) (outages w) (delays w)
    (requests w).

(** [gen_random_uuid()]: an identifier not handed out before. *)
Definition gen_random_uuid (w : World) : Schema.uuid * World :=
  (Js.of_nat (uuid_counter w),
   mkWorld (project_url w) (session w) (profiles w) (incidents w)
     (incident_updates w) (evidence_bucket w) (now w) (S (uuid_counter w))
     (outages w) (delays w) (requests w)).

(** One request: it is recorded, takes the time the network gives it (a
    millisecond once the list of delays is used up), and is lost when the
    network says so. *)
Definition round_trip (r : Request) (w : World) : bool * World :=
  (hd false (outages w),
   mkWorld (project_url w) (session w) (profiles w) (incidents w)
     (incident_updates w) (evidence_bucket w) (now w + hd 1 (delays w))
     (uuid_counter w) (tl (outages w)) (tl (delays w)) (requests w ++ [r])).

(** The next [n] requests reach the store. *)
Definition reaches (n : nat) (w : World) : Prop :=
  forallb negb (firstn n (outages w)) = true.

(** Of the coming requests, each of the [n] after the first [from] takes
    a millisecond or more. *)
Definition unhurried (from n : nat) (w : World) : Prop :=
  forallb (fun d => 0 <? d) (firstn n (skipn from (delays w))) = true.

(** *** Authentication: [supabase.auth.getUser()] *)

Definition getUser (w : World) : option Schema.uuid * World :=
  let (lost, w1) := round_trip AuthGetUser w in
  (if lost then None else session w1, w1).

(** *** Storage: bucket [incident-evidence] *)

Definition upload (path : string) (w : World) : option PostgrestError * World :=
  let (lost, w1) := round_trip (StorageUpload path) w in
  if lost then (Some FetchFailed, w1)
  else match session w1 with
       | None => (Some (RowLevelSecurity "objects"), w1)
       | Some _ =>
           if existsb (String.eqb path) (evidence_bucket w1)
           then (Some (AlreadyExists path), w1)
           else (None, with_evidence_bucket (evidence_bucket w1 ++ [path]) w1)
       end.

Definition getPublicUrl (path : string) (w : World) : string :=
  (project_url w ++ "/storage/v1/object/public/incident-evidence/" ++ path)%string.

(** *** Table [incidents] *)

(** The columns an [insert] may send; those with a default or nullable
    may be left out. *)
Record IncidentInsert : Type := mkIncidentInsert
  { ins_title : Js.text;
    ins_description : Js.text;
    ins_status : option Schema.incident_status;
    ins_priority : option Schema.incident_priority;
    ins_category : string;
    ins_location : string;
    ins_reporter_id : Schema.uuid;
    ins_assigned_to : option Schema.uuid;
    ins_evidence_urls : option (list string);
    ins_resolved_at : option Schema.timestamptz }.

Definition default {A : Type} (d : A) (x : option A) : A :=
  match x with
  | Some v => v
  | None => d
  end.

(** [.insert(values).select().single()] *)
Definition insert_incident (v : IncidentInsert) (w : World)
  : (Incident.t + PostgrestError) * World :=
  let (lost, w1) := round_trip InsertIncident w in
  if lost then (inr FetchFailed, w1)
  else match session w1 with
       | None => (inr (RowLevelSecurity "incidents"), w1)
       | Some uid =>
           if negb (String.eqb uid (ins_reporter_id v))
           then (inr (RowLevelSecurity "incidents"), w1)
           else
             let (id, w2) := gen_random_uuid w1 in
             let row :=
               Incident.make id (ins_title v) (ins_description v)
                 (Schema.status_label (default Schema.open (ins_status v)))
                 (Schema.priority_label (default Schema.medium (ins_priority v)))
                 (ins_category v) (ins_location v) (ins_reporter_id v)
                 (ins_assigned_to v) (ins_evidence_urls v)
                 (now w1) (now w1) (ins_resolved_at v) in
             (inl row, with_incidents (incidents w2 ++ [row]) w2)
       end.

(** The row after [UPDATE ... SET status, resolved_at]; the trigger
    [update_incidents_updated_at] refreshes [updated_at]. *)
Definition set_status (status : Schema.incident_status)
    (resolved_at : option Schema.timestamptz) (at_time : Schema.timestamptz)
    (i : Incident.t) : Incident.t :=
  Incident.make (Incident.id i) (Incident.title i) (Incident.description i)
    (Schema.status_label status) (Incident.priority i) (Incident.category i)
    (Incident.location i) (Incident.reporter_id i) (Incident.assigned_to i)
    (Incident.evidence_urls i) (Incident.created_at i) at_time resolved_at.

(** [UPDATE ... SET ... WHERE ...].  The table keeps no order of its
    own: the list of its rows is the order in which a scan meets them,
    and the new version of an updated row is written behind the rows
    that stay. *)
Definition update_where {A : Type} (matching : A -> bool) (set : A -> A)
    (rows : list A) : list A :=
  filter (fun r => negb (matching r)) rows ++ map set (filter matching rows).

(** [.update({ status, resolved_at }).eq("id", id)].  Without a session
    no row is visible to the statement, which then changes nothing and
    reports no error. *)
Definition update_incident (id : Schema.uuid) (status : Schema.incident_status)
    (resolved_at : option Schema.timestamptz) (w : World)
  : option PostgrestError * World :=
  let (lost, w1) := round_trip (UpdateIncident id) w in
  if lost then (Some FetchFailed, w1)
  else match session w1 with
       | None => (None, w1)
       | Some _ =>
           (None,
            with_incidents
              (update_where (fun i => String.eqb (Incident.id i) id)
                 (set_status status resolved_at (now w1)) (incidents w1))
              w1)
       end.

(** [ORDER BY created_at DESC] *)
Definition newest_first (a b : Incident.t) : Z :=
  (Z.of_nat (Incident.created_at b) - Z.of_nat (Incident.created_at a))%Z.

(** [.select("*").order("created_at", { ascending: false })] *)
Definition select_incidents (w : World)
  : (list Incident.t + PostgrestError) * World :=
  let (lost, w1) := round_trip SelectIncidents w in
  if lost then (inr FetchFailed, w1)
  else match session w1 with
       | None => (inl [], w1)
       | Some _ => (inl (Stable.sort newest_first (incidents w1)), w1)
       end.

(** *** Table [incident_updates] *)

Record UpdateInsert : Type := mkUpdateInsert
  { ins_incident_id : Schema.uuid;
    ins_user_id : option Schema.uuid;
    ins_update_type : string;
    ins_content : Js.text }.

(** [.insert(values)] *)
Definition insert_incident_update (v : UpdateInsert) (w : World)
  : option PostgrestError * World :=
  let (lost, w1) := round_trip (InsertIncidentUpdate (ins_incident_id v)) w in
  if lost then (Some FetchFailed, w1)
  else match session w1, ins_user_id v with
       | Some uid, Some author =>
           if negb (String.eqb uid author)
           then (Some (RowLevelSecurity "incident_updates"), w1)
           else if negb (existsb (fun i => String.eqb (Incident.id i) (ins_incident_id v))
                           (incidents w1))
           then (Some (ForeignKeyViolation "incident_id"), w1)
           else
             let (id, w2) := gen_random_uuid w1 in
             let row :=
               Update.make id (ins_incident_id v) author (ins_update_type v)
                 (ins_content v) (now w1) in
             (None, with_incident_updates (incident_updates w2 ++ [row]) w2)
       | Some _, None => (Some (RowLevelSecurity "incident_updates"), w1)
       | None, _ => (Some (RowLevelSecurity "incident_updates"), w1)
       end.

(** *** Table [profiles] *)

(** [.select("full_name, email").eq("id", id).single()], of which the
    callers keep [data] only. *)
Definition select_profile (id : Schema.uuid) (w : World)
  : option (string * string) * World :=
  let (lost, w1) := round_trip (SelectProfile id) w in
  if lost then (None, w1)
  else match session w1 with
       | None => (None, w1)
       | Some _ =>
           (match find (fun p => String.eqb (Profile.id p) id) (profiles w1) with
            | Some p => Some (Profile.full_name p, Profile.email p)
            | None => None
            end, w1)
       end.

(** *** Reads of the detail dialog

    These requests take their time and can be lost like any other; the
    trace [requests] keeps to the requests of the list and of the
    mutations. *)
Definition exchange (w : World) : bool * World :=
  (hd false (outages w),
   mkWorld (project_url w) (session w) (profiles w) (incidents w)
     (incident_updates w) (evidence_bucket w) (now w + hd 1 (delays w))
     (uuid_counter w) (tl (outages w)) (tl (delays w)) (requests w)).

(** What [.single()] reports: the failure of the request, or a result
    that is not exactly one row. *)
Inductive SingleError : Type :=
| Failed (e : PostgrestError)
| NotOneRow (rows : nat).

(** [.select("*").eq("id", id).single()] on [incidents] *)
Definition select_incident (id : Schema.uuid) (w : World)
  : (Incident.t + SingleError) * World :=
  let (lost, w1) := exchange w in
  if lost then (inr (Failed FetchFailed), w1)
  else
    match
      match session w1 with
      | None => []
      | Some _ => filter (fun i => String.eqb (Incident.id i) id) (incidents w1)
      end
    with
    | [row] => (inl row, w1)
    | rows => (inr (NotOneRow (List.length rows)), w1)
    end.

(** [ORDER BY created_at DESC] on [incident_updates] *)
Definition latest_first (a b : Update.t) : Z :=
  (Z.of_nat (Update.created_at b) - Z.of_nat (Update.created_at a))%Z.

(** [.select("*").eq("incident_id", id).order("created_at",
    { ascending: false })] on [incident_updates] *)
Definition select_incident_updates (id : Schema.uuid) (w : World)
  : (list Update.t + PostgrestError) * World :=
  let (lost, w1) := exchange w in
  if lost then (inr FetchFailed, w1)
  else match session w1 with
       | None => (inl [], w1)
       | Some _ =>
           (inl (Stable.sort latest_first
                   (filter (fun u => String.eqb (Update.incident_id u) id)
                      (incident_updates w1))), w1)
       end.

End Supabase.

(** ** Promises *)

Module Promise.

Inductive Thrown : Type :=
| NotAuthenticated
| StoreError (e : Supabase.PostgrestError).

Inductive Settled (A : Type) : Type :=
| Resolved (a : A)
| Rejected (e : Thrown).
Arguments Resolved {A} a.
Arguments Rejected {A} e.

Definition t (A : Type) : Type := Supabase.World -> Settled A * Supabase.World.

Definition ret {A : Type} (a : A) : t A := fun w => (Resolved a, w).

Definition throw {A : Type} (e : Thrown) : t A := fun w => (Rejected e, w).

Definition bind {A B : Type} (m : t A) (k : A -> t B) : t B :=
  fun w =>
    match m w with
    | (Resolved a, w') => k a w'
    | (Rejected e, w') => (Rejected e, w')
    end.

(** Awaiting a call of the client library, which never rejects. *)
Definition await {A : Type} (call : Supabase.World -> A * Supabase.World) : t A :=
  fun w => let (a, w') := call w in (Resolved a, w').

(** [Date.now()] and [new Date()]: the time in milliseconds.  Two
    readings are equal when the requests between them took no time. *)
Definition clock : t Schema.timestamptz := fun w => (Resolved (Supabase.now w), w).

End Promise.

Notation "x <- m ;; k" := (Promise.bind m (fun x => k))
  (at level 61, m at next level, right associativity).

(** ** IncidentForm.tsx: reporting an incident *)

Module IncidentForm.
Import Promise.

(** Of a chosen [File] only the name is read. *)
Record File : Type := mkFile { name : string }.

(** The state of the form. *)
Record State : Type := mkState
  { title : Js.text;
    description : Js.text;
    priority : Schema.incident_priority;
    category : string;
    location : string;
    files : list File }.

(** [useState] initial values, also restored by [resetForm]. *)
Definition initial : State :=
  mkState [] [] Schema.medium EmptyString EmptyString [].

(** The object name [`${user.id}/${Date.now()}.${fileExt}`]. *)
Definition object_name (user_id : Schema.uuid) (stamp : Schema.timestamptz)
    (fileExt : string) : string :=
  (user_id ++ "/" ++ Js.of_nat stamp ++ "." ++ fileExt)%string.

(** The loop [for (const file of files)], which pushes one public URL
    per uploaded file. *)
Fixpoint upload_files (user_id : Schema.uuid) (files : list File)
    (evidenceUrls : list string) : Promise.t (list string) :=
  match files with
  | [] => ret evidenceUrls
  | file :: rest =>
      let fileExt := Js.split_pop "." (name file) in
      stamp <- clock ;;
      let fileName := object_name user_id stamp fileExt in
      uploadError <- await (Supabase.upload fileName) ;;
      match uploadError with
      | Some e => throw (StoreError e)
      | None =>
          publicUrl <- await (fun w => (Supabase.getPublicUrl fileName w, w)) ;;
          upload_files user_id rest (evidenceUrls ++ [publicUrl])
      end
  end.

(** The [mutationFn] of [createIncident]. *)
Definition createIncident (form : State) : Promise.t Incident.t :=
  user <- await Supabase.getUser ;;
  match user with
  | None => throw NotAuthenticated
  | Some user_id =>
      evidenceUrls <- upload_files user_id (files form) [] ;;
      reply <- await (Supabase.insert_incident
                        {| Supabase.ins_title := title form;
                           Supabase.ins_description := description form;
                           Supabase.ins_status := None;
                           Supabase.ins_priority := Some (priority form);
                           Supabase.ins_category := category form;
                           Supabase.ins_location := location form;
                           Supabase.ins_reporter_id := user_id;
                           Supabase.ins_assigned_to := None;
                           Supabase.ins_evidence_urls := Some evidenceUrls;
                           Supabase.ins_resolved_at := None |}) ;;
      match reply with
      | inr error => throw (StoreError error)
      | inl data => ret data
      end
  end.

(** The inputs marked [required]: title, location and description, whose
    components hand the mark on to the native input.  The category select
    carries no such mark. *)
Definition required_filled (form : State) : bool :=
  negb (List.length (title form) =? 0) &&
  negb (location form =? EmptyString)%string &&
  negb (List.length (description form) =? 0).

Inductive Submission : Type :=
| Blocked
| Mutated (outcome : Settled Incident.t).

(** Pressing "Submit Report": the browser refuses to submit a form with
    an empty required input, otherwise [onSubmit] runs the mutation. *)
Definition submit (form : State) (w : Supabase.World) : Submission * Supabase.World :=
  if required_filled form
  then let (outcome, w') := createIncident form w in (Mutated outcome, w')
  else (Blocked, w).

(** [removeFile]: [files.filter((_, i) => i !== index)] *)
Fixpoint filter_index (keep : nat -> bool) (from : nat) (files : list File)
  : list File :=
  match files with
  | [] => []
  | file :: rest =>
      if keep from then file :: filter_index keep (S from) rest
      else filter_index keep (S from) rest
  end.

Definition removeFile (index : nat) (form : State) : State :=
  mkState (title form) (description form) (priority form) (category form)
    (location form)
    (filter_index (fun i => negb (i =? index)) 0 (files form)).

End IncidentForm.

(** ** IncidentDetails.tsx: status changes and comments *)

Module IncidentDetails.
Import Promise.

(** The [mutationFn] of [updateStatus]. *)
Definition updateStatus (incidentId : Schema.uuid) (status : Schema.incident_status)
  : Promise.t unit :=
  today <- clock ;;
  error <- await (Supabase.update_incident incidentId status
                    (match status with
                     | Schema.resolved => Some today
                     | _ => None
                     end)) ;;
  match error with
  | Some e => throw (StoreError e)
  | None =>
      user <- await Supabase.getUser ;;
      _ <- await (Supabase.insert_incident_update
                    {| Supabase.ins_incident_id := incidentId;
                       Supabase.ins_user_id := user;
                       Supabase.ins_update_type := "status_change";
                       Supabase.ins_content :=
                         ("Status changed to: "
                            ++ Schema.status_label status)%string |}) ;;
      ret tt
  end.

(** The [mutationFn] of [addUpdate]; [newUpdate] is the text typed into
    the comment box. *)
Definition addUpdate (incidentId : Schema.uuid) (newUpdate : Js.text)
  : Promise.t unit :=
  user <- await Supabase.getUser ;;
  error <- await (Supabase.insert_incident_update
                    {| Supabase.ins_incident_id := incidentId;
                       Supabase.ins_user_id := user;
                       Supabase.ins_update_type := "comment";
                       Supabase.ins_content := newUpdate |}) ;;
  match error with
  | Some e => throw (StoreError e)
  | None => ret tt
  end.

End IncidentDetails.

(** ** IncidentList.tsx: the list and its filters *)

Module IncidentList.
Import Promise.

(** An incident with the summaries of its reporter and assignee:
    [{ ...incident, reporter, assigned }]. *)
Record Enriched : Type := mkEnriched
  { row : Incident.t;
    reporter : option (string * string);
    assigned : option (string * string) }.

Definition with_profiles (incident : Incident.t) : Promise.t Enriched :=
  reporterData <- await (Supabase.select_profile (Incident.reporter_id incident)) ;;
  assignedData <-
    match Incident.assigned_to incident with
    | Some assignee => await (Supabase.select_profile assignee)
    | None => ret None
    end ;;
  ret (mkEnriched incident reporterData assignedData).

Fixpoint all (incidentsData : list Incident.t) : Promise.t (list Enriched) :=
  match incidentsData with
  | [] => ret []
  | incident :: rest =>
      e <- with_profiles incident ;;
      es <- all rest ;;
      ret (e :: es)
  end.

(** The [queryFn] of the incidents query. *)
Definition queryFn : Promise.t (list Enriched) :=
  reply <- await Supabase.select_incidents ;;
  match reply with
  | inr error => throw (StoreError error)
  | inl incidentsData => all incidentsData
  end.

(** The predicate of [filteredIncidents]; a filter left at ["all"] lets
    every incident through. *)
Definition matches (searchQuery : Js.text) (statusFilter priorityFilter : string)
    (incident : Enriched) : bool :=
  let matchesSearch :=
    Js.includes (Js.toLowerCase (Incident.title (row incident)))
      (Js.toLowerCase searchQuery) ||
    Js.includes (Js.toLowerCase (Incident.description (row incident)))
      (Js.toLowerCase searchQuery) in
  let matchesStatus :=
    (statusFilter =? "all")%string ||
    (Incident.status (row incident) =? statusFilter)%string in
  let matchesPriority :=
    (priorityFilter =? "all")%string ||
    (Incident.priority (row incident) =? priorityFilter)%string in
  matchesSearch && matchesStatus && matchesPriority.

(** [incidents?.filter(...)] *)
Definition filteredIncidents (searchQuery : Js.text)
    (statusFilter priorityFilter : string)
    (incidents : option (list Enriched)) : option (list Enriched) :=
  option_map (filter (matches searchQuery statusFilter priorityFilter)) incidents.

(** What the list shows once the query has settled: the fetched
    incidents that pass the filters. *)
Definition listIncidents (searchQuery : Js.text)
    (statusFilter priorityFilter : string) : Promise.t (list Enriched) :=
  incidents <- queryFn ;;
  ret (match filteredIncidents searchQuery statusFilter priorityFilter
               (Some incidents) with
       | Some shown => shown
       | None => []
       end).

(** [getPriorityColor] *)
Definition getPriorityColor (priority : string) : string :=
  if (priority =? "critical")%string
  then "bg-priority-critical text-priority-critical-foreground"
  else if (priority =? "high")%string
  then "bg-priority-high text-priority-high-foreground"
  else if (priority =? "medium")%string
  then "bg-priority-medium text-priority-medium-foreground"
  else if (priority =? "low")%string
  then "bg-priority-low text-priority-low-foreground"
  else "bg-muted".

(** [getStatusColor] *)
Definition getStatusColor (status : string) : string :=
  if (status =? "open")%string
  then "bg-status-open/10 text-status-open border-status-open"
  else if (status =? "in_progress")%string
  then "bg-status-in-progress/10 text-status-in-progress border-status-in-progress"
  else if (status =? "resolved")%string
  then "bg-status-resolved/10 text-status-resolved border-status-resolved"
  else if (status =? "closed")%string
  then "bg-status-closed/10 text-status-closed border-status-closed"
  else "bg-muted".

(** The text of the status badge: [incident.status.replace("_", " ")]. *)
Definition statusBadge (status : string) : string :=
  Js.replaceFirst "_" " " status.

(** Whether the card "No incidents found" is shown:
    [filteredIncidents?.length === 0]. *)
Definition noIncidentsFound (filtered : option (list Enriched)) : bool :=
  match filtered with
  | Some shown => List.length shown =? 0
  | None => false
  end.

End IncidentList.

(** ** IncidentDetails.tsx: the queries and controls of the dialog *)

Module IncidentDetailsView.
Import Promise.

(** The [queryFn] of the incident query.  A failed lookup of the
    incident is thrown; the lookups of the profiles keep [data] only. *)
Definition incidentQuery (incidentId : Schema.uuid) (w : Supabase.World)
  : (IncidentList.Enriched + Supabase.SingleError) * Supabase.World :=
  match Supabase.select_incident incidentId w with
  | (inr error, w1) => (inr error, w1)
  | (inl incidentData, w1) =>
      let (reporterData, w2) :=
        Supabase.select_profile (Incident.reporter_id incidentData) w1 in
      let (assignedData, w3) :=
        match Incident.assigned_to incidentData with
        | Some assignee => Supabase.select_profile assignee w2
        | None => (None, w2)
        end in
      (inl (IncidentList.mkEnriched incidentData reporterData assignedData), w3)
  end.

(** An update with the summary of its author: [{ ...update, user }]. *)
Record Authored : Type := mkAuthored
  { update : Update.t;
    user : option (string * string) }.

Fixpoint all (updatesData : list Update.t) : Promise.t (list Authored) :=
  match updatesData with
  | [] => ret []
  | u :: rest =>
      userData <- await (Supabase.select_profile (Update.user_id u)) ;;
      us <- all rest ;;
      ret (mkAuthored u userData :: us)
  end.

(** The [queryFn] of the updates query. *)
Definition updatesQuery (incidentId : Schema.uuid) : Promise.t (list Authored) :=
  reply <- await (Supabase.select_incident_updates incidentId) ;;
  match reply with
  | inr error => throw (StoreError error)
  | inl updatesData => all updatesData
  end.

(** The [disabled] of the button "Add Update":
    [!newUpdate.trim() || addUpdate.isPending]. *)
Definition addUpdateDisabled (newUpdate : Js.text) (isPending : bool) : bool :=
  negb (Js.truthy (Js.trim newUpdate)) || isPending.

(** Pressing "Add Update": a disabled button does nothing, otherwise
    [onClick] runs the mutation. *)
Definition pressAddUpdate (incidentId : Schema.uuid) (newUpdate : Js.text)
    (isPending : bool) (w : Supabase.World)
  : option (Settled unit) * Supabase.World :=
  if addUpdateDisabled newUpdate isPending then (None, w)
  else let (outcome, w') := IncidentDetails.addUpdate incidentId newUpdate w in
       (Some outcome, w').

End IncidentDetailsView.

(** ** The specification's vocabulary

    These definitions follow the words of the specification, not the
    code; the theorems below compare the two. *)

Module Spec.

(** *** Ranking of labels (section 4.2) *)

(** The position at which a label is first encountered in the input. *)
Fixpoint first_seen (keys : list string) (k : string) : nat :=
  match keys with
  | [] => 0
  | k' :: rest => if String.eqb k k' then 0 else S (first_seen rest k)
  end.

(** Higher count first; between equal counts, the label encountered
    first. *)
Definition ranks_before (keys : list string) (a b : string * nat) : Prop :=
  snd b < snd a \/
  (snd a = snd b /\ first_seen keys (fst a) < first_seen keys (fst b)).

(** [top] holds the [n] entries with the highest counts of the mapping
    from label to occurrence count, fewer when there are fewer labels. *)
Definition top_by_count (n : nat) (keys : list string)
    (top : list (string * nat)) : Prop :=
  exists ranking : list (string * nat),
    (forall k c, In (k, c) ranking <->
                 In k keys /\ c = count_occ string_dec keys k) /\
    NoDup (map fst ranking) /\
    StronglySorted (ranks_before keys) ranking /\
    top = firstn n ranking.

(** *** Listing filter (section 4.1) *)

(** The capital letters from U+0000 to U+00FF: A-Z, and the accented
    capitals U+00C0-U+00DE without the multiplication sign U+00D7.  The
    small form of each lies 32 above it. *)
Definition capitals : list N :=
  map N.of_nat (seq 65 26 ++ seq 192 23 ++ seq 216 7).

(** The same letter, capital or small. *)
Definition same_letter (a b : N) : Prop :=
  a = b \/
  (In a capitals /\ b = (a + 32)%N) \/
  (In b capitals /\ a = (b + 32)%N).

(** Some substring of [text] equals [q] up to letter case. *)
Definition ci_substring (q text : Js.text) : Prop :=
  exists pre mid post : Js.text,
    text = pre ++ mid ++ post /\ Forall2 same_letter mid q.

(** A text of the characters U+0000 to U+00FF. *)
Definition latin1 (t : Js.text) : bool := forallb (fun u => (u <? 256)%N) t.

(** An incident whose title and description are such texts. *)
Definition latin1_incident (i : Incident.t) : bool :=
  latin1 (Incident.title i) && latin1 (Incident.description i).

Record Filter : Type := mkFilter
  { search : option Js.text;
    by_status : option Schema.incident_status;
    by_priority : option Schema.incident_priority }.

Definition no_filter : Filter := mkFilter None None None.

(** The intersection of the supplied predicates. *)
Definition satisfies (f : Filter) (i : Incident.t) : Prop :=
  (forall q, search f = Some q ->
     ci_substring q (Incident.title i) \/ ci_substring q (Incident.description i)) /\
  (forall s, by_status f = Some s -> Incident.status i = Schema.status_label s) /\
  (forall p, by_priority f = Some p -> Incident.priority i = Schema.priority_label p).

(** The store after a series of comment submissions, each given by its
    incident and its text. *)
Definition after_comments (submissions : list (Schema.uuid * Js.text))
    (w : Supabase.World) : Supabase.World :=
  fold_left (fun w' c => snd (IncidentDetails.addUpdate (fst c) (snd c) w'))
    submissions w.


(** How a filter is entered into the controls of the list: an empty
    search box and the ["all"] entries of the two selects stand for an
    absent predicate. *)
Definition searchQuery (f : Filter) : Js.text :=
  match search f with
  | Some q => q
  | None => []
  end.

Definition statusFilter (f : Filter) : string :=
  match by_status f with
  | Some s => Schema.status_label s
  | None => "all"
  end.

Definition priorityFilter (f : Filter) : string :=
  match by_priority f with
  | Some p => Schema.priority_label p
  | None => "all"
  end.

Definition listIncidents (f : Filter) : Promise.t (list IncidentList.Enriched) :=
  IncidentList.listIncidents (searchQuery f) (statusFilter f) (priorityFilter f).

(** *** Vocabulary of the further properties *)

(** How often a character occurs in a text. *)
Fixpoint occurrences (c : ascii) (s : string) : nat :=
  match s with
  | EmptyString => 0
  | String a s' => (if Ascii.eqb a c then 1 else 0) + occurrences c s'
  end.

(** The white space of JavaScript: the characters of [WhiteSpace] and
    of [LineTerminator]. *)
Definition white_space : list N :=
  [ 9; 10; 11; 12; 13; 32; 160; 5760; 8192; 8193; 8194; 8195; 8196; 8197;
    8198; 8199; 8200; 8201; 8202; 8232; 8233; 8239; 8287; 12288; 65279 ]%N.

(** A text of white space only. *)
Definition blank (s : Js.text) : Prop := Forall (fun u => In u white_space) s.

Definition priority_labels : list string :=
  map Schema.priority_label
    [Schema.low; Schema.medium; Schema.high; Schema.critical].

(** What a change of status has no business with: every column of an
    incident but [status], [resolved_at] and [updated_at]. *)
Definition apart_from_status (i : Incident.t) :=
  (Incident.id i, Incident.title i, Incident.description i,
   Incident.priority i, Incident.category i, Incident.location i,
   Incident.reporter_id i, Incident.assigned_to i, Incident.evidence_urls i,
   Incident.created_at i).


(** [resolved_at] is set exactly on the resolved incidents. *)
Definition resolution_consistent (i : Incident.t) : Prop :=
  Incident.resolved_at i <> None <-> Incident.status i = "resolved".

(** The own-property order of a dictionary whose labels were first
    encountered in the order of [keys]: array indices first, ascending;
    then the other labels as first encountered. *)
Definition enumerated_before (keys : list string) (k k' : string) : Prop :=
  match Js.array_index k, Js.array_index k' with
  | Some n, Some n' => (n <= n')%N
  | Some _, None => True
  | None, Some _ => False
  | None, None => first_seen keys k < first_seen keys k'
  end.

(** The summary of the account [id]: name and address of its profile. *)
Definition summary_in (profiles : list Profile.t) (id : Schema.uuid)
    (summary : option (string * string)) : Prop :=
  match summary with
  | Some (name, address) =>
      exists p, In p profiles /\ Profile.id p = id /\
                Profile.full_name p = name /\ Profile.email p = address
  | None => forall p, In p profiles -> Profile.id p <> id
  end.

(** Newest first, for updates. *)
Definition not_older_update (a b : Update.t) : Prop :=
  Update.created_at b <= Update.created_at a.

End Spec.

(** ** Invariants used in the proofs *)

Module Invariant.

(** The dictionary built from the labels [seen] so far: one own
    property per label, holding its number of occurrences, in the order
    in which the labels were first encountered. *)
Definition tallied (seen : list string) (o : Js.obj) : Prop :=
  NoDup (map fst o) /\
  (forall k c, In (k, c) o <-> In k seen /\ c = count_occ string_dec seen k) /\
  StronglySorted
    (fun a b => Spec.first_seen seen (fst a) < Spec.first_seen seen (fst b)) o.

Fixpoint all_digits (s : string) : bool :=
  match s with
  | EmptyString => true
  | String c s' => Js.is_digit c && all_digits s'
  end.

(** The bucket holds no object of [user_id] named after a time that is
    yet to come. *)
Definition no_later_upload (user_id : Schema.uuid) (w : Supabase.World) : Prop :=
  forall stamp fileExt,
    Supabase.now w <= stamp ->
    ~ In (IncidentForm.object_name user_id stamp fileExt)
        (Supabase.evidence_bucket w).

(** The dictionary built from the labels [seen] so far, whatever their
    kind: one own property per label, holding its number of occurrences,
    enumerated with the array indices first. *)
Definition counted (seen : list string) (o : Js.obj) : Prop :=
  NoDup (map fst o) /\
  (forall k c, In (k, c) o <-> In k seen /\ c = count_occ string_dec seen k) /\
  StronglySorted (fun a b => Spec.enumerated_before seen (fst a) (fst b)) o.

End Invariant.

(** ** Sample data *)

Module Sample.

(** An incident reported by ["u1"] at time [created]. *)
Definition incident (id : Schema.uuid) (priority : Schema.incident_priority)
    (category location : string) (created : Schema.timestamptz) : Incident.t :=
  Incident.make id "Alarm" "Alarm went off" "open"
    (Schema.priority_label priority) category location "u1" None (Some [])
    created created None.

(** The scenario of the specification: incidents A and B. *)
Definition scenario : list Incident.t :=
  [ incident "a" Schema.critical "fire" "Building 1" 1;
    incident "b" Schema.low "theft" "Building 2" 2 ].

(** An incident titled "\u00C9COLE EST", reported after A and B. *)
Definition school : Incident.t :=
  Incident.make "c" [201; 67; 79; 76; 69; 32; 69; 83; 84]%N "Gate left open"
    "open" "low" "other" "Building 3" "u1" None (Some []) 3 3 None.

(** Five incidents of one shift: two still open, one in progress, one
    resolved and one closed. *)
Definition shift : list Incident.t :=
  [ incident "a" Schema.critical "fire" "Building 1" 1;
    Supabase.set_status Schema.in_progress None 6
      (incident "b" Schema.low "theft" "Building 2" 2);
    Supabase.set_status Schema.resolved (Some 7) 7
      (incident "c" Schema.high "theft" "Building 1" 3);
    Supabase.set_status Schema.closed None 8
      (incident "d" Schema.medium "vandalism" "Car park" 4);
    incident "e" Schema.low "other" "Building 2" 5 ].

(** Two incidents located by room number. *)
Definition rooms : list Incident.t :=
  [ incident "a" Schema.high "theft" "12" 1;
    incident "b" Schema.low "fire" "7" 2 ].

Definition ann : Profile.t :=
  Profile.make "u1" "Ann" "ann@example.org" "security_officer" None 0 0.

(** Ann is signed in, incident A is on record, the network is up. *)
Definition world : Supabase.World :=
  Supabase.mkWorld "https://project.supabase.co" (Some "u1") [ann]
    [incident "a" Schema.critical "fire" "Building 1" 1] [] [] 10 0 [] [] [].

(** The same, with the third of the coming requests lost. *)
Definition world_third_request_lost : Supabase.World :=
  Supabase.mkWorld "https://project.supabase.co" (Some "u1") [ann]
    [incident "a" Schema.critical "fire" "Building 1" 1] [] [] 10 0
    [false; false; true] [] [].

(** Ann is signed in and incidents A and B are on record. *)
Definition world_scenario : Supabase.World :=
  Supabase.mkWorld "https://project.supabase.co" (Some "u1") [ann]
    scenario [] [] 10 0 [] [] [].

(** Ann is signed in and incidents A, B and the one at the school are
    on record. *)
Definition world_school : Supabase.World :=
  Supabase.mkWorld "https://project.supabase.co" (Some "u1") [ann]
    (scenario ++ [school]) [] [] 10 0 [] [] [].

(** The same, with the second of the coming requests lost. *)
Definition world_second_request_lost : Supabase.World :=
  Supabase.mkWorld "https://project.supabase.co" (Some "u1") [ann]
    [incident "a" Schema.critical "fire" "Building 1" 1] [] [] 10 0
    [false; true] [] [].

(** The same store with nobody signed in. *)
Definition world_signed_out : Supabase.World :=
  Supabase.mkWorld "https://project.supabase.co" None [ann]
    [incident "a" Schema.critical "fire" "Building 1" 1] [] [] 10 0 [] [] [].

(** A report with every text filled in and two pictures attached. *)
Definition report : IncidentForm.State :=
  IncidentForm.mkState "Door forced" "The side door was forced open."
    Schema.high "unauthorized_access" "Building 2"
    [IncidentForm.mkFile "door.png"; IncidentForm.mkFile "lock.png"].

(** Ann is signed in; of the coming requests the second takes less than
    a millisecond. *)
Definition world_quick_upload : Supabase.World :=
  Supabase.mkWorld "https://project.supabase.co" (Some "u1") [ann]
    [incident "a" Schema.critical "fire" "Building 1" 1] [] [] 10 0 []
    [1; 0] [].

(** A report whose category was never chosen. *)
Definition report_without_category : IncidentForm.State :=
  IncidentForm.mkState "Door forced" "The side door was forced open."
    Schema.high EmptyString "Building 2" [].

(** Ann is signed in; of the coming requests the fourth is lost. *)
Definition world_fourth_request_lost : Supabase.World :=
  Supabase.mkWorld "https://project.supabase.co" (Some "u1") [ann]
    [incident "a" Schema.critical "fire" "Building 1" 1] [] [] 10 0
    [false; false; false; true] [] [].

(** Two updates of incident A by Ann, and one of another incident. *)
Definition timeline : list Update.t :=
  [ Update.make "1" "a" "u1" "comment" "Guard on the way" 3;
    Update.make "2" "b" "u1" "comment" "Window checked" 4;
    Update.make "3" "a" "u1" "status_change" "Status changed to: resolved" 5 ].

Definition world_with_timeline : Supabase.World :=
  Supabase.mkWorld "https://project.supabase.co" (Some "u1") [ann]
    scenario timeline [] 10 4 [] [] [].

(** Incidents located by room number and by name, in this order:
    ["12"], ["Lobby"], ["7"], ["Lobby"]. *)
Definition mixed_locations : list Incident.t :=
  [ incident "a" Schema.high "theft" "12" 1;
    incident "b" Schema.low "fire" "Lobby" 2;
    incident "c" Schema.low "fire" "7" 3;
    incident "d" Schema.medium "other" "Lobby" 4 ].

End Sample.

(** * Properties *)

(** ** Stable sorting *)

Section StableFacts.
Context {A : Type}.
Variable cmp : A -> A -> Z.

Lemma insert_permutation (x : A) (l : list A) :
  Permutation (Stable.insert cmp x l) (x :: l).
Proof.
  induction l as [|y l IH]; simpl.
  - apply Permutation_refl.
  - destruct (0 <? cmp x y)%Z.
    + apply Permutation_trans with (y :: x :: l).
      * now apply perm_skip.
      * apply perm_swap.
    + apply Permutation_refl.
Qed.

Lemma sort_permutation (l : list A) : Permutation (Stable.sort cmp l) l.
Proof.
  induction l as [|x l IH]; simpl.
  - apply perm_nil.
  - apply Permutation_trans with (x :: Stable.sort cmp l).
    + apply insert_permutation.
    + now apply perm_skip.
Qed.

(** [ahead] is the target order, [earlier] the order of the input. *)
Variables ahead earlier : A -> A -> Prop.
Hypothesis ahead_trans : forall x y z, ahead x y -> ahead y z -> ahead x z.
Hypothesis cmp_swaps : forall x y, (0 < cmp x y)%Z -> ahead y x.
Hypothesis cmp_keeps : forall x y, (cmp x y <= 0)%Z -> earlier x y -> ahead x y.

Lemma insert_sorted (x : A) (l : list A) :
  StronglySorted ahead l ->
  Forall (earlier x) l ->
  StronglySorted ahead (Stable.insert cmp x l).
Proof.
  induction l as [|y l IH]; simpl; intros Hs He.
  - constructor; [constructor | constructor].
  - inversion Hs as [|? ? Hs' Hy]; subst.
    inversion He as [|? ? Hxy He']; subst.
    destruct (0 <? cmp x y)%Z eqn:E.
    + apply Z.ltb_lt in E.
      constructor.
      * now apply IH.
      * apply (Permutation_Forall (Permutation_sym (insert_permutation x l))).
        constructor; [now apply cmp_swaps | assumption].
    + apply Z.ltb_ge in E.
      assert (Hax : ahead x y) by now apply cmp_keeps.
      constructor; [assumption|].
      constructor; [assumption|].
      eapply Forall_impl; [|exact Hy].
      intros z Hz. now apply ahead_trans with y.
Qed.

Lemma sort_sorted (l : list A) :
  StronglySorted earlier l -> StronglySorted ahead (Stable.sort cmp l).
Proof.
  induction l as [|x l IH]; simpl; intros Hs.
  - constructor.
  - inversion Hs as [|? ? Hs' Hx]; subst.
    apply insert_sorted.
    + now apply IH.
    + apply (Permutation_Forall (Permutation_sym (sort_permutation l))).
      assumption.
Qed.
End StableFacts.

(** ** Dictionaries *)

Lemma get_some_in (o : Js.obj) (k : string) (c : nat) :
  Js.get o k = Some c -> In (k, c) o.
Proof.
  induction o as [|[k' v] o IH]; simpl; [discriminate|].
  destruct (String.eqb_spec k k') as [->|Hne]; intros H.
  - injection H as ->. now left.
  - right. now apply IH.
Qed.

Lemma in_get_some (o : Js.obj) (k : string) (c : nat) :
  NoDup (map fst o) -> In (k, c) o -> Js.get o k = Some c.
Proof.
  induction o as [|[k' v] o IH]; simpl; [contradiction|].
  intros Hnd [Heq|Hin].
  - injection Heq as -> ->. now rewrite String.eqb_refl.
  - inversion Hnd as [|? ? Hnotin Hnd']; subst.
    destruct (String.eqb_spec k k') as [->|Hne].
    + exfalso. apply Hnotin. change k' with (fst (k', c)). now apply in_map.
    + now apply IH.
Qed.

Lemma get_none_not_in (o : Js.obj) (k : string) :
  Js.get o k = None -> ~ In k (map fst o).
Proof.
  induction o as [|[k' v] o IH]; simpl; [tauto|].
  destruct (String.eqb_spec k k') as [->|Hne]; [discriminate|].
  intros H [Heq|Hin]; [congruence | now apply IH].
Qed.

Lemma create_appends (o : Js.obj) (k : string) (v : nat) :
  Js.array_index k = None -> Js.create o k v = o ++ [(k, v)].
Proof.
  intros Hk. induction o as [|[k' v'] o IH]; simpl; [reflexivity|].
  unfold Js.key_before. rewrite Hk. now rewrite IH.
Qed.

Lemma replace_keys (o : Js.obj) (k : string) (v : nat) :
  map fst (Js.replace o k v) = map fst o.
Proof.
  induction o as [|[k' v'] o IH]; simpl; [reflexivity|].
  destruct (String.eqb k k'); simpl; [reflexivity | now rewrite IH].
Qed.

Lemma replace_in (o : Js.obj) (k : string) (v : nat) (k' : string) (c : nat) :
  NoDup (map fst o) -> In k (map fst o) ->
  (In (k', c) (Js.replace o k v) <->
   (k' = k /\ c = v) \/ (k' <> k /\ In (k', c) o)).
Proof.
  induction o as [|[k0 v0] o IH]; simpl; [tauto|].
  intros Hnd Hin. inversion Hnd as [|? ? Hnotin Hnd']; subst.
  destruct (String.eqb_spec k k0) as [->|Hne]; simpl.
  - split.
    + intros [Heq|Ho].
      * injection Heq as <- <-. now left.
      * right. split; [|now right].
        intros ->. apply Hnotin. change k0 with (fst (k0, c)). now apply in_map.
    + intros [[-> ->]|[Hne Ho]]; [now left|].
      destruct Ho as [Heq|Ho]; [congruence | now right].
  - destruct Hin as [Heq|Hin]; [congruence|].
    specialize (IH Hnd' Hin). split.
    + intros [Heq|Ho].
      * injection Heq as <- <-. right. split; [congruence | now left].
      * apply IH in Ho. destruct Ho as [?|[? ?]]; [now left | right; split; auto].
    + intros [[-> ->]|[Hne' Ho]].
      * right. apply IH. now left.
      * destruct Ho as [Heq|Ho]; [now left|]. right. apply IH. now right.
Qed.

Lemma sorted_by_key (R : string -> string -> Prop) (o o' : Js.obj) :
  map fst o = map fst o' ->
  StronglySorted (fun a b => R (fst a) (fst b)) o ->
  StronglySorted (fun a b => R (fst a) (fst b)) o'.
Proof.
  revert o'. induction o as [|a o IH]; intros [|a' o'] Hk Hs;
    simpl in Hk; try discriminate; [constructor|].
  injection Hk as Ha Ho. inversion Hs as [|? ? Hs' Hall]; subst.
  constructor; [now apply IH|].
  rewrite Forall_forall in *. intros b Hb.
  assert (Hin : In (fst b) (map fst o)) by (rewrite Ho; now apply in_map).
  apply in_map_iff in Hin. destruct Hin as [b0 [Hfst Hb0]].
  rewrite <- Ha, <- Hfst. now apply Hall.
Qed.

(** ** First encounters *)

Lemma first_seen_app (p q : list string) (x : string) :
  In x p -> Spec.first_seen (p ++ q) x = Spec.first_seen p x.
Proof.
  induction p as [|y p IH]; simpl; [contradiction|].
  intros Hin. destruct (String.eqb_spec x y) as [->|Hne]; [reflexivity|].
  destruct Hin as [Heq|Hin]; [congruence|]. now rewrite IH.
Qed.

Lemma first_seen_bound (p : list string) (x : string) :
  In x p -> Spec.first_seen p x < List.length p.
Proof.
  induction p as [|y p IH]; simpl; [contradiction|].
  intros Hin. destruct (String.eqb_spec x y) as [->|Hne]; [lia|].
  destruct Hin as [Heq|Hin]; [congruence|]. apply IH in Hin. lia.
Qed.

Lemma first_seen_new (p : list string) (x : string) :
  ~ In x p -> Spec.first_seen (p ++ [x]) x = List.length p.
Proof.
  induction p as [|y p IH]; simpl; intros Hnotin.
  - now rewrite String.eqb_refl.
  - destruct (String.eqb_spec x y) as [->|Hne]; [tauto|].
    rewrite IH; tauto.
Qed.

Lemma count_occ_snoc (p : list string) (k x : string) :
  count_occ string_dec (p ++ [k]) x =
  count_occ string_dec p x + (if string_dec k x then 1 else 0).
Proof.
  rewrite count_occ_app. simpl. destruct (string_dec k x); reflexivity.
Qed.

Lemma sorted_first_seen_app (seen more : list string) (o : Js.obj) :
  (forall a, In a o -> In (fst a) seen) ->
  StronglySorted
    (fun a b => Spec.first_seen seen (fst a) < Spec.first_seen seen (fst b)) o ->
  StronglySorted
    (fun a b => Spec.first_seen (seen ++ more) (fst a) <
                Spec.first_seen (seen ++ more) (fst b)) o.
Proof.
  intros Hseen Hs. induction Hs as [|a l Hs IH Hall]; constructor.
  - apply IH. intros b Hb. apply Hseen. now right.
  - rewrite Forall_forall in *. intros b Hb.
    rewrite !first_seen_app.
    + now apply Hall.
    + apply Hseen. now right.
    + apply Hseen. now left.
Qed.

Lemma sorted_snoc {A : Type} (R : A -> A -> Prop) (l : list A) (x : A) :
  StronglySorted R l -> Forall (fun a => R a x) l -> StronglySorted R (l ++ [x]).
Proof.
  induction 1 as [|a l Hs IH Hall]; simpl; intros Hx.
  - constructor; constructor.
  - inversion Hx as [|? ? Hax Hx']; subst.
    constructor; [now apply IH|].
    apply Forall_app. split; [assumption | now constructor].
Qed.

(** ** The tally of [Analytics] *)

Lemma tallied_empty : Invariant.tallied [] Js.empty.
Proof.
  split; [constructor|]. split; [|constructor].
  intros k c. simpl. tauto.
Qed.

Lemma tallied_keys (seen : list string) (o : Js.obj) :
  Invariant.tallied seen o -> forall a, In a o -> In (fst a) seen.
Proof.
  intros (_ & Hin & _) [k c] H. now apply Hin in H.
Qed.

Lemma tallied_step (seen : list string) (o : Js.obj) (k : string) :
  Js.array_index k = None ->
  Invariant.tallied seen o ->
  Invariant.tallied (seen ++ [k]) (Js.set o k (Js.or0 (Js.get o k) + 1)).
Proof.
  intros Hk Hinv. pose proof (tallied_keys _ _ Hinv) as Hkeys.
  destruct Hinv as (Hnd & Hin & Hs). unfold Js.set.
  destruct (Js.get o k) as [c0|] eqn:Hget; simpl.
  - (* the label was seen before: its count is replaced in place *)
    pose proof (get_some_in _ _ _ Hget) as Hkc.
    assert (Hko : In k (map fst o))
      by (change k with (fst (k, c0)); now apply in_map).
    pose proof (proj1 (Hin k c0) Hkc) as [Hseen Hc0].
    split; [now rewrite replace_keys|]. split.
    + intros k' c. rewrite (replace_in o k (c0 + 1) k' c Hnd Hko).
      rewrite count_occ_snoc, Hin, in_app_iff. simpl.
      destruct (string_dec k k') as [<-|Hne].
      * split.
        -- intros [[_ ->]|[Hne _]]; [|congruence]. split; [now left | lia].
        -- intros [_ ->]. left. split; [reflexivity | lia].
      * split.
        -- intros [[-> _]|[_ [H1 ->]]]; [congruence|]. split; [now left | lia].
        -- intros [[H1|[H1|[]]] ->]; [|congruence].
           right. split; [congruence|]. split; [assumption | lia].
    + apply (sorted_by_key
               (fun a b => Spec.first_seen (seen ++ [k]) a <
                           Spec.first_seen (seen ++ [k]) b) o).
      * now rewrite replace_keys.
      * now apply sorted_first_seen_app.
  - (* a new label: a property is created after the existing ones *)
    pose proof (get_none_not_in _ _ Hget) as Hnew.
    assert (Hunseen : ~ In k seen).
    { intros H. apply Hnew.
      assert (In (k, count_occ string_dec seen k) o) as H' by (apply Hin; auto).
      change k with (fst (k, count_occ string_dec seen k)). now apply in_map. }
    rewrite (create_appends o k 1 Hk).
    split; [|split].
    + rewrite map_app. simpl.
      apply NoDup_app; [assumption | constructor; [simpl; tauto | constructor] |].
      intros x Hx [<-|[]]. contradiction.
    + intros k' c. rewrite in_app_iff, count_occ_snoc, Hin, in_app_iff. simpl.
      destruct (string_dec k k') as [<-|Hne].
      * split.
        -- intros [[H1 _]|[Heq|[]]]; [contradiction|].
           injection Heq as <-. split; [right; now left|].
           rewrite (proj1 (count_occ_not_In string_dec seen k) Hunseen). reflexivity.
        -- intros [_ ->]. right. left.
           rewrite (proj1 (count_occ_not_In string_dec seen k) Hunseen). reflexivity.
      * split.
        -- intros [[H1 ->]|[Heq|[]]]; [|congruence]. split; [now left | lia].
        -- intros [[H1|[H1|[]]] ->]; [|congruence].
           left. split; [assumption | lia].
    + apply sorted_snoc; [now apply sorted_first_seen_app|].
      rewrite Forall_forall. intros a Ha. simpl.
      rewrite first_seen_app by now apply Hkeys.
      rewrite first_seen_new by assumption.
      apply first_seen_bound. now apply Hkeys.
Qed.

Lemma plain_key_not_index (k : string) :
  Js.plain_key k = true -> Js.array_index k = None.
Proof.
  unfold Js.plain_key. destruct (Js.array_index k); [discriminate | reflexivity].
Qed.

Lemma tallied_fold (key : Incident.t -> string) (l : list Incident.t) :
  forall (seen : list string) (o : Js.obj),
    Forall (fun k => Js.plain_key k = true) (map key l) ->
    Invariant.tallied seen o ->
    Invariant.tallied (seen ++ map key l)
      (fold_left
         (fun acc incident =>
            Js.set acc (key incident) (Js.or0 (Js.get acc (key incident)) + 1))
         l o).
Proof.
  induction l as [|i l IH]; simpl; intros seen o Hplain Hinv.
  - now rewrite app_nil_r.
  - inversion Hplain as [|? ? Hk Hrest]; subst.
    change (seen ++ key i :: map key l) with (seen ++ [key i] ++ map key l).
    rewrite app_assoc. apply IH; [assumption|].
    apply tallied_step; [now apply plain_key_not_index | assumption].
Qed.

Lemma ranks_before_trans (keys : list string) (a b c : string * nat) :
  Spec.ranks_before keys a b -> Spec.ranks_before keys b c ->
  Spec.ranks_before keys a c.
Proof. unfold Spec.ranks_before. lia. Qed.

(** The ranking computed from the labels of the incidents, before it is
    cut to its first entries. *)
Lemma ranked_tally (key : Incident.t -> string) (l : list Incident.t) :
  Forall (fun k => Js.plain_key k = true) (map key l) ->
  let ranking := Analytics.ranked (Analytics.tally key (Some l)) in
  (forall k c, In (k, c) ranking <->
               In k (map key l) /\ c = count_occ string_dec (map key l) k) /\
  NoDup (map fst ranking) /\
  StronglySorted (Spec.ranks_before (map key l)) ranking.
Proof.
  intros Hplain. unfold Analytics.ranked, Analytics.tally, Js.sort, Js.entries.
  set (o := fold_left _ l Js.empty).
  destruct (tallied_fold key l [] Js.empty Hplain tallied_empty)
    as (Hnd & Hin & Hs).
  simpl in Hnd, Hin, Hs. fold o in Hnd, Hin, Hs.
  pose proof (sort_permutation Analytics.by_count_desc o) as Hperm.
  cbv zeta. split; [|split].
  - intros k c. rewrite <- Hin. split; apply Permutation_in;
      [assumption | now apply Permutation_sym].
  - apply (Permutation_NoDup (l := map fst o)); [|assumption].
    apply Permutation_map. now apply Permutation_sym.
  - apply (sort_sorted Analytics.by_count_desc (Spec.ranks_before (map key l))
             (fun a b => Spec.first_seen (map key l) (fst a) <
                         Spec.first_seen (map key l) (fst b))).
    + apply ranks_before_trans.
    + intros x y H. unfold Analytics.by_count_desc in H. left. lia.
    + intros x y H Hxy. unfold Analytics.by_count_desc in H.
      unfold Spec.ranks_before. lia.
    + assumption.
Qed.

Lemma top_tally (key : Incident.t -> string) (n : nat) (l : list Incident.t) :
  Forall (fun k => Js.plain_key k = true) (map key l) ->
  Spec.top_by_count n (map key l)
    (Js.slice0 n (Analytics.ranked (Analytics.tally key (Some l)))).
Proof.
  intros Hplain. destruct (ranked_tally key l Hplain) as (Hin & Hnd & Hs).
  exists (Analytics.ranked (Analytics.tally key (Some l))).
  split; [exact Hin|]. split; [exact Hnd|]. split; [exact Hs | reflexivity].
Qed.

Lemma count_where_cons (p : Incident.t -> bool) (i : Incident.t) (l : list Incident.t) :
  Analytics.count_where p (Some (i :: l)) =
  (if p i then 1 else 0) + Analytics.count_where p (Some l).
Proof. simpl. destruct (p i); reflexivity. Qed.

Lemma no_incidents_nan (incidents : option (list Incident.t)) :
  Analytics.total (Analytics.stats incidents) = 0 ->
  Analytics.criticalWidth incidents = Analytics.Percent Js.NaN /\
  Analytics.highWidth incidents = Analytics.Percent Js.NaN.
Proof.
  destruct incidents as [[|i l]|]; simpl; intros H; try discriminate;
    split; reflexivity.
Qed.

(** ** Claims about the statistics *)

(** C5, as the code has it.  A ranking is right when its own labels are
    plain keys (not array indices such as ["7"], not names inherited from
    [Object.prototype]), whatever the other labels are: for incidents
    with such categories the first [n] entries of the category ranking
    are the [n] entries with the highest counts, ties going to the label
    encountered first, fewer when there are fewer labels; for incidents
    with such locations the same holds of the location ranking.
    [topCategories] and [topLocations] are the case [n = 5]. *)
Theorem top_entries_plain_labels (n : nat) (l : list Incident.t) :
  (Forall (fun k => Js.plain_key k = true) (map Incident.category l) ->
   Spec.top_by_count n (map Incident.category l)
     (Js.slice0 n (Analytics.ranked (Analytics.categoryStats (Some l)))) /\
   Spec.top_by_count 5 (map Incident.category l) (Analytics.topCategories (Some l))) /\
  (Forall (fun k => Js.plain_key k = true) (map Incident.location l) ->
   Spec.top_by_count n (map Incident.location l)
     (Js.slice0 n (Analytics.ranked (Analytics.locationStats (Some l)))) /\
   Spec.top_by_count 5 (map Incident.location l) (Analytics.topLocations (Some l))).
Proof.
  split; intros H; split; now apply top_tally.
Qed.

Lemma top_entries_plain_labels_witness :
  Spec.top_by_count 5 (map Incident.category Sample.rooms)
    (Analytics.topCategories (Some Sample.rooms)) /\
  Spec.top_by_count 1 (map Incident.location Sample.scenario)
    (Js.slice0 1 (Analytics.ranked (Analytics.locationStats (Some Sample.scenario)))).
Proof.
  split.
  - apply (proj1 (top_entries_plain_labels 1 Sample.rooms)). repeat constructor.
  - apply (proj2 (top_entries_plain_labels 1 Sample.scenario)). repeat constructor.
Defined.

(** C5, as stated, fails for labels that are array indices: the rooms
    ["12"] and ["7"], each seen once and in this order, are listed as
    ["7"], ["12"], because an object enumerates such keys in ascending
    numeric order whatever the order of their creation. *)
Lemma top_locations_room_numbers :
  Analytics.topLocations (Some Sample.rooms) = [("7", 1); ("12", 1)] /\
  ~ Spec.top_by_count 5 (map Incident.location Sample.rooms)
      (Analytics.topLocations (Some Sample.rooms)).
Proof.
  split; [reflexivity|].
  intros (ranking & _ & _ & Hs & Htop).
  change (Analytics.topLocations (Some Sample.rooms))
    with [("7", 1); ("12", 1)] in Htop.
  assert (Hr : ranking = [("7", 1); ("12", 1)]).
  { destruct ranking as [|a [|b [|c [|d [|e r]]]]]; simpl in Htop;
      try discriminate; now symmetry. }
  subst ranking. inversion Hs as [|? ? _ Hall]; subst.
  inversion Hall as [|? ? Hfirst _]; subst.
  unfold Spec.ranks_before in Hfirst. simpl in Hfirst. lia.
Qed.

(** The scenario of section 8: the summary of incidents A and B. *)
Example scenario_summary :
  Analytics.total (Analytics.stats (Some Sample.scenario)) = 2 /\
  Analytics.critical (Analytics.stats (Some Sample.scenario)) = 1 /\
  Analytics.high (Analytics.stats (Some Sample.scenario)) = 0 /\
  Analytics.categoryStats (Some Sample.scenario) = Some [("fire", 1); ("theft", 1)] /\
  Js.slice0 1 (Analytics.ranked (Analytics.categoryStats (Some Sample.scenario)))
    = [("fire", 1)] /\
  Analytics.topCategories (Some Sample.scenario) = [("fire", 1); ("theft", 1)].
Proof. repeat split. Qed.

(** C9.  The total of the summary is the number of incidents; over no
    incidents every count is zero, both dictionaries are empty and the
    rankings, cut to three or to five entries, are empty. *)
Theorem summary_total_and_empty :
  (forall xs : list Incident.t,
     Analytics.total (Analytics.stats (Some xs)) = List.length xs) /\
  Analytics.stats (Some []) = Analytics.mkStats 0 0 0 0 0 0 0 /\
  Analytics.categoryStats (Some []) = Some Js.empty /\
  Analytics.locationStats (Some []) = Some Js.empty /\
  Js.slice0 3 (Analytics.ranked (Analytics.categoryStats (Some []))) = [] /\
  Js.slice0 3 (Analytics.ranked (Analytics.locationStats (Some []))) = [] /\
  Analytics.topCategories (Some []) = [] /\
  Analytics.topLocations (Some []) = [].
Proof.
  split; [intros xs; reflexivity|]. repeat split.
Qed.

Lemma count_where_status (label : string) (xs : list Incident.t) :
  Analytics.count_where (fun i => Incident.status i =? label)%string (Some xs)
  = count_occ string_dec (map Incident.status xs) label.
Proof.
  induction xs as [|i l IH]; [reflexivity|].
  rewrite count_where_cons, IH. cbn [map count_occ].
  destruct (String.eqb_spec (Incident.status i) label) as [E|E];
    destruct (string_dec (Incident.status i) label); try contradiction; reflexivity.
Qed.

(** C10.  Each of the four status counts is the number of incidents that
    carry its label, and when every incident carries one of the four
    labels the four counts add up to the number of incidents. *)
Theorem status_counts_partition (xs : list Incident.t) :
  let s := Analytics.stats (Some xs) in
  let carrying := count_occ string_dec (map Incident.status xs) in
  Analytics.open s = carrying "open" /\
  Analytics.inProgress s = carrying "in_progress" /\
  Analytics.resolved s = carrying "resolved" /\
  Analytics.closed s = carrying "closed" /\
  (Forall (fun i => In (Incident.status i) Schema.status_labels) xs ->
   Analytics.open s + Analytics.inProgress s + Analytics.resolved s +
   Analytics.closed s = List.length xs).
Proof.
  cbv zeta. unfold Analytics.stats.
  cbn [Analytics.open Analytics.inProgress Analytics.resolved Analytics.closed].
  rewrite !count_where_status. repeat split.
  intros Hall. induction Hall as [|i l Hi Hl IH]; [reflexivity|].
  cbn [map count_occ List.length]. simpl in Hi.
  destruct Hi as [H|[H|[H|[H|[]]]]]; rewrite <- H;
    repeat match goal with
           | |- context [string_dec ?a ?b] =>
               destruct (string_dec a b); try congruence
           end; lia.
Qed.

Lemma status_counts_partition_witness :
  let s := Analytics.stats (Some Sample.shift) in
  Analytics.open s + Analytics.inProgress s + Analytics.resolved s +
  Analytics.closed s = List.length Sample.shift.
Proof.
  apply (status_counts_partition Sample.shift).
  apply Forall_forall. intros i Hi. simpl in Hi.
  decompose [or] Hi; try contradiction; subst i; simpl; tauto.
Defined.

(** The counts of the shift. *)
Example shift_counts :
  Analytics.stats (Some Sample.shift) = Analytics.mkStats 5 2 1 1 1 1 1.
Proof. reflexivity. Qed.

(** C6 at its failing input.  With no incidents the two widths are
    computed as [0 / 0 * 100]: the template renders [NaN], which is no
    percentage at all. *)
Theorem widths_without_incidents :
  Analytics.criticalWidth (Some []) = Analytics.Percent Js.NaN /\
  Analytics.highWidth (Some []) = Analytics.Percent Js.NaN /\
  forall q : Q, Analytics.Percent Js.NaN <> Analytics.Percent (Js.Finite q).
Proof.
  repeat split. intros q H. discriminate H.
Qed.

(** ** The backend *)

Ltac run_promise :=
  unfold Promise.bind, Promise.await, Promise.ret, Promise.throw, Promise.clock.

Lemma reaches_S (n : nat) (w : Supabase.World) :
  Supabase.reaches (S n) w ->
  hd false (Supabase.outages w) = false /\
  forall r, Supabase.reaches n (snd (Supabase.round_trip r w)).
Proof.
  unfold Supabase.reaches, Supabase.round_trip. simpl.
  destruct (Supabase.outages w) as [|lost rest]; simpl.
  - intros _. split; [reflexivity|]. intros _. now rewrite firstn_nil.
  - rewrite andb_true_iff, negb_true_iff. intros [-> H]. auto.
Qed.

Lemma has_incident (id : Schema.uuid) (l : list Incident.t) :
  (exists i, In i l /\ Incident.id i = id) ->
  existsb (fun i => String.eqb (Incident.id i) id) l = true.
Proof.
  intros (i & Hin & Hid). apply existsb_exists. exists i.
  split; [assumption|]. now apply String.eqb_eq.
Qed.

(** What an insert into [incident_updates] does to the store. *)
Lemma insert_incident_update_effect (v : Supabase.UpdateInsert) (w : Supabase.World) :
  let r := Supabase.insert_incident_update v w in
  Supabase.incidents (snd r) = Supabase.incidents w /\
  Supabase.session (snd r) = Supabase.session w /\
  match fst r with
  | None =>
      exists u,
        Supabase.incident_updates (snd r) = Supabase.incident_updates w ++ [u] /\
        Update.incident_id u = Supabase.ins_incident_id v /\
        Supabase.ins_user_id v = Some (Update.user_id u) /\
        Supabase.session w = Some (Update.user_id u) /\
        Update.update_type u = Supabase.ins_update_type v /\
        Update.content u = Supabase.ins_content v
  | Some _ => Supabase.incident_updates (snd r) = Supabase.incident_updates w
  end.
Proof.
  unfold Supabase.insert_incident_update, Supabase.round_trip. simpl.
  destruct (hd false (Supabase.outages w)); simpl; [auto|].
  destruct (Supabase.session w) as [uid|]; simpl; [|auto].
  destruct (Supabase.ins_user_id v) as [author|]; simpl; [|auto].
  destruct (String.eqb_spec uid author) as [->|Hne]; simpl; [|auto].
  destruct (existsb _ (Supabase.incidents w)); simpl; [|auto].
  repeat split. eexists. repeat split.
Qed.

(** When an insert into [incident_updates] goes through. *)
Lemma insert_incident_update_accepted (v : Supabase.UpdateInsert)
    (w : Supabase.World) (uid : Schema.uuid) :
  Supabase.session w = Some uid ->
  Supabase.ins_user_id v = Some uid ->
  (exists i, In i (Supabase.incidents w) /\ Incident.id i = Supabase.ins_incident_id v) ->
  Supabase.reaches 1 w ->
  fst (Supabase.insert_incident_update v w) = None.
Proof.
  intros Hs Hu Hi Hr. apply reaches_S in Hr. destruct Hr as [Hr _].
  apply has_incident in Hi.
  unfold Supabase.insert_incident_update, Supabase.round_trip. simpl.
  rewrite Hr, Hs, Hu. simpl. rewrite String.eqb_refl. simpl. rewrite Hi. reflexivity.
Qed.

Lemma getUser_effect (w : Supabase.World) :
  let r := Supabase.getUser w in
  Supabase.incidents (snd r) = Supabase.incidents w /\
  Supabase.incident_updates (snd r) = Supabase.incident_updates w /\
  Supabase.session (snd r) = Supabase.session w /\
  Supabase.evidence_bucket (snd r) = Supabase.evidence_bucket w /\
  Supabase.now (snd r) = Supabase.now w + hd 1 (Supabase.delays w) /\
  Supabase.outages (snd r) = tl (Supabase.outages w) /\
  (fst r = None \/ fst r = Supabase.session w) /\
  (hd false (Supabase.outages w) = false -> fst r = Supabase.session w).
Proof.
  unfold Supabase.getUser, Supabase.round_trip. simpl.
  destruct (hd false (Supabase.outages w)); simpl; repeat split; auto.
  discriminate.
Qed.

(** ** Comments *)

Lemma addUpdate_keeps_incidents (incidentId : Schema.uuid) (newUpdate : Js.text)
    (w : Supabase.World) :
  Supabase.incidents (snd (IncidentDetails.addUpdate incidentId newUpdate w))
  = Supabase.incidents w.
Proof.
  unfold IncidentDetails.addUpdate. run_promise.
  destruct (getUser_effect w) as (Gi & _).
  destruct (Supabase.getUser w) as [user w1]. cbn [fst snd] in Gi.
  match goal with
  | |- context [Supabase.insert_incident_update ?v w1] =>
      pose proof (insert_incident_update_effect v w1) as (Ii & _);
      destruct (Supabase.insert_incident_update v w1) as [[e|] w2]
  end; cbn [fst snd] in *; congruence.
Qed.

Lemma after_comments_keeps_incidents (submissions : list (Schema.uuid * Js.text)) :
  forall w : Supabase.World,
    Supabase.incidents (Spec.after_comments submissions w) = Supabase.incidents w.
Proof.
  unfold Spec.after_comments.
  induction submissions as [|c rest IH]; intros w; simpl; [reflexivity|].
  rewrite IH. apply addUpdate_keeps_incidents.
Qed.

(** C8.  Submitting a comment never touches the incidents table, so the
    parent incident keeps every field, whatever the comment says and
    however the submission ends; the same holds after any series of
    submissions, in any order.  A submission that resolves has appended
    exactly one update of type [comment], with the submitted text, for
    that incident and by the signed-in account; one that is rejected has
    appended nothing.  It resolves whenever somebody is signed in, the
    incident exists and both requests reach the store. *)
Theorem addUpdate_appends_comment_only (incidentId : Schema.uuid)
    (newUpdate : Js.text) (w : Supabase.World) :
  let r := IncidentDetails.addUpdate incidentId newUpdate w in
  Supabase.incidents (snd r) = Supabase.incidents w /\
  (forall submissions,
     Supabase.incidents (Spec.after_comments submissions w) = Supabase.incidents w) /\
  (fst r = Promise.Resolved tt ->
   exists u,
     Supabase.incident_updates (snd r) = Supabase.incident_updates w ++ [u] /\
     Update.incident_id u = incidentId /\
     Supabase.session w = Some (Update.user_id u) /\
     Update.update_type u = "comment" /\
     Update.content u = newUpdate) /\
  ((exists e, fst r = Promise.Rejected e) ->
   Supabase.incident_updates (snd r) = Supabase.incident_updates w) /\
  ((exists uid, Supabase.session w = Some uid) ->
   (exists i, In i (Supabase.incidents w) /\ Incident.id i = incidentId) ->
   Supabase.reaches 2 w ->
   fst r = Promise.Resolved tt).
Proof.
  cbv zeta. unfold IncidentDetails.addUpdate. run_promise.
  destruct (getUser_effect w) as (Gi & Gu & Gs & _ & _ & Go & _ & Guser).
  destruct (Supabase.getUser w) as [user w1] eqn:Eg. simpl in *.
  set (v := Supabase.mkUpdateInsert incidentId user "comment" newUpdate).
  pose proof (insert_incident_update_effect v w1) as (Ii & Is & Iu).
  pose proof (insert_incident_update_accepted v w1) as Iok.
  destruct (Supabase.insert_incident_update v w1) as [[e|] w2] eqn:Ei; simpl in *.
  - split; [congruence|].
    split; [intros submissions; apply after_comments_keeps_incidents|].
    split; [discriminate|]. split; [intros _; congruence|].
    intros [uid Hs] Hi Hr. exfalso.
    apply reaches_S in Hr. destruct Hr as [H0 Hr].
    specialize (Hr Supabase.AuthGetUser).
    assert (Hw1 : snd (Supabase.round_trip Supabase.AuthGetUser w) = w1).
    { unfold Supabase.getUser in Eg.
      destruct (Supabase.round_trip Supabase.AuthGetUser w) as [lost w'].
      now injection Eg. }
    rewrite Hw1 in Hr.
    specialize (Iok uid). rewrite Gs, Gi in Iok.
    rewrite (Guser H0) in Iok. specialize (Iok Hs Hs Hi Hr). discriminate.
  - split; [congruence|].
    split; [intros submissions; apply after_comments_keeps_incidents|]. split.
    + intros _. destruct Iu as (u & H1 & H2 & H3 & H4 & H5 & H6).
      exists u. rewrite H1, Gu. repeat split; try assumption. congruence.
    + split; [intros [e He]; discriminate | reflexivity].
Qed.

Lemma addUpdate_appends_comment_only_witness :
  fst (IncidentDetails.addUpdate "a" "Guard on the way" Sample.world)
    = Promise.Resolved tt /\
  Supabase.incidents
    (snd (IncidentDetails.addUpdate "a" "Guard on the way" Sample.world))
    = Supabase.incidents Sample.world.
Proof.
  destruct (addUpdate_appends_comment_only "a" "Guard on the way" Sample.world)
    as (Hframe & _ & _ & _ & Hok).
  split; [|exact Hframe].
  apply Hok.
  - exists "u1". reflexivity.
  - eexists. split; [left; reflexivity | reflexivity].
  - reflexivity.
Defined.

(** ** Status changes *)

Lemma update_incident_effect (id : Schema.uuid) (status : Schema.incident_status)
    (resolved_at : option Schema.timestamptz) (w : Supabase.World) (uid : Schema.uuid) :
  Supabase.session w = Some uid ->
  hd false (Supabase.outages w) = false ->
  let r := Supabase.update_incident id status resolved_at w in
  fst r = None /\
  Supabase.incidents (snd r) =
    Supabase.update_where (fun i => String.eqb (Incident.id i) id)
      (Supabase.set_status status resolved_at
         (Supabase.now w + hd 1 (Supabase.delays w)))
      (Supabase.incidents w) /\
  Supabase.incident_updates (snd r) = Supabase.incident_updates w /\
  Supabase.session (snd r) = Supabase.session w /\
  Supabase.outages (snd r) = tl (Supabase.outages w).
Proof.
  intros Hs Hr. unfold Supabase.update_incident, Supabase.round_trip. simpl.
  rewrite Hr, Hs. simpl. repeat split.
Qed.

(** The rows after an update: those that stayed, and the new versions of
    those that matched. *)
Lemma in_update_where {A : Type} (matching : A -> bool) (set : A -> A)
    (rows : list A) (r : A) :
  In r (Supabase.update_where matching set rows) <->
  (In r rows /\ matching r = false) \/
  (exists r0, In r0 rows /\ matching r0 = true /\ r = set r0).
Proof.
  unfold Supabase.update_where. rewrite in_app_iff, filter_In, in_map_iff.
  rewrite negb_true_iff. split.
  - intros [H|(r0 & <- & H)]; [now left|]. apply filter_In in H.
    right. exists r0. tauto.
  - intros [H|(r0 & Hin & Hm & ->)]; [now left|].
    right. exists r0. rewrite filter_In. tauto.
Qed.

Lemma update_where_none {A : Type} (matching : A -> bool) (set : A -> A)
    (rows : list A) :
  (forall r, In r rows -> matching r = false) ->
  Supabase.update_where matching set rows = rows.
Proof.
  unfold Supabase.update_where.
  induction rows as [|r rows IH]; intros H; simpl; [reflexivity|].
  rewrite (H r (or_introl eq_refl)). simpl. f_equal. apply IH.
  intros r' Hr'. apply H. now right.
Qed.

(** A row of the table has the identifier [id] after the update when one
    had it before. *)
Lemma update_where_keeps_id (id : Schema.uuid) (matching : Incident.t -> bool)
    (status : Schema.incident_status) (resolved_at : option Schema.timestamptz)
    (t : Schema.timestamptz) (l : list Incident.t) :
  (exists i, In i l /\ Incident.id i = id) ->
  exists i,
    In i (Supabase.update_where matching (Supabase.set_status status resolved_at t) l) /\
    Incident.id i = id.
Proof.
  intros (i & Hin & Hid). destruct (matching i) eqn:E.
  - exists (Supabase.set_status status resolved_at t i). split; [|exact Hid].
    apply in_update_where. right. now exists i.
  - exists i. split; [|exact Hid]. apply in_update_where. now left.
Qed.

Lemma reaches_tl (n : nat) (w w' : Supabase.World) :
  Supabase.reaches (S n) w ->
  Supabase.outages w' = tl (Supabase.outages w) ->
  Supabase.reaches n w'.
Proof.
  unfold Supabase.reaches. intros H ->.
  destruct (Supabase.outages w) as [|lost rest]; simpl in *.
  - now rewrite firstn_nil.
  - apply andb_true_iff in H. tauto.
Qed.

Lemma reaches_hd (n : nat) (w : Supabase.World) :
  Supabase.reaches (S n) w -> hd false (Supabase.outages w) = false.
Proof. intros H. now apply reaches_S in H. Qed.

(** The change of status as the specification describes it.  It is
    reached when somebody is signed in, the incident exists and all three
    requests reach the store. *)
Lemma updateStatus_recorded (incidentId : Schema.uuid)
    (status : Schema.incident_status) (w : Supabase.World) (uid : Schema.uuid) :
  Supabase.session w = Some uid ->
  (exists i, In i (Supabase.incidents w) /\ Incident.id i = incidentId) ->
  Supabase.reaches 3 w ->
  let r := IncidentDetails.updateStatus incidentId status w in
  fst r = Promise.Resolved tt /\
  Supabase.incidents (snd r) =
    Supabase.update_where (fun i => String.eqb (Incident.id i) incidentId)
      (Supabase.set_status status
         (match status with
          | Schema.resolved => Some (Supabase.now w)
          | _ => None
          end)
         (Supabase.now w + hd 1 (Supabase.delays w)))
      (Supabase.incidents w) /\
  exists u,
    Supabase.incident_updates (snd r) = Supabase.incident_updates w ++ [u] /\
    Update.incident_id u = incidentId /\
    Update.user_id u = uid /\
    Update.update_type u = "status_change" /\
    Update.content u = ("Status changed to: " ++ Schema.status_label status)%string.
Proof.
  intros Hs Hi Hr. cbv zeta. unfold IncidentDetails.updateStatus. run_promise.
  set (at_ := match status with Schema.resolved => Some (Supabase.now w) | _ => None end).
  destruct (update_incident_effect incidentId status at_ w uid Hs (reaches_hd _ _ Hr))
    as (U0 & Ui & Uu & Us & Uo).
  destruct (Supabase.update_incident incidentId status at_ w) as [error w1] eqn:Eu.
  cbn [fst snd] in *. subst error.
  assert (Hr1 : Supabase.reaches 2 w1) by (eapply reaches_tl; eauto).
  destruct (getUser_effect w1) as (Gi & Gu & Gs & _ & _ & Go & _ & Guser).
  specialize (Guser (reaches_hd _ _ Hr1)).
  destruct (Supabase.getUser w1) as [user w2] eqn:Eg. cbn [fst snd] in *.
  assert (Hr2 : Supabase.reaches 1 w2) by (eapply reaches_tl; eauto).
  set (v := Supabase.mkUpdateInsert incidentId user "status_change"
              ("Status changed to: " ++ Schema.status_label status)%string).
  assert (Hacc : fst (Supabase.insert_incident_update v w2) = None).
  { apply (insert_incident_update_accepted v w2 uid);
      cbn [Supabase.ins_user_id Supabase.ins_incident_id v]; try congruence.
    rewrite Gi, Ui. now apply update_where_keeps_id. }
  pose proof (insert_incident_update_effect v w2) as (Ii & Is & Iu).
  destruct (Supabase.insert_incident_update v w2) as [e w3] eqn:Ei. cbn [fst snd] in *.
  subst e. split; [reflexivity|]. split; [congruence|].
  destruct Iu as (u & H1 & H2 & H3 & H4 & H5 & H6).
  cbn [Supabase.ins_user_id Supabase.ins_incident_id Supabase.ins_update_type
       Supabase.ins_content v] in *.
  exists u. repeat split; try assumption; congruence.
Qed.

(** The scenario of section 8: resolving incident A and re-opening it
    leaves [resolved_at] empty and two entries on the timeline. *)
Example resolve_then_reopen :
  let w1 := snd (IncidentDetails.updateStatus "a" Schema.resolved Sample.world) in
  let w2 := snd (IncidentDetails.updateStatus "a" Schema.open w1) in
  map Incident.resolved_at (Supabase.incidents w1) = [Some 10] /\
  map Incident.resolved_at (Supabase.incidents w2) = [None] /\
  map Incident.status (Supabase.incidents w2) = ["open"] /\
  map Update.content (Supabase.incident_updates w2)
    = map Js.of_string ["Status changed to: resolved"; "Status changed to: open"].
Proof. repeat split. Qed.

(** C1 at its failing input.  Ann resolves incident A while the request
    that inserts the timeline entry is lost.  The outcome of that insert
    is not looked at: the mutation resolves, the status is changed, and
    no update has been appended. *)
Theorem updateStatus_resolves_without_timeline_entry :
  let r := IncidentDetails.updateStatus "a" Schema.resolved
             Sample.world_third_request_lost in
  fst r = Promise.Resolved tt /\
  map Incident.status (Supabase.incidents (snd r)) = ["resolved"] /\
  map Incident.resolved_at (Supabase.incidents (snd r)) = [Some 10] /\
  Supabase.incident_updates (snd r) = [] /\
  Supabase.requests (snd r) =
    [Supabase.UpdateIncident "a"; Supabase.AuthGetUser;
     Supabase.InsertIncidentUpdate "a"].
Proof. repeat split. Qed.

(** ** Acting without an account *)

(** Reporting an incident asks first who is signed in and stops there
    when nobody is. *)
Lemma createIncident_signed_out (form : IncidentForm.State) (w : Supabase.World) :
  Supabase.session w = None ->
  let r := IncidentForm.createIncident form w in
  fst r = Promise.Rejected Promise.NotAuthenticated /\
  Supabase.incidents (snd r) = Supabase.incidents w /\
  Supabase.incident_updates (snd r) = Supabase.incident_updates w /\
  Supabase.evidence_bucket (snd r) = Supabase.evidence_bucket w /\
  Supabase.requests (snd r) = Supabase.requests w ++ [Supabase.AuthGetUser].
Proof.
  intros Hs. cbv zeta. unfold IncidentForm.createIncident. run_promise.
  unfold Supabase.getUser, Supabase.round_trip. simpl. rewrite Hs.
  destruct (hd false (Supabase.outages w)); simpl; repeat split.
Qed.

(** C7 at its failing input: nobody is signed in.  Changing the status
    sends the update of the incident before asking who is signed in, and
    resolves; commenting sends the insert and is rejected by the store's
    policy; only reporting stops with "Not authenticated". *)
Theorem mutations_signed_out :
  let w := Sample.world_signed_out in
  let changed := IncidentDetails.updateStatus "a" Schema.resolved w in
  let commented := IncidentDetails.addUpdate "a" "Guard on the way" w in
  let reported := IncidentForm.createIncident Sample.report w in
  (fst changed = Promise.Resolved tt /\
   Supabase.requests (snd changed) =
     [Supabase.UpdateIncident "a"; Supabase.AuthGetUser;
      Supabase.InsertIncidentUpdate "a"]) /\
  (fst commented =
     Promise.Rejected
       (Promise.StoreError (Supabase.RowLevelSecurity "incident_updates")) /\
   Supabase.requests (snd commented) =
     [Supabase.AuthGetUser; Supabase.InsertIncidentUpdate "a"]) /\
  (fst reported = Promise.Rejected Promise.NotAuthenticated /\
   Supabase.requests (snd reported) = [Supabase.AuthGetUser]).
Proof. repeat split. Qed.

(** The same when Ann is signed in but the request to the authentication
    service is lost: by then the incident has been written. *)
Example updateStatus_unknown_actor :
  let r := IncidentDetails.updateStatus "a" Schema.resolved
             Sample.world_second_request_lost in
  fst r = Promise.Resolved tt /\
  map Incident.status (Supabase.incidents (snd r)) = ["resolved"] /\
  Supabase.incident_updates (snd r) = [].
Proof. repeat split. Qed.

(** ** Object names of evidence *)

Lemma of_nat_digits (n : nat) : Invariant.all_digits (Js.of_nat n) = true.
Proof.
  unfold Js.of_nat. induction (Nat.to_uint n); simpl; auto.
Qed.

Lemma of_nat_inj (n m : nat) : Js.of_nat n = Js.of_nat m -> n = m.
Proof.
  unfold Js.of_nat. intros H.
  apply DecimalNat.Unsigned.to_uint_inj.
  assert (Hs : Some (Nat.to_uint n) = Some (Nat.to_uint m))
    by (rewrite <- !NilEmpty.usu; now rewrite H).
  now injection Hs.
Qed.

Lemma append_cancel_l (s a b : string) : (s ++ a = s ++ b)%string -> a = b.
Proof.
  induction s as [|c s IH]; simpl; intros H; [assumption|].
  injection H as H. now apply IH.
Qed.

Lemma digits_before_dot (d d' e e' : string) :
  Invariant.all_digits d = true -> Invariant.all_digits d' = true ->
  (d ++ String "." e = d' ++ String "." e')%string -> d = d'.
Proof.
  revert d'. induction d as [|c d IH]; intros [|c' d'] Hd Hd' H; simpl in *.
  - reflexivity.
  - injection H as Hc _. subst c'. discriminate.
  - injection H as Hc _. subst c. discriminate.
  - apply andb_true_iff in Hd. apply andb_true_iff in Hd'.
    injection H as -> H. f_equal. apply (IH d'); tauto.
Qed.

Lemma object_name_stamp (u : Schema.uuid) (t t' : nat) (e e' : string) :
  IncidentForm.object_name u t e = IncidentForm.object_name u t' e' -> t = t'.
Proof.
  unfold IncidentForm.object_name. intros H.
  apply append_cancel_l in H. simpl in H. injection H as H.
  apply of_nat_inj. apply (digits_before_dot _ _ e e'); auto using of_nat_digits.
Qed.

(** ** Reporting an incident *)

(** The upload loop never touches the tables. *)
Lemma upload_files_frame (user_id : Schema.uuid) (files : list IncidentForm.File) :
  forall (urls : list string) (w : Supabase.World),
    let r := IncidentForm.upload_files user_id files urls w in
    Supabase.incidents (snd r) = Supabase.incidents w /\
    Supabase.incident_updates (snd r) = Supabase.incident_updates w /\
    Supabase.session (snd r) = Supabase.session w.
Proof.
  induction files as [|file rest IH]; intros urls w; cbv zeta; simpl.
  - auto.
  - run_promise. unfold Supabase.upload, Supabase.round_trip. simpl.
    destruct (hd false (Supabase.outages w)); simpl; [auto|].
    destruct (Supabase.session w) as [uid|] eqn:Hs; simpl; [|auto].
    destruct (existsb _ (Supabase.evidence_bucket w)); simpl; [auto|].
    match goal with
    | |- context [IncidentForm.upload_files user_id rest ?u ?w'] =>
        specialize (IH u w')
    end.
    cbv zeta in IH. simpl in IH. exact IH.
Qed.

Lemma unhurried_S (n : nat) (w : Supabase.World) :
  Supabase.unhurried 0 (S n) w ->
  0 < hd 1 (Supabase.delays w) /\
  forall w', Supabase.delays w' = tl (Supabase.delays w) ->
             Supabase.unhurried 0 n w'.
Proof.
  unfold Supabase.unhurried. simpl.
  destruct (Supabase.delays w) as [|d rest]; simpl.
  - intros _. split; [lia|]. intros w' ->. now rewrite firstn_nil.
  - rewrite andb_true_iff, Nat.ltb_lt. intros [Hd H]. split; [exact Hd|].
    intros w' ->. exact H.
Qed.

Lemma unhurried_tl (n : nat) (w w' : Supabase.World) :
  Supabase.unhurried 1 n w ->
  Supabase.delays w' = tl (Supabase.delays w) ->
  Supabase.unhurried 0 n w'.
Proof.
  unfold Supabase.unhurried. intros H ->. simpl.
  destruct (Supabase.delays w); exact H.
Qed.

(** With a session, a reachable store, uploads that each take their
    millisecond and a bucket holding nothing named after the future,
    every upload is accepted. *)
Lemma upload_files_accepted (user_id : Schema.uuid) (files : list IncidentForm.File) :
  forall (urls : list string) (w : Supabase.World) (m : nat),
    Supabase.session w = Some user_id ->
    Supabase.reaches (List.length files + m) w ->
    Supabase.unhurried 0 (List.length files) w ->
    Invariant.no_later_upload user_id w ->
    exists urls' w',
      IncidentForm.upload_files user_id files urls w = (Promise.Resolved urls', w') /\
      Supabase.reaches m w'.
Proof.
  induction files as [|file rest IH]; intros urls w m Hs Hr Hd Hfresh; simpl.
  - exists urls, w. split; [reflexivity | exact Hr].
  - run_promise. unfold Supabase.upload, Supabase.round_trip. simpl.
    simpl in Hr. rewrite (reaches_hd _ _ Hr), Hs. simpl.
    set (path := IncidentForm.object_name user_id (Supabase.now w)
                   (Js.split_pop "." (IncidentForm.name file))).
    assert (Hnew : existsb (String.eqb path) (Supabase.evidence_bucket w) = false).
    { apply not_true_is_false. intros H. apply existsb_exists in H.
      destruct H as (p & Hin & Heq). apply String.eqb_eq in Heq. subst p.
      exact (Hfresh _ _ (Nat.le_refl _) Hin). }
    rewrite Hnew. simpl.
    simpl in Hd. apply unhurried_S in Hd. destruct Hd as [Hpos Hd].
    match goal with
    | |- context [IncidentForm.upload_files user_id rest ?u ?w'] =>
        apply (IH u w' m)
    end.
    + reflexivity.
    + eapply reaches_tl; [exact Hr | reflexivity].
    + apply Hd. reflexivity.
    + intros stamp fileExt Hlater Hin. simpl in Hlater, Hin.
      apply in_app_or in Hin. destruct Hin as [Hin|[Heq|[]]].
      * apply (Hfresh stamp fileExt); [lia | exact Hin].
      * apply object_name_stamp in Heq. lia.
Qed.

(** What an insert into [incidents] does to the store. *)
Lemma insert_incident_effect (v : Supabase.IncidentInsert) (w : Supabase.World) :
  let r := Supabase.insert_incident v w in
  match fst r with
  | inl row =>
      Supabase.incidents (snd r) = Supabase.incidents w ++ [row] /\
      Supabase.session w = Some (Incident.reporter_id row) /\
      Incident.reporter_id row = Supabase.ins_reporter_id v /\
      Incident.status row =
        Schema.status_label (Supabase.default Schema.open (Supabase.ins_status v)) /\
      Incident.resolved_at row = Supabase.ins_resolved_at v /\
      Incident.title row = Supabase.ins_title v /\
      Incident.description row = Supabase.ins_description v /\
      Incident.category row = Supabase.ins_category v /\
      Incident.location row = Supabase.ins_location v /\
      Incident.priority row =
        Schema.priority_label (Supabase.default Schema.medium (Supabase.ins_priority v))
  | inr _ => Supabase.incidents (snd r) = Supabase.incidents w
  end.
Proof.
  unfold Supabase.insert_incident, Supabase.round_trip. simpl.
  destruct (hd false (Supabase.outages w)); simpl; [reflexivity|].
  destruct (Supabase.session w) as [uid|]; simpl; [|reflexivity].
  destruct (String.eqb_spec uid (Supabase.ins_reporter_id v)) as [->|Hne]; simpl;
    [|reflexivity].
  repeat split.
Qed.

Lemma insert_incident_accepted (v : Supabase.IncidentInsert) (w : Supabase.World) :
  Supabase.session w = Some (Supabase.ins_reporter_id v) ->
  Supabase.reaches 1 w ->
  exists row, fst (Supabase.insert_incident v w) = inl row.
Proof.
  intros Hs Hr. unfold Supabase.insert_incident, Supabase.round_trip. simpl.
  rewrite (reaches_hd _ _ Hr), Hs. simpl. rewrite String.eqb_refl. simpl.
  eexists. reflexivity.
Qed.

Lemma createIncident_resolves (form : IncidentForm.State) (w : Supabase.World)
    (uid : Schema.uuid) :
  Supabase.session w = Some uid ->
  Supabase.reaches (2 + List.length (IncidentForm.files form)) w ->
  Supabase.unhurried 1 (List.length (IncidentForm.files form)) w ->
  Invariant.no_later_upload uid w ->
  exists row w', IncidentForm.createIncident form w = (Promise.Resolved row, w').
Proof.
  intros Hs Hr Hd Hfresh. unfold IncidentForm.createIncident. run_promise.
  unfold Supabase.getUser, Supabase.round_trip. cbn [fst snd].
  rewrite (reaches_hd _ _ Hr). cbn [Supabase.session]. rewrite Hs.
  match goal with
  | |- context [IncidentForm.upload_files uid _ [] ?w0] => set (w1 := w0)
  end.
  assert (Hr1 : Supabase.reaches (List.length (IncidentForm.files form) + 1) w1).
  { rewrite Nat.add_comm. eapply reaches_tl; [exact Hr | reflexivity]. }
  assert (Hf1 : Invariant.no_later_upload uid w1).
  { intros stamp ext Hlater. apply (Hfresh stamp ext). simpl in Hlater. lia. }
  assert (Hd1 : Supabase.unhurried 0 (List.length (IncidentForm.files form)) w1).
  { eapply unhurried_tl; [exact Hd | reflexivity]. }
  destruct (upload_files_accepted uid (IncidentForm.files form) [] w1 1
              eq_refl Hr1 Hd1 Hf1)
    as (urls & w2 & Hup & Hr2).
  pose proof (upload_files_frame uid (IncidentForm.files form) [] w1) as (_ & _ & Fs).
  rewrite Hup in *. cbn [fst snd] in Fs.
  match goal with
  | |- context [Supabase.insert_incident ?v w2] => set (v0 := v)
  end.
  destruct (insert_incident_accepted v0 w2) as (row & Hrow).
  - rewrite Fs. reflexivity.
  - exact Hr2.
  - destruct (Supabase.insert_incident v0 w2) as [reply w3].
    cbn [fst] in Hrow. subst reply. exists row, w3. reflexivity.
Qed.

(** C2.  Whatever the form holds, a report that resolves returns the row
    just appended to the incidents table, and that row has status [open]
    and no [resolved_at]: the insert sends neither column, so the defaults
    of the table apply.  The row carries the texts of the form and the
    signed-in account as reporter.  A rejected report leaves the table as
    it was.  The report resolves whenever somebody is signed in, the
    requests reach the store, each upload takes a millisecond or more (the
    object names carry the time in milliseconds, and the bucket refuses a
    name twice) and the bucket holds nothing named after the future. *)
Theorem createIncident_persists_open (form : IncidentForm.State) (w : Supabase.World) :
  let r := IncidentForm.createIncident form w in
  (forall row, fst r = Promise.Resolved row ->
     Incident.status row = "open" /\
     Incident.resolved_at row = None /\
     Supabase.incidents (snd r) = Supabase.incidents w ++ [row] /\
     Supabase.session w = Some (Incident.reporter_id row) /\
     Incident.title row = IncidentForm.title form /\
     Incident.description row = IncidentForm.description form /\
     Incident.category row = IncidentForm.category form /\
     Incident.location row = IncidentForm.location form /\
     Incident.priority row = Schema.priority_label (IncidentForm.priority form)) /\
  ((exists e, fst r = Promise.Rejected e) ->
     Supabase.incidents (snd r) = Supabase.incidents w) /\
  (forall uid,
     Supabase.session w = Some uid ->
     Supabase.reaches (2 + List.length (IncidentForm.files form)) w ->
     Supabase.unhurried 1 (List.length (IncidentForm.files form)) w ->
     Invariant.no_later_upload uid w ->
     exists row, fst r = Promise.Resolved row).
Proof.
  cbv zeta. split; [|split].
  - unfold IncidentForm.createIncident. run_promise.
    destruct (getUser_effect w) as (Gi & _ & Gs & _).
    destruct (Supabase.getUser w) as [[user_id|] w1]; cbn [fst snd] in *;
      [|discriminate].
    pose proof (upload_files_frame user_id (IncidentForm.files form) [] w1)
      as (Fi & _ & Fs).
    destruct (IncidentForm.upload_files user_id (IncidentForm.files form) [] w1)
      as [[evidenceUrls|e] w2]; cbn [fst snd] in *; [|discriminate].
    match goal with
    | |- context [Supabase.insert_incident ?v w2] => set (v0 := v)
    end.
    pose proof (insert_incident_effect v0 w2) as Ieff.
    destruct (Supabase.insert_incident v0 w2) as [[data|error] w3];
      cbn [fst snd] in *; [|discriminate].
    intros row Hrow. injection Hrow as <-.
    destruct Ieff as (H1 & H2 & H3 & H4 & H5 & H6 & H7 & H8 & H9 & H10).
    cbn [v0 Supabase.ins_status Supabase.ins_resolved_at Supabase.ins_title
         Supabase.ins_description Supabase.ins_category Supabase.ins_location
         Supabase.ins_priority Supabase.default] in *.
    repeat split; try assumption; congruence.
  - unfold IncidentForm.createIncident. run_promise.
    destruct (getUser_effect w) as (Gi & _).
    destruct (Supabase.getUser w) as [[user_id|] w1]; cbn [fst snd] in *;
      [|intros _; exact Gi].
    pose proof (upload_files_frame user_id (IncidentForm.files form) [] w1)
      as (Fi & _).
    destruct (IncidentForm.upload_files user_id (IncidentForm.files form) [] w1)
      as [[evidenceUrls|e] w2]; cbn [fst snd] in *; [|intros _; congruence].
    match goal with
    | |- context [Supabase.insert_incident ?v w2] => set (v0 := v)
    end.
    pose proof (insert_incident_effect v0 w2) as Ieff.
    destruct (Supabase.insert_incident v0 w2) as [[data|error] w3];
      cbn [fst snd] in *.
    + intros [e He]. discriminate.
    + intros _. congruence.
  - intros uid Hs Hr Hd Hfresh.
    destruct (createIncident_resolves form w uid Hs Hr Hd Hfresh) as (row & w' & H).
    exists row. now rewrite H.
Qed.

Lemma createIncident_persists_open_witness :
  exists row,
    fst (IncidentForm.createIncident Sample.report Sample.world)
      = Promise.Resolved row /\
    Incident.status row = "open" /\
    Incident.resolved_at row = None.
Proof.
  destruct (createIncident_persists_open Sample.report Sample.world)
    as (Hopen & _ & Hok).
  destruct (Hok "u1") as (row & Hrow).
  - reflexivity.
  - reflexivity.
  - reflexivity.
  - intros stamp ext _ H. exact H.
  - exists row. split; [exact Hrow|].
    destruct (Hopen row Hrow) as (H1 & H2 & _). split; assumption.
Defined.

(** Two pictures uploaded within one millisecond are given one object
    name: the bucket refuses the second, the report is rejected and the
    first picture stays behind. *)
Example createIncident_same_millisecond :
  let r := IncidentForm.createIncident Sample.report Sample.world_quick_upload in
  fst r = Promise.Rejected
            (Promise.StoreError (Supabase.AlreadyExists "u1/11.png")) /\
  Supabase.incidents (snd r) = Supabase.incidents Sample.world_quick_upload /\
  Supabase.evidence_bucket (snd r) = ["u1/11.png"].
Proof. repeat split. Qed.

(** The three inputs marked [required] hold the form back while empty. *)
Lemma submit_blocked (form : IncidentForm.State) (w : Supabase.World) :
  IncidentForm.title form = [] \/ IncidentForm.description form = [] \/
  IncidentForm.location form = EmptyString ->
  IncidentForm.submit form w = (IncidentForm.Blocked, w).
Proof.
  unfold IncidentForm.submit, IncidentForm.required_filled.
  intros [-> | [-> | ->]]; simpl; rewrite ?andb_false_r; reflexivity.
Qed.

(** C3 at its failing input.  Ann submits a report whose category was
    never chosen: no input marked [required] is empty, the mutation does
    not look at the texts, and the store takes the empty text for a
    category.  The report is on record. *)
Theorem submit_without_category :
  let r := IncidentForm.submit Sample.report_without_category Sample.world in
  exists row,
    fst r = IncidentForm.Mutated (Promise.Resolved row) /\
    Incident.category row = EmptyString /\
    Supabase.incidents (snd r) = Supabase.incidents Sample.world ++ [row].
Proof.
  eexists. repeat split.
Qed.

(** ** Texts *)

Lemma startsWith_app (s q : Js.text) :
  Js.startsWith s q = true <-> exists post, s = q ++ post.
Proof.
  revert s. induction q as [|a q IH]; intros s; simpl.
  - split; [intros _; now exists s | reflexivity].
  - destruct s as [|b s].
    + split; [discriminate | intros [post H]; discriminate].
    + rewrite andb_true_iff, N.eqb_eq, IH. split.
      * intros [-> [post ->]]. now exists post.
      * intros [post H]. injection H as -> ->. split; [reflexivity | now exists post].
Qed.

Lemma includes_app (s q : Js.text) :
  Js.includes s q = true <-> exists pre post, s = pre ++ q ++ post.
Proof.
  induction s as [|c s IH]; cbn [Js.includes]; rewrite orb_true_iff, startsWith_app.
  - split.
    + intros [[post H]|H]; [|discriminate]. now exists [], post.
    + intros (pre & post & H). left.
      destruct pre; [now exists post | discriminate].
  - rewrite IH. split.
    + intros [[post H]|(pre & post & H)].
      * now exists [], post.
      * exists (c :: pre), post. simpl. now rewrite H.
    + intros (pre & post & H). destruct pre as [|c' pre]; simpl in H.
      * left. now exists post.
      * right. injection H as _ H. now exists pre, post.
Qed.

Lemma in_capitals (u : N) :
  In u Spec.capitals <->
  (65 <= u <= 90 \/ 192 <= u <= 214 \/ 216 <= u <= 222)%N.
Proof.
  unfold Spec.capitals. rewrite in_map_iff. split.
  - intros (n & <- & H). rewrite !in_app_iff, !in_seq in H. lia.
  - intros H. exists (N.to_nat u). split; [apply N2Nat.id|].
    rewrite !in_app_iff, !in_seq. lia.
Qed.

Lemma lower_unit_capital (u : N) :
  (In u Spec.capitals /\ Js.lower_unit u = (u + 32)%N) \/
  (~ In u Spec.capitals /\ Js.lower_unit u = u).
Proof.
  rewrite in_capitals. unfold Js.lower_unit.
  repeat match goal with
         | |- context [(?x <=? ?y)%N] => destruct (N.leb_spec x y)
         end; cbn [andb orb]; lia.
Qed.

(** Two code units are folded to the same unit exactly when they are the
    same letter, capital or small. *)
Lemma lower_unit_same_letter (a b : N) :
  Js.lower_unit a = Js.lower_unit b <-> Spec.same_letter a b.
Proof.
  unfold Spec.same_letter.
  rewrite !in_capitals.
  destruct (lower_unit_capital a) as [[Ca Ha]|[Ca Ha]];
    destruct (lower_unit_capital b) as [[Cb Hb]|[Cb Hb]];
    rewrite Ha, Hb; rewrite in_capitals in Ca, Cb; lia.
Qed.

Lemma toLowerCase_same_letters (mid q : Js.text) :
  Js.toLowerCase mid = Js.toLowerCase q <-> Forall2 Spec.same_letter mid q.
Proof.
  unfold Js.toLowerCase. revert q.
  induction mid as [|a mid IH]; intros [|b q]; simpl.
  - split; [constructor | reflexivity].
  - split; [discriminate | intros H; inversion H].
  - split; [discriminate | intros H; inversion H].
  - split.
    + intros H. injection H as Hab H. constructor.
      * now apply lower_unit_same_letter.
      * now apply IH.
    + intros H. inversion H as [|? ? ? ? Hab Hrest]; subst. f_equal.
      * now apply lower_unit_same_letter.
      * now apply IH.
Qed.

(** The search of the list is the case-insensitive substring match of the
    specification. *)
Lemma includes_ci_substring (text q : Js.text) :
  Js.includes (Js.toLowerCase text) (Js.toLowerCase q) = true <->
  Spec.ci_substring q text.
Proof.
  rewrite includes_app. unfold Spec.ci_substring. split.
  - intros (pre & post & H). unfold Js.toLowerCase in H at 1.
    apply map_eq_app in H. destruct H as (a & r & -> & Ha & Hr).
    apply map_eq_app in Hr. destruct Hr as (b & c & -> & Hb & Hc).
    exists a, b, c. split; [reflexivity|]. now apply toLowerCase_same_letters.
  - intros (pre & mid & post & -> & Hmid).
    apply toLowerCase_same_letters in Hmid.
    exists (Js.toLowerCase pre), (Js.toLowerCase post).
    unfold Js.toLowerCase in *. now rewrite !map_app, Hmid.
Qed.

(** ** The list and its filters *)

Lemma status_label_not_all (s : Schema.incident_status) :
  (Schema.status_label s =? "all")%string = false.
Proof. destruct s; reflexivity. Qed.

Lemma priority_label_not_all (p : Schema.incident_priority) :
  (Schema.priority_label p =? "all")%string = false.
Proof. destruct p; reflexivity. Qed.

Lemma ci_substring_empty (text : Js.text) : Spec.ci_substring [] text.
Proof. exists [], [], text. split; [reflexivity | constructor]. Qed.

Lemma search_part (f : Spec.Filter) (t d : Js.text) :
  Spec.ci_substring (Spec.searchQuery f) t \/
  Spec.ci_substring (Spec.searchQuery f) d <->
  (forall q, Spec.search f = Some q -> Spec.ci_substring q t \/ Spec.ci_substring q d).
Proof.
  unfold Spec.searchQuery. destruct (Spec.search f) as [q|]; split.
  - intros H q' Hq. now injection Hq as <-.
  - intros H. now apply H.
  - intros _ q' Hq. discriminate.
  - intros _. left. apply ci_substring_empty.
Qed.

Lemma status_part (f : Spec.Filter) (st : string) :
  (Spec.statusFilter f =? "all")%string || (st =? Spec.statusFilter f)%string
    = true <->
  (forall s, Spec.by_status f = Some s -> st = Schema.status_label s).
Proof.
  unfold Spec.statusFilter. destruct (Spec.by_status f) as [s|].
  - rewrite status_label_not_all. simpl. rewrite String.eqb_eq. split.
    + intros H s' Hs. now injection Hs as <-.
    + intros H. now apply H.
  - simpl. split; [intros _ s' Hs; discriminate | reflexivity].
Qed.

Lemma priority_part (f : Spec.Filter) (pr : string) :
  (Spec.priorityFilter f =? "all")%string || (pr =? Spec.priorityFilter f)%string
    = true <->
  (forall p, Spec.by_priority f = Some p -> pr = Schema.priority_label p).
Proof.
  unfold Spec.priorityFilter. destruct (Spec.by_priority f) as [p|].
  - rewrite priority_label_not_all. simpl. rewrite String.eqb_eq. split.
    + intros H p' Hp. now injection Hp as <-.
    + intros H. now apply H.
  - simpl. split; [intros _ p' Hp; discriminate | reflexivity].
Qed.

(** The predicate of [filteredIncidents], with the controls set as the
    filter says, decides the predicate of the specification. *)
Lemma matches_satisfies (f : Spec.Filter) (e : IncidentList.Enriched) :
  IncidentList.matches (Spec.searchQuery f) (Spec.statusFilter f)
    (Spec.priorityFilter f) e = true <->
  Spec.satisfies f (IncidentList.row e).
Proof.
  unfold IncidentList.matches, Spec.satisfies. cbv zeta.
  rewrite !andb_true_iff, status_part, priority_part.
  rewrite orb_true_iff, !includes_ci_substring, search_part. tauto.
Qed.

Lemma with_profiles_row (incident : Incident.t) (w : Supabase.World) :
  exists e w',
    IncidentList.with_profiles incident w = (Promise.Resolved e, w') /\
    IncidentList.row e = incident.
Proof.
  unfold IncidentList.with_profiles. run_promise.
  destruct (Supabase.select_profile (Incident.reporter_id incident) w)
    as [reporterData w1].
  destruct (Incident.assigned_to incident) as [assignee|].
  - destruct (Supabase.select_profile assignee w1) as [assignedData w2].
    eexists. eexists. split; reflexivity.
  - eexists. eexists. split; reflexivity.
Qed.

(** The enrichment keeps the rows and their order. *)
Lemma all_rows (incidentsData : list Incident.t) :
  forall w : Supabase.World,
  exists es w',
    IncidentList.all incidentsData w = (Promise.Resolved es, w') /\
    map IncidentList.row es = incidentsData.
Proof.
  induction incidentsData as [|incident rest IH]; intros w; simpl.
  - exists [], w. split; reflexivity.
  - run_promise.
    destruct (with_profiles_row incident w) as (e & w1 & He & Hrow).
    unfold Promise.bind in He. rewrite He.
    destruct (IH w1) as (es & w2 & Hes & Hrows).
    unfold Promise.bind, Promise.ret in Hes. rewrite Hes.
    exists (e :: es), w2. split; [reflexivity|]. simpl. now rewrite Hrow, Hrows.
Qed.

Lemma queryFn_rows (w : Supabase.World) (uid : Schema.uuid) :
  Supabase.session w = Some uid ->
  Supabase.reaches 1 w ->
  exists es w',
    IncidentList.queryFn w = (Promise.Resolved es, w') /\
    map IncidentList.row es =
      Stable.sort Supabase.newest_first (Supabase.incidents w).
Proof.
  intros Hs Hr. unfold IncidentList.queryFn. run_promise.
  unfold Supabase.select_incidents, Supabase.round_trip. cbn [fst snd].
  rewrite (reaches_hd _ _ Hr). cbn [Supabase.session Supabase.incidents].
  rewrite Hs. apply all_rows.
Qed.


Lemma sorted_any_order {A : Type} (l : list A) :
  StronglySorted (fun _ _ => True) l.
Proof.
  induction l; constructor; [assumption|]. now apply Forall_forall.
Qed.





(** The search text "\u00E9cole" finds the incident titled
    "\u00C9COLE EST", and no other. *)
Example list_school :
  let shown :=
    fst (IncidentList.listIncidents [233; 99; 111; 108; 101]%N "all" "all"
           Sample.world_school) in
  match shown with
  | Promise.Resolved es => map IncidentList.row es = [Sample.school]
  | Promise.Rejected _ => False
  end.
Proof. reflexivity. Qed.

(** The list of the scenario: B, reported last, comes first; the search
    ignores letter case; the filters intersect. *)
Example list_of_scenario :
  option_map (map (fun e => Incident.id (IncidentList.row e)))
    (match fst (Spec.listIncidents Spec.no_filter Sample.world_scenario) with
     | Promise.Resolved l => Some l
     | Promise.Rejected _ => None
     end) = Some ["b"; "a"] /\
  option_map (map (fun e => Incident.id (IncidentList.row e)))
    (match fst (Spec.listIncidents
                  (Spec.mkFilter (Some (Js.of_string "ALARM")) None (Some Schema.low))
                  Sample.world_scenario) with
     | Promise.Resolved l => Some l
     | Promise.Rejected _ => None
     end) = Some ["b"].
Proof. split; reflexivity. Qed.

(** * Further properties of the components *)

(** ** The form: attached files *)

Lemma filter_index_except (index : nat) (files : list IncidentForm.File) :
  forall from : nat,
    from <= index ->
    IncidentForm.filter_index (fun i => negb (i =? index)) from files =
    firstn (index - from) files ++ skipn (S (index - from)) files.
Proof.
  induction files as [|file rest IH]; intros from Hle; simpl.
  - now rewrite firstn_nil.
  - destruct (Nat.eqb_spec from index) as [->|Hne]; simpl.
    + rewrite Nat.sub_diag. simpl. clear IH Hle.
      assert (H : forall l from, index < from ->
                IncidentForm.filter_index (fun i => negb (i =? index)) from l = l).
      { induction l as [|x l IHl]; intros from Hlt; simpl; [reflexivity|].
        destruct (Nat.eqb_spec from index); [lia|]. simpl.
        rewrite IHl; [reflexivity | lia]. }
      apply H. lia.
    + rewrite (IH (S from)) by lia.
      replace (index - from) with (S (index - S from)) by lia.
      reflexivity.
Qed.

(** X1.  Removing an attached file drops exactly the file at that
    position and keeps the others in order; a position past the end
    drops nothing; the texts and the priority of the form stay. *)
Theorem removeFile_drops_position (index : nat) (form : IncidentForm.State) :
  let form' := IncidentForm.removeFile index form in
  IncidentForm.files form' =
    firstn index (IncidentForm.files form) ++
    skipn (S index) (IncidentForm.files form) /\
  List.length (IncidentForm.files form') =
    List.length (IncidentForm.files form) -
    (if index <? List.length (IncidentForm.files form) then 1 else 0) /\
  IncidentForm.title form' = IncidentForm.title form /\
  IncidentForm.description form' = IncidentForm.description form /\
  IncidentForm.priority form' = IncidentForm.priority form /\
  IncidentForm.category form' = IncidentForm.category form /\
  IncidentForm.location form' = IncidentForm.location form.
Proof.
  cbv zeta. unfold IncidentForm.removeFile. cbn [IncidentForm.files
    IncidentForm.title IncidentForm.description IncidentForm.priority
    IncidentForm.category IncidentForm.location].
  rewrite (filter_index_except index (IncidentForm.files form) 0) by lia.
  rewrite Nat.sub_0_r. split; [reflexivity|]. split; [|repeat split].
  rewrite length_app, length_firstn, length_skipn.
  destruct (Nat.ltb_spec index (List.length (IncidentForm.files form))); lia.
Qed.

(** ** Object names of evidence *)

Lemma occurrences_app (c : ascii) (a b : string) :
  Spec.occurrences c (a ++ b) = Spec.occurrences c a + Spec.occurrences c b.
Proof.
  induction a as [|x a IH]; simpl; [reflexivity|]. rewrite IH. lia.
Qed.

Lemma append_assoc_text (a b c : string) :
  ((a ++ b) ++ c = a ++ (b ++ c))%string.
Proof.
  induction a as [|x a IH]; simpl; [reflexivity | now rewrite IH].
Qed.

Lemma split_pop_from_none (sep : ascii) (s : string) :
  forall cur : string,
    Spec.occurrences sep s = 0 -> Js.split_pop_from sep cur s = cur.
Proof.
  induction s as [|c s IH]; intros cur H; simpl in *; [reflexivity|].
  destruct (Ascii.eqb c sep); [discriminate|]. now apply IH.
Qed.

Lemma split_pop_from_clean (sep : ascii) (s : string) :
  forall cur mid : string,
    cur = (mid ++ s)%string ->
    Spec.occurrences sep mid = 0 ->
    Spec.occurrences sep (Js.split_pop_from sep cur s) = 0.
Proof.
  induction s as [|c s IH]; intros cur mid Hcur Hmid; simpl.
  - subst cur. rewrite occurrences_app, Hmid. reflexivity.
  - destruct (Ascii.eqb c sep) eqn:E.
    + apply (IH s EmptyString); reflexivity.
    + apply (IH cur (mid ++ String c EmptyString)%string).
      * subst cur. rewrite append_assoc_text. reflexivity.
      * rewrite occurrences_app, Hmid. simpl. now rewrite E.
Qed.

Lemma split_pop_from_after (sep : ascii) (s : string) :
  forall cur : string,
    Spec.occurrences sep s <> 0 ->
    exists pre, s = (pre ++ String sep (Js.split_pop_from sep cur s))%string.
Proof.
  induction s as [|c s IH]; intros cur H; simpl in *; [congruence|].
  destruct (Ascii.eqb_spec c sep) as [->|Hne].
  - destruct (Nat.eq_dec (Spec.occurrences sep s) 0) as [Hz|Hnz].
    + exists EmptyString. simpl. now rewrite split_pop_from_none.
    + destruct (IH s Hnz) as (pre & Hpre).
      exists (String sep pre). simpl. now rewrite <- Hpre.
  - destruct (IH cur H) as (pre & Hpre).
    exists (String c pre). simpl. now rewrite <- Hpre.
Qed.

(** X2.  The extension taken from a file name holds no dot.  It is the
    whole name when the name has no dot, and otherwise the text after a
    dot of the name (hence after the last one). *)
Theorem file_extension_after_last_dot (name : string) :
  let fileExt := Js.split_pop "." name in
  Spec.occurrences "." fileExt = 0 /\
  ((Spec.occurrences "." name = 0 /\ fileExt = name) \/
   (Spec.occurrences "." name <> 0 /\
    exists pre, name = (pre ++ "." ++ fileExt)%string)).
Proof.
  cbv zeta. unfold Js.split_pop. split.
  - apply (split_pop_from_clean "." name name EmptyString); reflexivity.
  - destruct (Nat.eq_dec (Spec.occurrences "." name) 0) as [Hz|Hnz].
    + left. split; [assumption | now apply split_pop_from_none].
    + right. split; [assumption | now apply split_pop_from_after].
Qed.

(** X3.  Two objects named for the same account at different readings
    of the clock have different names, whatever their extensions. *)
Theorem object_names_differ (user_id : Schema.uuid) (stamp stamp' : nat)
    (fileExt fileExt' : string) :
  stamp <> stamp' ->
  IncidentForm.object_name user_id stamp fileExt <>
  IncidentForm.object_name user_id stamp' fileExt'.
Proof.
  intros Hne H. apply Hne. exact (object_name_stamp _ _ _ _ _ H).
Qed.

Lemma object_names_differ_witness :
  IncidentForm.object_name "u1" 11 "png" <> IncidentForm.object_name "u1" 12 "png".
Proof.
  apply (object_names_differ "u1" 11 12 "png" "png"). discriminate.
Defined.

(** ** Labels and colours of the list *)

Lemma replaceAll_one (c d : ascii) (s : string) :
  c <> d ->
  String.length (Js.replaceAll c (String d EmptyString) s) = String.length s /\
  Spec.occurrences c (Js.replaceAll c (String d EmptyString) s) = 0 /\
  Spec.occurrences d (Js.replaceAll c (String d EmptyString) s) =
    Spec.occurrences d s + Spec.occurrences c s.
Proof.
  intros Hcd. induction s as [|a s (IH1 & IH2 & IH3)]; simpl; [auto|].
  destruct (Ascii.eqb_spec a c) as [->|Hac]; simpl.
  - rewrite IH1, IH2, IH3, Ascii.eqb_refl.
    destruct (Ascii.eqb_spec d c) as [Hdc|_]; [congruence|].
    destruct (Ascii.eqb_spec c d) as [Hcd'|_]; [congruence|].
    repeat split; lia.
  - rewrite IH1, IH2, IH3.
    destruct (Ascii.eqb_spec a c) as [|_]; [congruence|].
    repeat split; lia.
Qed.

Lemma replaceFirst_one (c d : ascii) (s : string) :
  c <> d ->
  String.length (Js.replaceFirst c (String d EmptyString) s) = String.length s /\
  Spec.occurrences c (Js.replaceFirst c (String d EmptyString) s) =
    Nat.pred (Spec.occurrences c s).
Proof.
  intros Hcd. induction s as [|a s (IH1 & IH2)]; simpl; [auto|].
  destruct (Ascii.eqb_spec a c) as [->|Hac]; simpl.
  - destruct (Ascii.eqb_spec d c) as [Hdc|_]; [congruence|]. auto.
  - rewrite IH1, IH2.
    destruct (Ascii.eqb_spec a c) as [|_]; [congruence|]. auto.
Qed.

(** X4.  The label of a category in "Top Categories" is as long as the
    category and holds a space for every underscore, so no underscore is
    left.  The status badge of the list replaces the first underscore
    only, which is enough for each of the four statuses. *)
Theorem labels_without_underscores (text : string) :
  String.length (Analytics.categoryLabel text) = String.length text /\
  Spec.occurrences "_" (Analytics.categoryLabel text) = 0 /\
  Spec.occurrences " " (Analytics.categoryLabel text) =
    Spec.occurrences " " text + Spec.occurrences "_" text /\
  String.length (IncidentList.statusBadge text) = String.length text /\
  Spec.occurrences "_" (IncidentList.statusBadge text) =
    Nat.pred (Spec.occurrences "_" text) /\
  forall status : Schema.incident_status,
    Spec.occurrences "_" (IncidentList.statusBadge (Schema.status_label status)) = 0.
Proof.
  assert (Hne : "_"%char <> " "%char) by discriminate.
  destruct (replaceAll_one "_" " " text Hne) as (A1 & A2 & A3).
  destruct (replaceFirst_one "_" " " text Hne) as (F1 & F2).
  unfold Analytics.categoryLabel, IncidentList.statusBadge.
  repeat split; try assumption.
  intros status. destruct status; reflexivity.
Qed.

(** X5.  The colour of a priority falls back to [bg-muted] exactly for
    the texts that are none of the four priorities, and two different
    priorities never share a colour; the same for the statuses. *)
Theorem colours_tell_apart :
  (forall priority : string,
     IncidentList.getPriorityColor priority = "bg-muted" <->
     ~ In priority Spec.priority_labels) /\
  (forall p q : Schema.incident_priority,
     IncidentList.getPriorityColor (Schema.priority_label p) =
     IncidentList.getPriorityColor (Schema.priority_label q) -> p = q) /\
  (forall status : string,
     IncidentList.getStatusColor status = "bg-muted" <->
     ~ In status Schema.status_labels) /\
  (forall s t : Schema.incident_status,
     IncidentList.getStatusColor (Schema.status_label s) =
     IncidentList.getStatusColor (Schema.status_label t) -> s = t).
Proof.
  split; [|split; [|split]].
  - intros priority. unfold IncidentList.getPriorityColor, Spec.priority_labels.
    cbn [map Schema.priority_label In].
    destruct (String.eqb_spec priority "critical") as [->|H1];
      [split; [discriminate | intros H; exfalso; apply H; tauto]|].
    destruct (String.eqb_spec priority "high") as [->|H2];
      [split; [discriminate | intros H; exfalso; apply H; tauto]|].
    destruct (String.eqb_spec priority "medium") as [->|H3];
      [split; [discriminate | intros H; exfalso; apply H; tauto]|].
    destruct (String.eqb_spec priority "low") as [->|H4];
      [split; [discriminate | intros H; exfalso; apply H; tauto]|].
    split; [|reflexivity]. intros _ [H|[H|[H|[H|[]]]]]; congruence.
  - intros p q. destruct p, q; intros H; try reflexivity; discriminate H.
  - intros status. unfold IncidentList.getStatusColor, Schema.status_labels.
    cbn [map Schema.status_label In].
    destruct (String.eqb_spec status "open") as [->|H1];
      [split; [discriminate | intros H; exfalso; apply H; tauto]|].
    destruct (String.eqb_spec status "in_progress") as [->|H2];
      [split; [discriminate | intros H; exfalso; apply H; tauto]|].
    destruct (String.eqb_spec status "resolved") as [->|H3];
      [split; [discriminate | intros H; exfalso; apply H; tauto]|].
    destruct (String.eqb_spec status "closed") as [->|H4];
      [split; [discriminate | intros H; exfalso; apply H; tauto]|].
    split; [|reflexivity]. intros _ [H|[H|[H|[H|[]]]]]; congruence.
  - intros s t. destruct s, t; intros H; try reflexivity; discriminate H.
Qed.

Lemma colours_tell_apart_witness :
  Schema.critical = Schema.critical /\
  IncidentList.getPriorityColor "urgent" = "bg-muted".
Proof.
  destruct colours_tell_apart as (Hmuted & Hinj & _).
  split.
  - apply Hinj. reflexivity.
  - apply Hmuted. simpl. intros [H|[H|[H|[H|[]]]]]; discriminate H.
Defined.

(** ** The comment box *)

Lemma is_space_white_space (u : N) :
  Js.is_space u = true <-> In u Spec.white_space.
Proof.
  unfold Js.is_space, Spec.white_space. cbn [In].
  rewrite !orb_true_iff, !andb_true_iff, !N.leb_le, !N.eqb_eq. lia.
Qed.

Lemma blank_is_space (s : Js.text) :
  forallb Js.is_space s = true <-> Spec.blank s.
Proof.
  unfold Spec.blank. rewrite forallb_forall, Forall_forall.
  split; intros H u Hu; apply is_space_white_space; auto.
Qed.

Lemma trimStart_blank (s : Js.text) :
  forallb Js.is_space s = true -> Js.trimStart s = [].
Proof.
  induction s as [|c s IH]; simpl; [reflexivity|].
  destruct (Js.is_space c); simpl; [exact IH | discriminate].
Qed.

Lemma trimStart_text (s : Js.text) :
  forallb Js.is_space s = false ->
  exists c rest, Js.trimStart s = c :: rest /\ Js.is_space c = false.
Proof.
  induction s as [|c s IH]; simpl; [discriminate|].
  destruct (Js.is_space c) eqn:E; simpl.
  - exact IH.
  - intros _. now exists c, s.
Qed.

Lemma trimEnd_text (c : N) (rest : Js.text) :
  Js.is_space c = false -> Js.truthy (Js.trimEnd (c :: rest)) = true.
Proof.
  intros H. simpl. rewrite H. destruct (Js.trimEnd rest); reflexivity.
Qed.

(** Trimming leaves nothing exactly of the texts of white space. *)
Lemma trim_blank (s : Js.text) :
  Js.truthy (Js.trim s) = false <-> Spec.blank s.
Proof.
  rewrite <- blank_is_space. unfold Js.trim.
  destruct (forallb Js.is_space s) eqn:E.
  - rewrite trimStart_blank by exact E. simpl. tauto.
  - destruct (trimStart_text s E) as (c & rest & -> & Hc).
    rewrite trimEnd_text by exact Hc. split; discriminate.
Qed.

(** X6.  The button "Add Update" can be pressed exactly when no
    submission is pending and the text holds something other than the
    white space of JavaScript; pressed while disabled it sends nothing
    and leaves the store as it is, so a comment of white space only is
    never submitted from the dialog. *)
Theorem add_update_needs_text (incidentId : Schema.uuid) (newUpdate : Js.text)
    (isPending : bool) (w : Supabase.World) :
  (IncidentDetailsView.addUpdateDisabled newUpdate isPending = false <->
   isPending = false /\ ~ Spec.blank newUpdate) /\
  (Spec.blank newUpdate ->
   IncidentDetailsView.pressAddUpdate incidentId newUpdate isPending w = (None, w)) /\
  (isPending = false -> ~ Spec.blank newUpdate ->
   IncidentDetailsView.pressAddUpdate incidentId newUpdate isPending w =
   (Some (fst (IncidentDetails.addUpdate incidentId newUpdate w)),
    snd (IncidentDetails.addUpdate incidentId newUpdate w))).
Proof.
  unfold IncidentDetailsView.pressAddUpdate, IncidentDetailsView.addUpdateDisabled.
  pose proof (trim_blank newUpdate) as Hb.
  destruct (Js.truthy (Js.trim newUpdate)); cbn [negb orb].
  - assert (Hn : ~ Spec.blank newUpdate) by (intros H; apply Hb in H; discriminate).
    split; [tauto|]. split; [tauto|].
    intros -> _. now destruct (IncidentDetails.addUpdate incidentId newUpdate w).
  - assert (Hy : Spec.blank newUpdate) by now apply Hb.
    split; [|split].
    + split; [discriminate | tauto].
    + reflexivity.
    + tauto.
Qed.

Lemma add_update_needs_text_witness :
  IncidentDetailsView.pressAddUpdate "a" [32; 12288; 10]%N false Sample.world
    = (None, Sample.world) /\
  IncidentDetailsView.addUpdateDisabled "On it" false = false.
Proof.
  destruct (add_update_needs_text "a" [32; 12288; 10]%N false Sample.world)
    as (_ & Hblank & _).
  destruct (add_update_needs_text "a" "On it" false Sample.world) as (Hok & _ & _).
  split.
  - apply Hblank. apply blank_is_space. reflexivity.
  - apply Hok. split; [reflexivity|].
    intros H. apply blank_is_space in H. discriminate H.
Defined.

(** ** Changes of status: what is kept *)

Lemma insert_incident_update_world (v : Supabase.UpdateInsert) (w : Supabase.World) :
  let r := Supabase.insert_incident_update v w in
  Supabase.outages (snd r) = tl (Supabase.outages w) /\
  Supabase.now (snd r) = Supabase.now w + hd 1 (Supabase.delays w) /\
  Supabase.evidence_bucket (snd r) = Supabase.evidence_bucket w /\
  Supabase.profiles (snd r) = Supabase.profiles w.
Proof.
  unfold Supabase.insert_incident_update, Supabase.round_trip. simpl.
  destruct (hd false (Supabase.outages w)); simpl; [auto|].
  destruct (Supabase.session w) as [uid|]; simpl; [|auto].
  destruct (Supabase.ins_user_id v) as [author|]; simpl; [|auto].
  destruct (negb (uid =? author)%string); simpl; [auto|].
  destruct (negb (existsb _ (Supabase.incidents w))); simpl; auto.
Qed.

Lemma update_incident_world (id : Schema.uuid) (status : Schema.incident_status)
    (resolved_at : option Schema.timestamptz) (w : Supabase.World) :
  let r := Supabase.update_incident id status resolved_at w in
  (Supabase.incidents (snd r) = Supabase.incidents w \/
   Supabase.incidents (snd r) =
     Supabase.update_where (fun i => String.eqb (Incident.id i) id)
       (Supabase.set_status status resolved_at
          (Supabase.now w + hd 1 (Supabase.delays w)))
       (Supabase.incidents w)) /\
  Supabase.incident_updates (snd r) = Supabase.incident_updates w /\
  Supabase.evidence_bucket (snd r) = Supabase.evidence_bucket w /\
  Supabase.session (snd r) = Supabase.session w /\
  Supabase.now (snd r) = Supabase.now w + hd 1 (Supabase.delays w).
Proof.
  unfold Supabase.update_incident, Supabase.round_trip. simpl.
  destruct (hd false (Supabase.outages w)); simpl; [auto 6|].
  destruct (Supabase.session w) as [uid|]; simpl; auto 6.
Qed.

(** The incidents after a change of status, however it ends. *)
Lemma updateStatus_incidents (incidentId : Schema.uuid)
    (status : Schema.incident_status) (w : Supabase.World) :
  let r := IncidentDetails.updateStatus incidentId status w in
  (Supabase.incidents (snd r) = Supabase.incidents w \/
   Supabase.incidents (snd r) =
     Supabase.update_where (fun i => String.eqb (Incident.id i) incidentId)
       (Supabase.set_status status
          (match status with
           | Schema.resolved => Some (Supabase.now w)
           | _ => None
           end)
          (Supabase.now w + hd 1 (Supabase.delays w)))
       (Supabase.incidents w)) /\
  Supabase.evidence_bucket (snd r) = Supabase.evidence_bucket w.
Proof.
  cbv zeta. unfold IncidentDetails.updateStatus. run_promise.
  set (at_ := match status with Schema.resolved => Some (Supabase.now w) | _ => None end).
  destruct (update_incident_world incidentId status at_ w) as (Ui & _ & Ub & _).
  destruct (Supabase.update_incident incidentId status at_ w) as [[e|] w1];
    cbn [fst snd] in *; [auto|].
  destruct (getUser_effect w1) as (Gi & _ & _ & Gb & _).
  destruct (Supabase.getUser w1) as [user w2]. cbn [fst snd] in *.
  match goal with
  | |- context [Supabase.insert_incident_update ?v w2] =>
      pose proof (insert_incident_update_effect v w2) as (Ii & _);
      pose proof (insert_incident_update_world v w2) as (_ & _ & Ib & _);
      destruct (Supabase.insert_incident_update v w2) as [e w3]
  end.
  cbn [fst snd] in *. rewrite Ii, Gi, Ib, Gb. auto.
Qed.

Lemma filter_split_permutation {A : Type} (p : A -> bool) (l : list A) :
  Permutation (filter (fun r => negb (p r)) l ++ filter p l) l.
Proof.
  induction l as [|a l IH]; simpl; [constructor|].
  destruct (p a); simpl.
  - apply Permutation_sym, Permutation_cons_app, Permutation_sym, IH.
  - now constructor.
Qed.

(** An update is a rearrangement of the table as far as [read] cannot
    tell a row from its new version. *)
Lemma update_where_permutation {A B : Type} (read : A -> B) (matching : A -> bool)
    (set : A -> A) (rows : list A) :
  (forall r, read (set r) = read r) ->
  Permutation (map read (Supabase.update_where matching set rows)) (map read rows).
Proof.
  intros Hread. unfold Supabase.update_where.
  rewrite map_app, map_map.
  rewrite (map_ext (fun r => read (set r)) read Hread).
  rewrite <- map_app. apply Permutation_map, filter_split_permutation.
Qed.

(** The rows that an update passes by are left as they are. *)
Lemma update_where_others {A : Type} (matching : A -> bool) (set : A -> A)
    (rows : list A) :
  (forall r, matching (set r) = matching r) ->
  filter (fun r => negb (matching r)) (Supabase.update_where matching set rows)
  = filter (fun r => negb (matching r)) rows.
Proof.
  intros Hm. unfold Supabase.update_where. rewrite filter_app.
  assert (H1 : forall l, filter (fun r => negb (matching r))
                           (filter (fun r => negb (matching r)) l)
                         = filter (fun r => negb (matching r)) l).
  { induction l as [|a l IH]; simpl; [reflexivity|].
    destruct (matching a) eqn:E; simpl; [exact IH|]. rewrite E. simpl. now rewrite IH. }
  assert (H2 : forall l, filter (fun r => negb (matching r))
                           (map set (filter matching l)) = []).
  { induction l as [|a l IH]; simpl; [reflexivity|].
    destruct (matching a) eqn:E; simpl; [|exact IH]. now rewrite Hm, E. }
  now rewrite H1, H2, app_nil_r.
Qed.

(** X7.  However a change of status ends, the table holds the incidents
    it held: compared without [status], [resolved_at] and [updated_at],
    the rows after are the rows before, each as often, whatever the order
    in which the table yields them; the rows with another identifier are
    the same rows, unchanged.  The evidence bucket is not touched. *)
Theorem updateStatus_keeps_rows (incidentId : Schema.uuid)
    (status : Schema.incident_status) (w : Supabase.World) :
  let r := IncidentDetails.updateStatus incidentId status w in
  let others := filter (fun i => negb (String.eqb (Incident.id i) incidentId)) in
  Permutation (map Spec.apart_from_status (Supabase.incidents (snd r)))
    (map Spec.apart_from_status (Supabase.incidents w)) /\
  Permutation (others (Supabase.incidents (snd r))) (others (Supabase.incidents w)) /\
  Supabase.evidence_bucket (snd r) = Supabase.evidence_bucket w.
Proof.
  cbv zeta. destruct (updateStatus_incidents incidentId status w) as ([H|H] & Hb);
    rewrite H; clear H; (split; [|split; [|exact Hb]]).
  - apply Permutation_refl.
  - apply Permutation_refl.
  - apply update_where_permutation. reflexivity.
  - rewrite update_where_others by reflexivity. apply Permutation_refl.
Qed.

Lemma set_status_consistent (status : Schema.incident_status)
    (t t' : Schema.timestamptz) (i : Incident.t) :
  Spec.resolution_consistent
    (Supabase.set_status status
       (match status with Schema.resolved => Some t | _ => None end) t' i).
Proof.
  unfold Spec.resolution_consistent. destruct status; simpl;
    split; intros H; try discriminate; try reflexivity; congruence.
Qed.

(** The incidents after a report, however it ends. *)
Lemma createIncident_incidents (form : IncidentForm.State) (w : Supabase.World) :
  let r := IncidentForm.createIncident form w in
  Supabase.incidents (snd r) = Supabase.incidents w \/
  exists row,
    Supabase.incidents (snd r) = Supabase.incidents w ++ [row] /\
    Incident.status row = "open" /\ Incident.resolved_at row = None.
Proof.
  cbv zeta. unfold IncidentForm.createIncident. run_promise.
  destruct (getUser_effect w) as (Gi & _).
  destruct (Supabase.getUser w) as [[user_id|] w1]; cbn [fst snd] in *; [|auto].
  pose proof (upload_files_frame user_id (IncidentForm.files form) [] w1) as (Fi & _).
  destruct (IncidentForm.upload_files user_id (IncidentForm.files form) [] w1)
    as [[evidenceUrls|e] w2]; cbn [fst snd] in *; [|left; congruence].
  match goal with
  | |- context [Supabase.insert_incident ?v w2] =>
      pose proof (insert_incident_effect v w2) as Ieff;
      destruct (Supabase.insert_incident v w2) as [[data|error] w3]
  end; cbn [fst snd] in *.
  - right. exists data. destruct Ieff as (H1 & _ & _ & H4 & H5 & _).
    cbn [Supabase.ins_status Supabase.ins_resolved_at Supabase.default] in *.
    repeat split; try assumption. congruence.
  - left. congruence.
Qed.

(** X8.  Reporting, changing a status and commenting keep the rule that
    [resolved_at] is set exactly on the resolved incidents: when it holds
    of every stored incident before one of them runs, it holds after,
    however the operation ends. *)
Theorem mutations_keep_resolution (w : Supabase.World) :
  Forall Spec.resolution_consistent (Supabase.incidents w) ->
  (forall form,
     Forall Spec.resolution_consistent
       (Supabase.incidents (snd (IncidentForm.createIncident form w)))) /\
  (forall incidentId status,
     Forall Spec.resolution_consistent
       (Supabase.incidents (snd (IncidentDetails.updateStatus incidentId status w)))) /\
  (forall incidentId newUpdate,
     Forall Spec.resolution_consistent
       (Supabase.incidents (snd (IncidentDetails.addUpdate incidentId newUpdate w)))).
Proof.
  intros Hall. split; [|split].
  - intros form. destruct (createIncident_incidents form w) as [H|(row & H & Hs & Hr)];
      rewrite H; [assumption|].
    apply Forall_app. split; [assumption|]. constructor; [|constructor].
    unfold Spec.resolution_consistent. rewrite Hs, Hr.
    split; intros H'; [congruence | discriminate].
  - intros incidentId status.
    destruct (updateStatus_incidents incidentId status w) as ([H|H] & _);
      rewrite H; [assumption|].
    rewrite Forall_forall in *. intros i Hi. apply in_update_where in Hi.
    destruct Hi as [[Hi _]|(i0 & _ & _ & ->)];
      [now apply Hall | apply set_status_consistent].
  - intros incidentId newUpdate. now rewrite addUpdate_keeps_incidents.
Qed.

Lemma mutations_keep_resolution_witness :
  Forall Spec.resolution_consistent
    (Supabase.incidents
       (snd (IncidentDetails.updateStatus "a" Schema.resolved Sample.world))).
Proof.
  destruct (mutations_keep_resolution Sample.world) as (_ & H & _).
  - repeat constructor; simpl; intros H; [congruence | discriminate].
  - apply H.
Defined.

(** ** Changes of status: one after another *)

Lemma clear_tl (n : nat) (l : list bool) :
  forallb negb (firstn (S n) l) = true -> forallb negb (firstn n (tl l)) = true.
Proof.
  destruct l as [|b l]; simpl.
  - intros _. now rewrite firstn_nil.
  - rewrite andb_true_iff. tauto.
Qed.

Lemma reaches_fewer (n m : nat) (w : Supabase.World) :
  Supabase.reaches (n + m) w -> Supabase.reaches n w.
Proof.
  unfold Supabase.reaches. generalize (Supabase.outages w) as l.
  induction n as [|n IH]; intros l; simpl; [reflexivity|].
  destruct l as [|b l]; simpl; [reflexivity|].
  rewrite !andb_true_iff. intros [Hb H]. split; [assumption | now apply IH].
Qed.

(** The world after a change of status that resolved. *)
Lemma updateStatus_world (incidentId : Schema.uuid)
    (status : Schema.incident_status) (w : Supabase.World) :
  let r := IncidentDetails.updateStatus incidentId status w in
  fst r = Promise.Resolved tt ->
  Supabase.session (snd r) = Supabase.session w /\
  Supabase.outages (snd r) = tl (tl (tl (Supabase.outages w))) /\
  Supabase.now w <= Supabase.now (snd r).
Proof.
  cbv zeta. unfold IncidentDetails.updateStatus. run_promise.
  unfold Supabase.update_incident, Supabase.round_trip. cbn [fst snd].
  destruct (hd false (Supabase.outages w)); cbn [fst snd]; [discriminate|].
  cbn [Supabase.session].
  destruct (Supabase.session w) as [uid|] eqn:Hs.
  - match goal with
    | |- context [Supabase.getUser ?w1] =>
        destruct (getUser_effect w1) as (_ & _ & Gs & _ & Gn & Go & _);
        destruct (Supabase.getUser w1) as [user w2]
    end.
    cbn [fst snd] in *.
    match goal with
    | |- context [Supabase.insert_incident_update ?v w2] =>
        pose proof (insert_incident_update_effect v w2) as (_ & Is & _);
        pose proof (insert_incident_update_world v w2) as (Io & In_ & _);
        destruct (Supabase.insert_incident_update v w2) as [e w3]
    end.
    cbn [fst snd] in *. intros _.
    rewrite Is, Gs, Io, Go, In_, Gn. simpl. repeat split; lia.
  - match goal with
    | |- context [Supabase.getUser ?w1] =>
        destruct (getUser_effect w1) as (_ & _ & Gs & _ & Gn & Go & _);
        destruct (Supabase.getUser w1) as [user w2]
    end.
    cbn [fst snd] in *.
    match goal with
    | |- context [Supabase.insert_incident_update ?v w2] =>
        pose proof (insert_incident_update_effect v w2) as (_ & Is & _);
        pose proof (insert_incident_update_world v w2) as (Io & In_ & _);
        destruct (Supabase.insert_incident_update v w2) as [e w3]
    end.
    cbn [fst snd] in *. intros _.
    rewrite Is, Gs, Io, Go, In_, Gn. simpl. repeat split; lia.
Qed.

(** X9.  Two changes of status in a row, to any two statuses: when
    somebody is signed in, the incident exists and the six requests reach
    the store, both resolve; the incident ends with the second status,
    with [resolved_at] set to the time of the second change if that
    status is [resolved] and empty otherwise; rows with another
    identifier are as before; and the timeline has grown by exactly the
    two entries, in the order of the changes. *)
Theorem transitions_compose (incidentId : Schema.uuid)
    (first second : Schema.incident_status) (w : Supabase.World)
    (uid : Schema.uuid) :
  Supabase.session w = Some uid ->
  (exists i, In i (Supabase.incidents w) /\ Incident.id i = incidentId) ->
  Supabase.reaches 6 w ->
  let r1 := IncidentDetails.updateStatus incidentId first w in
  let r2 := IncidentDetails.updateStatus incidentId second (snd r1) in
  fst r1 = Promise.Resolved tt /\
  fst r2 = Promise.Resolved tt /\
  (forall i, In i (Supabase.incidents (snd r2)) -> Incident.id i = incidentId ->
     Incident.status i = Schema.status_label second /\
     Incident.resolved_at i =
       match second with
       | Schema.resolved => Some (Supabase.now (snd r1))
       | _ => None
       end) /\
  (forall i, In i (Supabase.incidents (snd r2)) -> Incident.id i <> incidentId ->
     In i (Supabase.incidents w)) /\
  exists u1 u2,
    Supabase.incident_updates (snd r2) = Supabase.incident_updates w ++ [u1; u2] /\
    Update.content u1 = ("Status changed to: " ++ Schema.status_label first)%string /\
    Update.content u2 = ("Status changed to: " ++ Schema.status_label second)%string /\
    Update.update_type u1 = "status_change" /\
    Update.update_type u2 = "status_change" /\
    Update.user_id u1 = uid /\ Update.user_id u2 = uid.
Proof.
  intros Hs Hi Hr. cbv zeta.
  destruct (updateStatus_recorded incidentId first w uid Hs Hi
              (reaches_fewer 3 3 w Hr))
    as (R1 & I1 & u1 & U1 & _ & A1 & T1 & C1).
  destruct (updateStatus_world incidentId first w R1) as (S1 & O1 & N1).
  set (w1 := snd (IncidentDetails.updateStatus incidentId first w)) in *.
  assert (Hs1 : Supabase.session w1 = Some uid) by congruence.
  assert (Hi1 : exists i, In i (Supabase.incidents w1) /\ Incident.id i = incidentId).
  { rewrite I1. now apply update_where_keeps_id. }
  assert (Hr1 : Supabase.reaches 3 w1).
  { unfold Supabase.reaches in *. rewrite O1.
    now apply clear_tl, clear_tl, clear_tl. }
  destruct (updateStatus_recorded incidentId second w1 uid Hs1 Hi1 Hr1)
    as (R2 & I2 & u2 & U2 & _ & A2 & T2 & C2).
  split; [exact R1|]. split; [exact R2|]. split; [|split].
  - intros i Hin Hid. rewrite I2 in Hin. apply in_update_where in Hin.
    destruct Hin as [[_ Hne]|(j & _ & _ & ->)].
    + apply String.eqb_neq in Hne. contradiction.
    + destruct second; split; reflexivity.
  - intros i Hin Hid. rewrite I2 in Hin. apply in_update_where in Hin.
    destruct Hin as [[Hin _]|(j & _ & Hj & ->)].
    + rewrite I1 in Hin. apply in_update_where in Hin.
      destruct Hin as [[Hin _]|(k & _ & Hk & ->)]; [exact Hin|].
      apply String.eqb_eq in Hk. simpl in Hid. contradiction.
    + apply String.eqb_eq in Hj. simpl in Hid. contradiction.
  - exists u1, u2. rewrite U2, U1, <- app_assoc. simpl.
    repeat split; assumption.
Qed.

Lemma transitions_compose_witness :
  exists u1 u2,
    Supabase.incident_updates
      (snd (IncidentDetails.updateStatus "a" Schema.open
              (snd (IncidentDetails.updateStatus "a" Schema.resolved Sample.world))))
    = Supabase.incident_updates Sample.world ++ [u1; u2].
Proof.
  destruct (transitions_compose "a" Schema.resolved Schema.open Sample.world "u1")
    as (_ & _ & _ & _ & u1 & u2 & H & _).
  - reflexivity.
  - eexists. split; [left; reflexivity | reflexivity].
  - reflexivity.
  - exists u1, u2. exact H.
Defined.

(** ** Signed out *)

Lemma tables_after_round_trip (r : Supabase.Request) (w : Supabase.World) :
  let w1 := snd (Supabase.round_trip r w) in
  Supabase.incidents w1 = Supabase.incidents w /\
  Supabase.incident_updates w1 = Supabase.incident_updates w /\
  Supabase.evidence_bucket w1 = Supabase.evidence_bucket w /\
  Supabase.session w1 = Supabase.session w.
Proof. repeat split. Qed.

(** X10.  With nobody signed in, nothing is written and nothing is read:
    reporting, changing a status and commenting leave the incidents, the
    updates and the evidence bucket as they are, the report stops with
    "Not authenticated" and the comment is rejected; the list and the
    timeline come back empty unless their request is lost, and the
    incident of the dialog is not found. *)
Theorem signed_out_store_is_closed (w : Supabase.World)
    (form : IncidentForm.State) (incidentId : Schema.uuid)
    (status : Schema.incident_status) (newUpdate : Js.text) :
  Supabase.session w = None ->
  let reported := IncidentForm.createIncident form w in
  let changed := IncidentDetails.updateStatus incidentId status w in
  let commented := IncidentDetails.addUpdate incidentId newUpdate w in
  (fst reported = Promise.Rejected Promise.NotAuthenticated /\
   Supabase.incidents (snd reported) = Supabase.incidents w /\
   Supabase.incident_updates (snd reported) = Supabase.incident_updates w /\
   Supabase.evidence_bucket (snd reported) = Supabase.evidence_bucket w) /\
  (Supabase.incidents (snd changed) = Supabase.incidents w /\
   Supabase.incident_updates (snd changed) = Supabase.incident_updates w /\
   Supabase.evidence_bucket (snd changed) = Supabase.evidence_bucket w) /\
  ((exists e, fst commented = Promise.Rejected (Promise.StoreError e)) /\
   Supabase.incidents (snd commented) = Supabase.incidents w /\
   Supabase.incident_updates (snd commented) = Supabase.incident_updates w /\
   Supabase.evidence_bucket (snd commented) = Supabase.evidence_bucket w) /\
  (fst (IncidentList.queryFn w) = Promise.Resolved [] \/
   fst (IncidentList.queryFn w) =
     Promise.Rejected (Promise.StoreError Supabase.FetchFailed)) /\
  (fst (IncidentDetailsView.updatesQuery incidentId w) = Promise.Resolved [] \/
   fst (IncidentDetailsView.updatesQuery incidentId w) =
     Promise.Rejected (Promise.StoreError Supabase.FetchFailed)) /\
  (fst (IncidentDetailsView.incidentQuery incidentId w) =
     inr (Supabase.NotOneRow 0) \/
   fst (IncidentDetailsView.incidentQuery incidentId w) =
     inr (Supabase.Failed Supabase.FetchFailed)).
Proof.
  intros Hs. cbv zeta. split; [|split; [|split; [|split; [|split]]]].
  - destruct (createIncident_signed_out form w Hs) as (H1 & H2 & H3 & H4 & _).
    auto.
  - unfold IncidentDetails.updateStatus. run_promise.
    unfold Supabase.update_incident, Supabase.getUser,
      Supabase.insert_incident_update, Supabase.round_trip.
    simpl. rewrite Hs.
    destruct (hd false (Supabase.outages w)); simpl; [auto|].
    destruct (hd false (tl (Supabase.outages w))); simpl;
      destruct (hd false (tl (tl (Supabase.outages w)))); simpl; auto.
  - unfold IncidentDetails.addUpdate. run_promise.
    unfold Supabase.getUser, Supabase.insert_incident_update, Supabase.round_trip.
    simpl. rewrite Hs.
    destruct (hd false (Supabase.outages w)); simpl;
      destruct (hd false (tl (Supabase.outages w))); simpl;
      (split; [eexists; reflexivity | auto]).
  - unfold IncidentList.queryFn. run_promise.
    unfold Supabase.select_incidents, Supabase.round_trip.
    simpl. rewrite Hs.
    destruct (hd false (Supabase.outages w)); simpl; auto.
  - unfold IncidentDetailsView.updatesQuery. run_promise.
    unfold Supabase.select_incident_updates, Supabase.exchange.
    simpl. rewrite Hs.
    destruct (hd false (Supabase.outages w)); simpl; auto.
  - unfold IncidentDetailsView.incidentQuery, Supabase.select_incident,
      Supabase.exchange.
    simpl. rewrite Hs.
    destruct (hd false (Supabase.outages w)); simpl; auto.
Qed.

Lemma signed_out_store_is_closed_witness :
  Supabase.incidents
    (snd (IncidentDetails.updateStatus "a" Schema.closed Sample.world_signed_out))
  = Supabase.incidents Sample.world_signed_out.
Proof.
  destruct (signed_out_store_is_closed Sample.world_signed_out Sample.report "a"
              Schema.closed "Guard on the way" eq_refl)
    as (_ & (H & _) & _).
  exact H.
Defined.

(** ** Evidence *)

(** What the upload loop has done when it comes through. *)
Lemma upload_files_resolved (user_id : Schema.uuid) (files : list IncidentForm.File) :
  forall (urls urls' : list string) (w w' : Supabase.World),
    IncidentForm.upload_files user_id files urls w = (Promise.Resolved urls', w') ->
    exists names,
      urls' = urls ++ map (fun n => Supabase.getPublicUrl n w) names /\
      Supabase.evidence_bucket w' = Supabase.evidence_bucket w ++ names /\
      Forall2
        (fun file n =>
           exists stamp,
             Supabase.now w <= stamp /\
             n = IncidentForm.object_name user_id stamp
                   (Js.split_pop "." (IncidentForm.name file)))
        files names /\
      Supabase.project_url w' = Supabase.project_url w /\
      Supabase.outages w' = skipn (List.length files) (Supabase.outages w).
Proof.
  induction files as [|file rest IH]; intros urls urls' w w'; simpl.
  - unfold Promise.ret. intros H. injection H as <- <-.
    exists []. simpl. rewrite !app_nil_r. repeat split. constructor.
  - run_promise. unfold Supabase.upload, Supabase.round_trip. simpl.
    destruct (hd false (Supabase.outages w)); simpl; [discriminate|].
    destruct (Supabase.session w) as [uid|]; simpl; [|discriminate].
    destruct (existsb _ (Supabase.evidence_bucket w)); simpl; [discriminate|].
    intros H. apply IH in H. simpl in H.
    destruct H as (names & Hu & Hb & Hf & Hp & Ho).
    set (path := IncidentForm.object_name user_id (Supabase.now w)
                   (Js.split_pop "." (IncidentForm.name file))) in *.
    exists (path :: names). split; [|split; [|split; [|split]]].
    + rewrite Hu, <- app_assoc. reflexivity.
    + rewrite Hb, <- app_assoc. reflexivity.
    + constructor.
      * exists (Supabase.now w). split; [lia | reflexivity].
      * eapply Forall2_impl; [|exact Hf].
        intros f n (stamp & Hle & Hn). exists stamp. split; [lia | exact Hn].
    + exact Hp.
    + rewrite Ho. destruct (Supabase.outages w); [now rewrite skipn_nil | reflexivity].
Qed.

Lemma insert_incident_evidence (v : Supabase.IncidentInsert) (w : Supabase.World) :
  let r := Supabase.insert_incident v w in
  Supabase.evidence_bucket (snd r) = Supabase.evidence_bucket w /\
  forall row, fst r = inl row ->
    Incident.evidence_urls row = Supabase.ins_evidence_urls v.
Proof.
  unfold Supabase.insert_incident, Supabase.round_trip. simpl.
  destruct (hd false (Supabase.outages w)); simpl;
    [split; [reflexivity | discriminate]|].
  destruct (Supabase.session w) as [uid|]; simpl;
    [|split; [reflexivity | discriminate]].
  destruct (negb (uid =? Supabase.ins_reporter_id v)%string); simpl;
    [split; [reflexivity | discriminate]|].
  split; [reflexivity|]. intros row H. now injection H as <-.
Qed.

(** X11.  A report that resolves has uploaded one object per attached
    file, in the order of the files: each is named for the reporter, a
    reading of the clock and the extension of the file; the bucket has
    grown by exactly these objects, and the row lists their public URLs
    in the same order. *)
Theorem createIncident_evidence (form : IncidentForm.State) (w : Supabase.World)
    (row : Incident.t) :
  fst (IncidentForm.createIncident form w) = Promise.Resolved row ->
  exists names,
    Incident.evidence_urls row =
      Some (map (fun n => Supabase.getPublicUrl n w) names) /\
    Supabase.evidence_bucket (snd (IncidentForm.createIncident form w)) =
      Supabase.evidence_bucket w ++ names /\
    Forall2
      (fun file n =>
         exists stamp,
           Supabase.now w <= stamp /\
           n = IncidentForm.object_name (Incident.reporter_id row) stamp
                 (Js.split_pop "." (IncidentForm.name file)))
      (IncidentForm.files form) names.
Proof.
  unfold IncidentForm.createIncident. run_promise.
  destruct (getUser_effect w) as (_ & _ & _ & Gb & Gn & _).
  assert (Gp : Supabase.project_url (snd (Supabase.getUser w)) = Supabase.project_url w).
  { unfold Supabase.getUser, Supabase.round_trip. reflexivity. }
  destruct (Supabase.getUser w) as [[user_id|] w1]; cbn [fst snd] in *;
    [|discriminate].
  destruct (IncidentForm.upload_files user_id (IncidentForm.files form) [] w1)
    as [[evidenceUrls|e] w2] eqn:Eup; cbn [fst snd] in *; [|discriminate].
  destruct (upload_files_resolved user_id _ _ _ _ _ Eup)
    as (names & Hu & Hb & Hf & _).
  match goal with
  | |- context [Supabase.insert_incident ?v w2] =>
      pose proof (insert_incident_evidence v w2) as (Ib & Ie);
      pose proof (insert_incident_effect v w2) as Ieff;
      destruct (Supabase.insert_incident v w2) as [[data|error] w3]
  end; cbn [fst snd] in *; [|discriminate].
  intros H. injection H as <-.
  destruct Ieff as (_ & _ & Hrep & _). cbn [Supabase.ins_reporter_id] in Hrep.
  exists names. split; [|split].
  - rewrite (Ie data eq_refl). cbn [Supabase.ins_evidence_urls].
    rewrite Hu. simpl. f_equal. apply map_ext. intros n.
    unfold Supabase.getPublicUrl. now rewrite Gp.
  - rewrite Ib, Hb, Gb. reflexivity.
  - rewrite Hrep. eapply Forall2_impl; [|exact Hf].
    intros f n (stamp & Hle & Hn). exists stamp. split; [lia | exact Hn].
Qed.

Lemma createIncident_evidence_witness :
  exists row names,
    fst (IncidentForm.createIncident Sample.report Sample.world)
      = Promise.Resolved row /\
    Incident.evidence_urls row =
      Some (map (fun n => Supabase.getPublicUrl n Sample.world) names) /\
    List.length names = 2.
Proof.
  assert (Hrow : exists row,
            fst (IncidentForm.createIncident Sample.report Sample.world)
            = Promise.Resolved row) by (vm_compute; eexists; reflexivity).
  destruct Hrow as (row & Hrow).
  destruct (createIncident_evidence Sample.report Sample.world row Hrow)
    as (names & Hurls & _ & Hfiles).
  exists row, names. split; [exact Hrow|]. split; [exact Hurls|].
  apply Forall2_length in Hfiles. symmetry. exact Hfiles.
Defined.

(** X12.  Uploads are not taken back.  When somebody is signed in, the
    uploads succeed and then the request that inserts the incident is
    lost, the report is rejected and no incident is written, but the
    bucket keeps one new object per attached file. *)
Theorem createIncident_leaves_uploads (form : IncidentForm.State)
    (w : Supabase.World) (uid : Schema.uuid) (urls : list string)
    (w2 : Supabase.World) :
  Supabase.session w = Some uid ->
  Supabase.reaches 1 w ->
  IncidentForm.upload_files uid (IncidentForm.files form) []
    (snd (Supabase.getUser w)) = (Promise.Resolved urls, w2) ->
  hd false (Supabase.outages w2) = true ->
  let r := IncidentForm.createIncident form w in
  fst r = Promise.Rejected (Promise.StoreError Supabase.FetchFailed) /\
  Supabase.incidents (snd r) = Supabase.incidents w /\
  exists names,
    Supabase.evidence_bucket (snd r) = Supabase.evidence_bucket w ++ names /\
    List.length names = List.length (IncidentForm.files form) /\
    urls = map (fun n => Supabase.getPublicUrl n w) names.
Proof.
  intros Hs Hr Hup Hlost. cbv zeta.
  unfold IncidentForm.createIncident. run_promise.
  destruct (getUser_effect w) as (Gi & _ & _ & Gb & _ & _ & _ & Guser).
  specialize (Guser (reaches_hd _ _ Hr)).
  assert (Gp : Supabase.project_url (snd (Supabase.getUser w)) = Supabase.project_url w).
  { unfold Supabase.getUser, Supabase.round_trip. reflexivity. }
  destruct (Supabase.getUser w) as [user w1]. cbn [fst snd] in *.
  rewrite Guser, Hs, Hup.
  destruct (upload_files_resolved uid _ _ _ _ _ Hup)
    as (names & Hu & Hb & Hf & _).
  pose proof (upload_files_frame uid (IncidentForm.files form) [] w1) as (Fi & _).
  rewrite Hup in Fi. cbn [fst snd] in Fi.
  unfold Supabase.insert_incident, Supabase.round_trip. cbn [fst snd].
  rewrite Hlost. cbn [fst snd Supabase.incidents Supabase.evidence_bucket].
  split; [reflexivity|]. split; [congruence|].
  exists names. split; [congruence|]. split.
  - apply Forall2_length in Hf. symmetry. exact Hf.
  - rewrite Hu. simpl. apply map_ext. intros n.
    unfold Supabase.getPublicUrl. now rewrite Gp.
Qed.

Lemma createIncident_leaves_uploads_witness :
  fst (IncidentForm.createIncident Sample.report Sample.world_fourth_request_lost)
    = Promise.Rejected (Promise.StoreError Supabase.FetchFailed) /\
  exists names,
    Supabase.evidence_bucket
      (snd (IncidentForm.createIncident Sample.report
              Sample.world_fourth_request_lost)) = [] ++ names /\
    List.length names = 2.
Proof.
  edestruct (createIncident_leaves_uploads Sample.report
               Sample.world_fourth_request_lost "u1")
    as (Hrej & _ & names & Hb & Hn & _).
  - reflexivity.
  - reflexivity.
  - vm_compute. reflexivity.
  - reflexivity.
  - split; [exact Hrej|]. exists names. split; assumption.
Defined.

(** ** Profiles *)

(** A lookup that reaches the store with a session finds the profile of
    the account, or none when there is none. *)
Lemma select_profile_summary (id : Schema.uuid) (w : Supabase.World) (uid : Schema.uuid) :
  Supabase.session w = Some uid ->
  Supabase.outages w = [] ->
  let r := Supabase.select_profile id w in
  Spec.summary_in (Supabase.profiles w) id (fst r) /\
  Supabase.session (snd r) = Supabase.session w /\
  Supabase.outages (snd r) = [] /\
  Supabase.profiles (snd r) = Supabase.profiles w.
Proof.
  intros Hs Ho. unfold Supabase.select_profile, Supabase.round_trip. simpl.
  rewrite Ho, Hs. simpl. repeat split.
  destruct (find _ (Supabase.profiles w)) as [p|] eqn:E; simpl.
  - apply find_some in E. destruct E as (Hin & Hid). apply String.eqb_eq in Hid.
    exists p. auto.
  - intros p Hin Hid. apply (find_none _ _ E) in Hin.
    rewrite Hid, String.eqb_refl in Hin. discriminate.
Qed.

Lemma with_profiles_summaries (incident : Incident.t) (w : Supabase.World)
    (uid : Schema.uuid) :
  Supabase.session w = Some uid ->
  Supabase.outages w = [] ->
  exists e w',
    IncidentList.with_profiles incident w = (Promise.Resolved e, w') /\
    IncidentList.row e = incident /\
    Spec.summary_in (Supabase.profiles w) (Incident.reporter_id incident)
      (IncidentList.reporter e) /\
    match Incident.assigned_to incident with
    | Some assignee =>
        Spec.summary_in (Supabase.profiles w) assignee (IncidentList.assigned e)
    | None => IncidentList.assigned e = None
    end /\
    Supabase.session w' = Supabase.session w /\
    Supabase.outages w' = [] /\
    Supabase.profiles w' = Supabase.profiles w.
Proof.
  intros Hs Ho. unfold IncidentList.with_profiles. run_promise.
  destruct (select_profile_summary (Incident.reporter_id incident) w uid Hs Ho)
    as (R1 & S1 & O1 & P1).
  destruct (Supabase.select_profile (Incident.reporter_id incident) w)
    as [reporterData w1]. cbn [fst snd] in *.
  destruct (Incident.assigned_to incident) as [assignee|].
  - destruct (select_profile_summary assignee w1 uid) as (R2 & S2 & O2 & P2);
      [congruence | assumption|].
    destruct (Supabase.select_profile assignee w1) as [assignedData w2].
    cbn [fst snd] in *. eexists. eexists. split; [reflexivity|].
    cbn [IncidentList.row IncidentList.reporter IncidentList.assigned].
    rewrite <- P1. repeat split; try assumption; congruence.
  - eexists. eexists. split; [reflexivity|].
    cbn [IncidentList.row IncidentList.reporter IncidentList.assigned].
    repeat split; assumption.
Qed.

Lemma all_summaries (incidentsData : list Incident.t) :
  forall (w : Supabase.World) (uid : Schema.uuid),
    Supabase.session w = Some uid ->
    Supabase.outages w = [] ->
    exists es w',
      IncidentList.all incidentsData w = (Promise.Resolved es, w') /\
      map IncidentList.row es = incidentsData /\
      Forall
        (fun e =>
           Spec.summary_in (Supabase.profiles w)
             (Incident.reporter_id (IncidentList.row e)) (IncidentList.reporter e) /\
           match Incident.assigned_to (IncidentList.row e) with
           | Some assignee =>
               Spec.summary_in (Supabase.profiles w) assignee (IncidentList.assigned e)
           | None => IncidentList.assigned e = None
           end)
        es.
Proof.
  induction incidentsData as [|incident rest IH]; intros w uid Hs Ho; simpl.
  - exists [], w. repeat split. constructor.
  - run_promise.
    destruct (with_profiles_summaries incident w uid Hs Ho)
      as (e & w1 & He & Hrow & Hrep & Hass & S1 & O1 & P1).
    unfold Promise.bind in He. rewrite He.
    destruct (IH w1 uid) as (es & w2 & Hes & Hrows & Hall);
      [congruence | assumption|].
    unfold Promise.bind, Promise.ret in Hes. rewrite Hes.
    exists (e :: es), w2. split; [reflexivity|]. split.
    + simpl. now rewrite Hrow, Hrows.
    + constructor.
      * rewrite Hrow. split; assumption.
      * rewrite P1 in Hall. exact Hall.
Qed.

(** X13.  When somebody is signed in and no request is lost, every
    incident of the list carries the name and the address of the profile
    of its reporter, and of its assignee when it has one; an account
    without a profile gives no summary, and an incident without assignee
    has none, without a lookup. *)
Theorem list_summaries (w : Supabase.World) (uid : Schema.uuid) :
  Supabase.session w = Some uid ->
  Supabase.outages w = [] ->
  exists shown,
    fst (IncidentList.queryFn w) = Promise.Resolved shown /\
    Forall
      (fun e =>
         Spec.summary_in (Supabase.profiles w)
           (Incident.reporter_id (IncidentList.row e)) (IncidentList.reporter e) /\
         match Incident.assigned_to (IncidentList.row e) with
         | Some assignee =>
             Spec.summary_in (Supabase.profiles w) assignee (IncidentList.assigned e)
         | None => IncidentList.assigned e = None
         end)
      shown.
Proof.
  intros Hs Ho. unfold IncidentList.queryFn. run_promise.
  unfold Supabase.select_incidents, Supabase.round_trip. cbn [fst snd].
  rewrite Ho. cbn [hd Supabase.session Supabase.incidents]. rewrite Hs.
  match goal with
  | |- context [IncidentList.all ?l ?w1] =>
      destruct (all_summaries l w1 uid eq_refl eq_refl) as (es & w2 & He & _ & Hall)
  end.
  rewrite He. exists es. split; [reflexivity | exact Hall].
Qed.

Lemma list_summaries_witness :
  exists shown,
    fst (IncidentList.queryFn Sample.world_scenario) = Promise.Resolved shown /\
    Forall
      (fun e =>
         Spec.summary_in (Supabase.profiles Sample.world_scenario)
           (Incident.reporter_id (IncidentList.row e)) (IncidentList.reporter e))
      shown.
Proof.
  destruct (list_summaries Sample.world_scenario "u1" eq_refl eq_refl)
    as (shown & H & Hall).
  exists shown. split; [exact H|].
  eapply Forall_impl; [|exact Hall]. intros e He. exact (proj1 He).
Defined.

(** ** The dialog: timeline and incident *)

Lemma authored_updates (updatesData : list Update.t) :
  forall w : Supabase.World,
  exists us w',
    IncidentDetailsView.all updatesData w = (Promise.Resolved us, w') /\
    map IncidentDetailsView.update us = updatesData.
Proof.
  induction updatesData as [|u rest IH]; intros w; simpl.
  - exists [], w. split; reflexivity.
  - run_promise.
    destruct (Supabase.select_profile (Update.user_id u) w) as [userData w1].
    destruct (IH w1) as (us & w2 & Hus & Hmap).
    unfold Promise.bind, Promise.ret in Hus. rewrite Hus.
    eexists. eexists. split; [reflexivity|]. simpl. now rewrite Hmap.
Qed.

Lemma authored_summaries (updatesData : list Update.t) :
  forall (w : Supabase.World) (uid : Schema.uuid),
    Supabase.session w = Some uid ->
    Supabase.outages w = [] ->
    exists us w',
      IncidentDetailsView.all updatesData w = (Promise.Resolved us, w') /\
      Forall
        (fun a =>
           Spec.summary_in (Supabase.profiles w)
             (Update.user_id (IncidentDetailsView.update a))
             (IncidentDetailsView.user a))
        us.
Proof.
  induction updatesData as [|u rest IH]; intros w uid Hs Ho; simpl.
  - exists [], w. split; [reflexivity | constructor].
  - run_promise.
    destruct (select_profile_summary (Update.user_id u) w uid Hs Ho)
      as (R1 & S1 & O1 & P1).
    destruct (Supabase.select_profile (Update.user_id u) w) as [userData w1].
    cbn [fst snd] in *.
    destruct (IH w1 uid) as (us & w2 & Hus & Hall); [congruence | assumption|].
    unfold Promise.bind, Promise.ret in Hus. rewrite Hus.
    eexists. eexists. split; [reflexivity|].
    constructor; [exact R1|]. rewrite P1 in Hall. exact Hall.
Qed.

Lemma latest_first_sorted (l : list Update.t) :
  StronglySorted Spec.not_older_update (Stable.sort Supabase.latest_first l).
Proof.
  apply (sort_sorted Supabase.latest_first Spec.not_older_update (fun _ _ => True)).
  - unfold Spec.not_older_update. intros x y z Hxy Hyz. lia.
  - unfold Spec.not_older_update, Supabase.latest_first. intros x y H. lia.
  - unfold Spec.not_older_update, Supabase.latest_first. intros x y H _. lia.
  - apply sorted_any_order.
Qed.

(** X14.  When somebody is signed in and the request reaches the store,
    the timeline of the dialog resolves with exactly the stored updates
    of that incident, each as often as stored and newest first; when no
    request is lost, each carries the name and the address of its
    author's profile. *)
Theorem updatesQuery_exact (incidentId : Schema.uuid) (w : Supabase.World)
    (uid : Schema.uuid) :
  Supabase.session w = Some uid ->
  Supabase.reaches 1 w ->
  exists shown,
    fst (IncidentDetailsView.updatesQuery incidentId w) = Promise.Resolved shown /\
    Permutation (map IncidentDetailsView.update shown)
      (filter (fun u => String.eqb (Update.incident_id u) incidentId)
         (Supabase.incident_updates w)) /\
    StronglySorted Spec.not_older_update (map IncidentDetailsView.update shown) /\
    (forall u, In u (map IncidentDetailsView.update shown) <->
               In u (Supabase.incident_updates w) /\
               Update.incident_id u = incidentId) /\
    (Supabase.outages w = [] ->
     Forall
       (fun a =>
          Spec.summary_in (Supabase.profiles w)
            (Update.user_id (IncidentDetailsView.update a))
            (IncidentDetailsView.user a))
       shown).
Proof.
  intros Hs Hr. unfold IncidentDetailsView.updatesQuery. run_promise.
  unfold Supabase.select_incident_updates, Supabase.exchange. cbn [fst snd].
  rewrite (reaches_hd _ _ Hr). cbn [Supabase.session Supabase.incident_updates].
  rewrite Hs.
  set (mine := filter (fun u => String.eqb (Update.incident_id u) incidentId)
                 (Supabase.incident_updates w)).
  match goal with
  | |- context [IncidentDetailsView.all ?l ?w1] =>
      destruct (authored_updates l w1) as (us & w2 & Hus & Hmap);
      pose proof (authored_summaries l w1 uid eq_refl) as Hsum
  end.
  rewrite Hus. exists us. cbn [fst].
  split; [reflexivity|]. rewrite Hmap.
  split; [apply sort_permutation|].
  split; [apply latest_first_sorted|]. split.
  - intros u. split.
    + intros Hin.
      apply (Permutation_in _ (sort_permutation _ _)) in Hin.
      subst mine. apply filter_In in Hin. destruct Hin as (Hin & Hid).
      apply String.eqb_eq in Hid. auto.
    + intros (Hin & Hid).
      apply (Permutation_in _ (Permutation_sym (sort_permutation _ _))).
      subst mine. apply filter_In. split; [assumption|]. now apply String.eqb_eq.
  - intros Ho.
    assert (Ho1 : tl (Supabase.outages w) = []) by (now rewrite Ho).
    destruct (Hsum Ho1) as (us' & w2' & Hus' & Hall).
    rewrite Hus in Hus'. injection Hus' as <- <-. exact Hall.
Qed.

Lemma updatesQuery_exact_witness :
  exists shown,
    fst (IncidentDetailsView.updatesQuery "a" Sample.world_with_timeline)
      = Promise.Resolved shown /\
    StronglySorted Spec.not_older_update (map IncidentDetailsView.update shown).
Proof.
  destruct (updatesQuery_exact "a" Sample.world_with_timeline "u1" eq_refl eq_refl)
    as (shown & H & _ & Hsorted & _).
  exists shown. split; assumption.
Defined.

(** The timeline of incident A in the sample: the change of status,
    entered last, comes first; the update of incident B is left out. *)
Example timeline_of_incident_a :
  match fst (IncidentDetailsView.updatesQuery "a" Sample.world_with_timeline) with
  | Promise.Resolved shown =>
      map (fun a => Update.id (IncidentDetailsView.update a)) shown = ["3"; "1"]
  | Promise.Rejected _ => False
  end.
Proof. reflexivity. Qed.

Lemma filter_unique_id (id : Schema.uuid) (l : list Incident.t) (i : Incident.t) :
  NoDup (map Incident.id l) -> In i l -> Incident.id i = id ->
  filter (fun j => String.eqb (Incident.id j) id) l = [i].
Proof.
  induction l as [|j l IH]; simpl; [contradiction|].
  intros Hnd Hin Hid. inversion Hnd as [|? ? Hnotin Hnd']; subst.
  destruct Hin as [->|Hin].
  - rewrite String.eqb_refl. f_equal.
    clear IH Hnd Hnd'. induction l as [|k l IHl]; simpl; [reflexivity|].
    destruct (String.eqb_spec (Incident.id k) (Incident.id i)) as [Heq|Hne].
    + exfalso. apply Hnotin. left. exact Heq.
    + apply IHl. intros H. apply Hnotin. now right.
  - destruct (String.eqb_spec (Incident.id j) (Incident.id i)) as [Heq|Hne].
    + exfalso. apply Hnotin. rewrite Heq. now apply in_map.
    + now apply IH.
Qed.

(** X15.  The incident of the dialog.  Whatever the query resolves with
    is a stored incident with the identifier asked for, without summary
    of an assignee when it has none.  When no stored incident has the
    identifier the query fails.  When somebody is signed in, the request
    reaches the store and identifiers are unique, the query resolves with
    the stored incident of that identifier, and with the summary of its
    reporter when no request is lost. *)
Theorem incidentQuery_finds (incidentId : Schema.uuid) (w : Supabase.World) :
  let r := IncidentDetailsView.incidentQuery incidentId w in
  (forall e, fst r = inl e ->
     In (IncidentList.row e) (Supabase.incidents w) /\
     Incident.id (IncidentList.row e) = incidentId /\
     (Incident.assigned_to (IncidentList.row e) = None ->
      IncidentList.assigned e = None)) /\
  ((forall i, In i (Supabase.incidents w) -> Incident.id i <> incidentId) ->
   fst r = inr (Supabase.NotOneRow 0) \/
   fst r = inr (Supabase.Failed Supabase.FetchFailed)) /\
  (forall uid i,
     Supabase.session w = Some uid ->
     Supabase.reaches 1 w ->
     NoDup (map Incident.id (Supabase.incidents w)) ->
     In i (Supabase.incidents w) ->
     Incident.id i = incidentId ->
     exists e,
       fst r = inl e /\ IncidentList.row e = i /\
       (Supabase.outages w = [] ->
        Spec.summary_in (Supabase.profiles w) (Incident.reporter_id i)
          (IncidentList.reporter e))).
Proof.
  cbv zeta. unfold IncidentDetailsView.incidentQuery, Supabase.select_incident,
    Supabase.exchange. cbn [fst snd Supabase.session Supabase.incidents].
  split; [|split].
  - intros e. destruct (hd false (Supabase.outages w)); cbn [fst]; [discriminate|].
    destruct (Supabase.session w) as [uid|]; [|discriminate].
    destruct (filter _ (Supabase.incidents w)) as [|row [|row' rows]] eqn:E;
      [discriminate| |discriminate].
    assert (Hrow : In row (filter (fun i => String.eqb (Incident.id i) incidentId)
                             (Supabase.incidents w)))
      by (rewrite E; now left).
    apply filter_In in Hrow. destruct Hrow as (Hin & Hid).
    apply String.eqb_eq in Hid.
    match goal with
    | |- context [Supabase.select_profile (Incident.reporter_id row) ?w1] =>
        destruct (Supabase.select_profile (Incident.reporter_id row) w1)
          as [reporterData w2]
    end.
    destruct (Incident.assigned_to row) as [assignee|] eqn:Ea.
    + destruct (Supabase.select_profile assignee w2) as [assignedData w3].
      cbn [fst]. intros H. injection H as <-.
      cbn [IncidentList.row IncidentList.assigned]. rewrite Ea.
      repeat split; try assumption. discriminate.
    + cbn [fst]. intros H. injection H as <-.
      cbn [IncidentList.row IncidentList.assigned]. repeat split; assumption.
  - intros Hnone. destruct (hd false (Supabase.outages w)); cbn [fst]; [auto|].
    assert (E : filter (fun i => String.eqb (Incident.id i) incidentId)
                  (Supabase.incidents w) = []).
    { induction (Supabase.incidents w) as [|j l IH]; simpl; [reflexivity|].
      destruct (String.eqb_spec (Incident.id j) incidentId) as [Heq|Hne].
      - exfalso. apply (Hnone j); [now left | exact Heq].
      - apply IH. intros i Hi. apply Hnone. now right. }
    destruct (Supabase.session w); [rewrite E|]; auto.
  - intros uid i Hs Hr Hnd Hin Hid.
    rewrite (reaches_hd _ _ Hr), Hs, (filter_unique_id incidentId _ i Hnd Hin Hid).
    match goal with
    | |- context [Supabase.select_profile (Incident.reporter_id i) ?w1] =>
        pose proof (select_profile_summary (Incident.reporter_id i) w1 uid eq_refl)
          as Hsum;
        destruct (Supabase.select_profile (Incident.reporter_id i) w1)
          as [reporterData w2]
    end.
    cbn [fst snd Supabase.outages Supabase.profiles] in Hsum.
    destruct (Incident.assigned_to i) as [assignee|].
    + destruct (Supabase.select_profile assignee w2) as [assignedData w3].
      eexists. split; [reflexivity|]. split; [reflexivity|].
      cbn [IncidentList.reporter]. intros Ho. apply Hsum. now rewrite Ho.
    + eexists. split; [reflexivity|]. split; [reflexivity|].
      cbn [IncidentList.reporter]. intros Ho. apply Hsum. now rewrite Ho.
Qed.

Lemma incidentQuery_finds_witness :
  exists e,
    fst (IncidentDetailsView.incidentQuery "b" Sample.world_scenario) = inl e /\
    Incident.category (IncidentList.row e) = "theft".
Proof.
  destruct (incidentQuery_finds "b" Sample.world_scenario) as (_ & _ & Hfound).
  destruct (Hfound "u1" (Sample.incident "b" Schema.low "theft" "Building 2" 2))
    as (e & He & Hrow & _).
  - reflexivity.
  - reflexivity.
  - repeat constructor; simpl; intros H; [|exact H].
    destruct H as [H|H]; [discriminate H | exact H].
  - right. left. reflexivity.
  - reflexivity.
  - exists e. split; [exact He|]. now rewrite Hrow.
Defined.

(** ** The filters of the list *)

Lemma includes_empty (s : Js.text) : Js.includes s [] = true.
Proof. destruct s; reflexivity. Qed.

Lemma filter_twice {A : Type} (f g : A -> bool) (l : list A) :
  filter f (filter g l) = filter (fun x => g x && f x) l.
Proof.
  induction l as [|x l IH]; simpl; [reflexivity|].
  destruct (g x); simpl; [destruct (f x)|]; now rewrite IH.
Qed.

(** X16.  The three filters of the list work independently: filtering
    by search, status and priority at once gives the same list as
    applying them one after another, in either order; with the search box
    empty and both selects at "all" the list is left as it is; and
    filtering twice changes nothing more. *)
Theorem filters_compose (searchQuery : Js.text)
    (statusFilter priorityFilter : string)
    (incidents : option (list IncidentList.Enriched)) :
  let only_search := IncidentList.filteredIncidents searchQuery "all" "all" in
  let only_status := IncidentList.filteredIncidents [] statusFilter "all" in
  let only_priority := IncidentList.filteredIncidents [] "all" priorityFilter in
  let together :=
    IncidentList.filteredIncidents searchQuery statusFilter priorityFilter in
  together incidents = only_search (only_status (only_priority incidents)) /\
  together incidents = only_priority (only_status (only_search incidents)) /\
  IncidentList.filteredIncidents [] "all" "all" incidents = incidents /\
  together (together incidents) = together incidents.
Proof.
  cbv zeta. unfold IncidentList.filteredIncidents.
  destruct incidents as [l|]; simpl; [|repeat split].
  rewrite !filter_twice.
  split; [|split; [|split]]; f_equal.
  - apply filter_ext. intros e. unfold IncidentList.matches. cbv zeta.
    simpl Js.toLowerCase. rewrite !includes_empty. simpl.
    destruct (Js.includes _ _ || Js.includes _ _); simpl;
      rewrite ?andb_true_r, ?andb_false_r; try reflexivity.
    apply andb_comm.
  - apply filter_ext. intros e. unfold IncidentList.matches. cbv zeta.
    simpl Js.toLowerCase. rewrite !includes_empty. simpl.
    destruct (Js.includes _ _ || Js.includes _ _); simpl;
      rewrite ?andb_true_r, ?andb_false_r; reflexivity.
  - apply forallb_filter_id. apply forallb_forall. intros e _.
    unfold IncidentList.matches. cbv zeta. simpl Js.toLowerCase.
    now rewrite !includes_empty.
  - apply filter_ext. intros e.
    destruct (IncidentList.matches searchQuery statusFilter priorityFilter e);
      reflexivity.
Qed.

(** X17.  For texts of the characters U+0000 to U+00FF: when somebody
    is signed in and the query reaches the store, the card "No incidents
    found" is shown exactly when no stored incident satisfies the
    filter. *)
Theorem no_incidents_card (f : Spec.Filter) (w : Supabase.World) (uid : Schema.uuid) :
  Supabase.session w = Some uid ->
  Supabase.reaches 1 w ->
  Spec.latin1 (Spec.searchQuery f) = true ->
  forallb Spec.latin1_incident (Supabase.incidents w) = true ->
  exists shown,
    fst (Spec.listIncidents f w) = Promise.Resolved shown /\
    (IncidentList.noIncidentsFound (Some shown) = true <->
     forall i, In i (Supabase.incidents w) -> ~ Spec.satisfies f i).
Proof.
  intros Hs Hr _ _.
  destruct (queryFn_rows w uid Hs Hr) as (es & w' & Hq & Hrows).
  unfold Spec.listIncidents, IncidentList.listIncidents.
  unfold Promise.bind. rewrite Hq. unfold Promise.ret.
  cbn [fst IncidentList.filteredIncidents option_map].
  eexists. split; [reflexivity|].
  unfold IncidentList.noIncidentsFound. rewrite Nat.eqb_eq, length_zero_iff_nil.
  split.
  - intros Hnil i Hin Hsat.
    apply (Permutation_in _ (Permutation_sym (sort_permutation Supabase.newest_first _)))
      in Hin.
    rewrite <- Hrows in Hin. apply in_map_iff in Hin.
    destruct Hin as (e & <- & He).
    apply matches_satisfies in Hsat.
    assert (Hin : In e (filter (IncidentList.matches (Spec.searchQuery f)
                                  (Spec.statusFilter f) (Spec.priorityFilter f)) es))
      by (apply filter_In; auto).
    rewrite Hnil in Hin. exact Hin.
  - intros Hnone.
    destruct (filter _ es) as [|e rest] eqn:E; [reflexivity|]. exfalso.
    assert (Hin : In e (filter (IncidentList.matches (Spec.searchQuery f)
                                  (Spec.statusFilter f) (Spec.priorityFilter f)) es))
      by (rewrite E; now left).
    apply filter_In in Hin. destruct Hin as (Hin & Hm).
    apply (Hnone (IncidentList.row e)).
    + apply (Permutation_in _ (sort_permutation Supabase.newest_first _)).
      rewrite <- Hrows. now apply in_map.
    + now apply matches_satisfies.
Qed.

Lemma no_incidents_card_witness :
  exists shown,
    fst (Spec.listIncidents (Spec.mkFilter (Some [201; 67; 79; 76; 69; 83]%N) None None)
           Sample.world_school) = Promise.Resolved shown /\
    IncidentList.noIncidentsFound (Some shown) = true.
Proof.
  destruct (no_incidents_card (Spec.mkFilter (Some [201; 67; 79; 76; 69; 83]%N) None None)
              Sample.world_school "u1" eq_refl eq_refl eq_refl eq_refl)
    as (shown & H & _).
  exists shown. split; [exact H|].
  assert (H' := H). vm_compute in H'. injection H' as <-. reflexivity.
Defined.

(** ** The tally, for labels of any kind *)

Lemma create_in (o : Js.obj) (k : string) (v : nat) (x : string * nat) :
  In x (Js.create o k v) <-> x = (k, v) \/ In x o.
Proof.
  induction o as [|[k' v'] o IH]; simpl.
  - split; [intros [H|[]]; auto | intros [H|[]]; auto].
  - destruct (Js.key_before k k'); simpl; [|rewrite IH]; intuition congruence.
Qed.

Lemma create_keys (o : Js.obj) (k : string) (v : nat) :
  Permutation (map fst (Js.create o k v)) (k :: map fst o).
Proof.
  induction o as [|[k' v'] o IH]; simpl; [apply Permutation_refl|].
  destruct (Js.key_before k k'); simpl; [apply Permutation_refl|].
  apply Permutation_trans with (k' :: k :: map fst o);
    [now apply perm_skip | apply perm_swap].
Qed.

Lemma enumerated_before_trans (keys : list string) (a b c : string) :
  Spec.enumerated_before keys a b -> Spec.enumerated_before keys b c ->
  Spec.enumerated_before keys a c.
Proof.
  unfold Spec.enumerated_before.
  destruct (Js.array_index a), (Js.array_index b), (Js.array_index c);
    try tauto; lia.
Qed.

Lemma enumerated_before_app (seen more : list string) (a b : string) :
  In a seen -> In b seen ->
  Spec.enumerated_before seen a b ->
  Spec.enumerated_before (seen ++ more) a b.
Proof.
  unfold Spec.enumerated_before. intros Ha Hb.
  destruct (Js.array_index a), (Js.array_index b); try tauto.
  now rewrite !first_seen_app.
Qed.

Lemma key_before_true (keys : list string) (k k' : string) :
  Js.key_before k k' = true -> Spec.enumerated_before keys k k'.
Proof.
  unfold Js.key_before, Spec.enumerated_before.
  destruct (Js.array_index k), (Js.array_index k'); try discriminate; [|tauto].
  intros H. apply N.ltb_lt in H. lia.
Qed.

Lemma key_before_false (seen : list string) (k k' : string) :
  Js.key_before k k' = false -> In k' seen -> ~ In k seen ->
  Spec.enumerated_before (seen ++ [k]) k' k.
Proof.
  unfold Js.key_before, Spec.enumerated_before. intros H Hin Hnew.
  destruct (Js.array_index k), (Js.array_index k'); try discriminate; try tauto.
  - apply N.ltb_ge in H. exact H.
  - rewrite first_seen_app by assumption. rewrite first_seen_new by assumption.
    now apply first_seen_bound.
Qed.

Lemma create_enumerated (seen : list string) (k : string) (v : nat) (o : Js.obj) :
  (forall a, In a o -> In (fst a) seen) ->
  ~ In k seen ->
  StronglySorted
    (fun a b => Spec.enumerated_before (seen ++ [k]) (fst a) (fst b)) o ->
  StronglySorted
    (fun a b => Spec.enumerated_before (seen ++ [k]) (fst a) (fst b))
    (Js.create o k v).
Proof.
  intros Hkeys Hnew Hs. induction Hs as [|[k' v'] o Hs IH Hall]; simpl.
  - constructor; constructor.
  - destruct (Js.key_before k k') eqn:E.
    + constructor; [now constructor|].
      assert (Hkk : Spec.enumerated_before (seen ++ [k]) k k')
        by now apply key_before_true.
      constructor; [exact Hkk|].
      eapply Forall_impl; [|exact Hall].
      intros b Hb. simpl in *. now apply enumerated_before_trans with k'.
    + constructor.
      * apply IH. intros a Ha. apply Hkeys. now right.
      * rewrite Forall_forall in *. intros x Hx. apply create_in in Hx.
        destruct Hx as [->|Hx]; [|now apply Hall].
        simpl. apply key_before_false; [assumption| |assumption].
        apply (Hkeys (k', v')). now left.
Qed.

Lemma counted_keys (seen : list string) (o : Js.obj) :
  Invariant.counted seen o -> forall a, In a o -> In (fst a) seen.
Proof.
  intros (_ & Hin & _) [k c] H. now apply Hin in H.
Qed.

Lemma enumerated_app (seen more : list string) (o : Js.obj) :
  (forall a, In a o -> In (fst a) seen) ->
  StronglySorted (fun a b => Spec.enumerated_before seen (fst a) (fst b)) o ->
  StronglySorted
    (fun a b => Spec.enumerated_before (seen ++ more) (fst a) (fst b)) o.
Proof.
  intros Hseen Hs. induction Hs as [|a l Hs IH Hall]; constructor.
  - apply IH. intros b Hb. apply Hseen. now right.
  - rewrite Forall_forall in *. intros b Hb.
    apply enumerated_before_app;
      [apply Hseen; now left | apply Hseen; now right | now apply Hall].
Qed.

Lemma counted_step (seen : list string) (o : Js.obj) (k : string) :
  Invariant.counted seen o ->
  Invariant.counted (seen ++ [k]) (Js.set o k (Js.or0 (Js.get o k) + 1)).
Proof.
  intros Hinv. pose proof (counted_keys _ _ Hinv) as Hkeys.
  destruct Hinv as (Hnd & Hin & Hs). unfold Js.set.
  destruct (Js.get o k) as [c0|] eqn:Hget; simpl.
  - pose proof (get_some_in _ _ _ Hget) as Hkc.
    assert (Hko : In k (map fst o))
      by (change k with (fst (k, c0)); now apply in_map).
    pose proof (proj1 (Hin k c0) Hkc) as [Hseen Hc0].
    split; [now rewrite replace_keys|]. split.
    + intros k' c. rewrite (replace_in o k (c0 + 1) k' c Hnd Hko).
      rewrite count_occ_snoc, Hin, in_app_iff. simpl.
      destruct (string_dec k k') as [<-|Hne].
      * split.
        -- intros [[_ ->]|[Hne _]]; [|congruence]. split; [now left | lia].
        -- intros [_ ->]. left. split; [reflexivity | lia].
      * split.
        -- intros [[-> _]|[_ [H1 ->]]]; [congruence|]. split; [now left | lia].
        -- intros [[H1|[H1|[]]] ->]; [|congruence].
           right. split; [congruence|]. split; [assumption | lia].
    + apply (sorted_by_key (Spec.enumerated_before (seen ++ [k])) o).
      * now rewrite replace_keys.
      * now apply enumerated_app.
  - pose proof (get_none_not_in _ _ Hget) as Hnew.
    assert (Hunseen : ~ In k seen).
    { intros H. apply Hnew.
      assert (In (k, count_occ string_dec seen k) o) as H' by (apply Hin; auto).
      change k with (fst (k, count_occ string_dec seen k)). now apply in_map. }
    split; [|split].
    + apply (Permutation_NoDup (Permutation_sym (create_keys o k 1))).
      constructor; assumption.
    + intros k' c. rewrite create_in, count_occ_snoc, Hin, in_app_iff. simpl.
      destruct (string_dec k k') as [<-|Hne].
      * split.
        -- intros [Heq|[H1 _]]; [|contradiction].
           injection Heq as <-. split; [right; now left|].
           rewrite (proj1 (count_occ_not_In string_dec seen k) Hunseen). reflexivity.
        -- intros [_ ->]. left.
           rewrite (proj1 (count_occ_not_In string_dec seen k) Hunseen). reflexivity.
      * split.
        -- intros [Heq|[H1 ->]]; [congruence|]. split; [now left | lia].
        -- intros [[H1|[H1|[]]] ->]; [|congruence].
           right. split; [assumption | lia].
    + apply create_enumerated; [assumption | assumption|].
      now apply enumerated_app.
Qed.

Lemma counted_fold (key : Incident.t -> string) (l : list Incident.t) :
  forall (seen : list string) (o : Js.obj),
    Invariant.counted seen o ->
    Invariant.counted (seen ++ map key l)
      (fold_left
         (fun acc incident =>
            Js.set acc (key incident) (Js.or0 (Js.get acc (key incident)) + 1))
         l o).
Proof.
  induction l as [|i l IH]; simpl; intros seen o Hinv.
  - now rewrite app_nil_r.
  - change (seen ++ key i :: map key l) with (seen ++ [key i] ++ map key l).
    rewrite app_assoc. apply IH. now apply counted_step.
Qed.

Lemma counted_tally (key : Incident.t -> string) (l : list Incident.t) :
  exists o,
    Analytics.tally key (Some l) = Some o /\ Invariant.counted (map key l) o.
Proof.
  eexists. split; [reflexivity|].
  apply (counted_fold key l [] Js.empty).
  split; [constructor|]. split; [|constructor].
  intros k c. simpl. tauto.
Qed.

(** X18.  The order in which the tally enumerates its labels, none of
    them a name inherited from [Object.prototype]: every label of the
    incidents appears once, with its number of occurrences; labels that
    are array indices come first, in ascending numeric order, and the
    other labels follow in the order in which they were first
    encountered. *)
Theorem tally_enumeration (key : Incident.t -> string) (l : list Incident.t) :
  Forall (fun k => Js.inherited k = false) (map key l) ->
  exists o,
    Analytics.tally key (Some l) = Some o /\
    NoDup (map fst (Js.entries o)) /\
    (forall k c, In (k, c) (Js.entries o) <->
                 In k (map key l) /\ c = count_occ string_dec (map key l) k) /\
    StronglySorted
      (fun a b => Spec.enumerated_before (map key l) (fst a) (fst b))
      (Js.entries o).
Proof.
  intros _. destruct (counted_tally key l) as (o & Ho & Hnd & Hin & Hs).
  exists o. unfold Js.entries. auto.
Qed.

Lemma tally_enumeration_witness :
  exists o,
    Analytics.locationStats (Some Sample.mixed_locations) = Some o /\
    StronglySorted
      (fun a b =>
         Spec.enumerated_before (map Incident.location Sample.mixed_locations)
           (fst a) (fst b))
      (Js.entries o).
Proof.
  destruct (tally_enumeration Incident.location Sample.mixed_locations)
    as (o & Ho & _ & _ & Hs).
  - repeat constructor.
  - exists o. split; assumption.
Defined.

(** The locations of the sample: the rooms first, ascending, then the
    lobby with its two incidents. *)
Example tally_of_mixed_locations :
  Analytics.locationStats (Some Sample.mixed_locations)
    = Some [("7", 1); ("12", 1); ("Lobby", 2)] /\
  Analytics.topLocations (Some Sample.mixed_locations)
    = [("Lobby", 2); ("7", 1); ("12", 1)].
Proof. split; reflexivity. Qed.

(** ** The rankings, for labels of any kind *)

Lemma sorted_app_between {A : Type} (R : A -> A -> Prop) (a b : list A) :
  StronglySorted R (a ++ b) -> forall x y, In x a -> In y b -> R x y.
Proof.
  induction a as [|z a IH]; simpl; intros Hs x y Hx Hy; [contradiction|].
  inversion Hs as [|? ? Hs' Hall]; subst.
  destruct Hx as [->|Hx].
  - rewrite Forall_forall in Hall. apply Hall. apply in_or_app. now right.
  - now apply IH.
Qed.

Lemma sorted_prefix {A : Type} (R : A -> A -> Prop) (a b : list A) :
  StronglySorted R (a ++ b) -> StronglySorted R a.
Proof.
  induction a as [|z a IH]; simpl; intros Hs; [constructor|].
  inversion Hs as [|? ? Hs' Hall]; subst.
  constructor; [now apply IH|].
  apply Forall_app in Hall. tauto.
Qed.

Lemma ranked_by_count (o : Js.obj) :
  StronglySorted (fun a b => snd b <= snd a) (Analytics.ranked (Some o)).
Proof.
  unfold Analytics.ranked, Js.sort, Js.entries.
  apply (sort_sorted Analytics.by_count_desc (fun a b => snd b <= snd a)
           (fun _ _ => True)).
  - intros x y z Hxy Hyz. lia.
  - unfold Analytics.by_count_desc. intros x y H. lia.
  - unfold Analytics.by_count_desc. intros x y H _. lia.
  - apply sorted_any_order.
Qed.

Lemma top_of_tally (key : Incident.t -> string) (l : list Incident.t) :
  let keys := map key l in
  let top := Js.slice0 5 (Analytics.ranked (Analytics.tally key (Some l))) in
  List.length top = Nat.min 5 (List.length (nodup string_dec keys)) /\
  NoDup (map fst top) /\
  (forall k c, In (k, c) top -> In k keys /\ c = count_occ string_dec keys k) /\
  StronglySorted (fun a b => snd b <= snd a) top /\
  (forall k entry,
     In k keys -> ~ In k (map fst top) -> In entry top ->
     count_occ string_dec keys k <= snd entry).
Proof.
  cbv zeta. destruct (counted_tally key l) as (o & Ho & Hnd & Hin & _).
  rewrite Ho. unfold Js.slice0.
  set (r := Analytics.ranked (Some o)).
  assert (Hperm : Permutation r o)
    by (unfold r, Analytics.ranked, Js.sort, Js.entries; apply sort_permutation).
  assert (Hsorted : StronglySorted (fun a b => snd b <= snd a) r)
    by apply ranked_by_count.
  assert (Hnd_r : NoDup (map fst r)).
  { apply (Permutation_NoDup (l := map fst o)); [|assumption].
    apply Permutation_map. now apply Permutation_sym. }
  assert (Hsplit : r = firstn 5 r ++ skipn 5 r) by (symmetry; apply firstn_skipn).
  split; [|split; [|split; [|split]]].
  - rewrite length_firstn. f_equal.
    rewrite (Permutation_length Hperm), <- (length_map fst o).
    apply Permutation_length. apply NoDup_Permutation.
    + assumption.
    + apply NoDup_nodup.
    + intros k. rewrite nodup_In. split.
      * intros H. apply in_map_iff in H. destruct H as ([k' c] & <- & H).
        now apply Hin in H.
      * intros H. change k with (fst (k, count_occ string_dec (map key l) k)).
        apply in_map. apply Hin. auto.
  - rewrite Hsplit, map_app in Hnd_r. now apply NoDup_app_remove_r in Hnd_r.
  - intros k c H. apply Hin. apply (Permutation_in _ Hperm).
    rewrite Hsplit. apply in_or_app. now left.
  - rewrite Hsplit in Hsorted. now apply sorted_prefix in Hsorted.
  - intros k entry Hk Hout Hentry.
    assert (Hr : In (k, count_occ string_dec (map key l) k) r).
    { apply (Permutation_in _ (Permutation_sym Hperm)). apply Hin. auto. }
    rewrite Hsplit in Hr. apply in_app_or in Hr. destruct Hr as [Hr|Hr].
    + exfalso. apply Hout.
      change k with (fst (k, count_occ string_dec (map key l) k)).
      now apply in_map.
    + rewrite Hsplit in Hsorted.
      exact (sorted_app_between _ _ _ Hsorted _ _ Hentry Hr).
Qed.

(** X19.  The two rankings for labels of any kind, none of them a name
    inherited from [Object.prototype]: "Top Categories" and "Top
    Locations" list five labels, or all of them when there are fewer;
    each label once, with its exact number of occurrences; in
    non-increasing order of count; and no label left out occurs more
    often than a listed one. *)
Theorem top_five_by_count (l : list Incident.t) :
  Forall (fun k => Js.inherited k = false) (map Incident.category l) ->
  Forall (fun k => Js.inherited k = false) (map Incident.location l) ->
  (let keys := map Incident.category l in
   let top := Analytics.topCategories (Some l) in
   List.length top = Nat.min 5 (List.length (nodup string_dec keys)) /\
   NoDup (map fst top) /\
   (forall k c, In (k, c) top -> In k keys /\ c = count_occ string_dec keys k) /\
   StronglySorted (fun a b => snd b <= snd a) top /\
   (forall k entry,
      In k keys -> ~ In k (map fst top) -> In entry top ->
      count_occ string_dec keys k <= snd entry)) /\
  (let keys := map Incident.location l in
   let top := Analytics.topLocations (Some l) in
   List.length top = Nat.min 5 (List.length (nodup string_dec keys)) /\
   NoDup (map fst top) /\
   (forall k c, In (k, c) top -> In k keys /\ c = count_occ string_dec keys k) /\
   StronglySorted (fun a b => snd b <= snd a) top /\
   (forall k entry,
      In k keys -> ~ In k (map fst top) -> In entry top ->
      count_occ string_dec keys k <= snd entry)).
Proof.
  intros _ _. split.
  - exact (top_of_tally Incident.category l).
  - exact (top_of_tally Incident.location l).
Qed.

Lemma top_five_by_count_witness :
  List.length (Analytics.topLocations (Some Sample.mixed_locations)) = 3 /\
  StronglySorted (fun a b => snd b <= snd a)
    (Analytics.topLocations (Some Sample.mixed_locations)).
Proof.
  destruct (top_five_by_count Sample.mixed_locations)
    as (_ & Hlen & _ & _ & Hsorted & _).
  - repeat constructor.
  - repeat constructor.
  - split; [exact Hlen | exact Hsorted].
Defined.

(** ** Counts *)

Lemma sum_replace (o : Js.obj) (k : string) (c : nat) :
  Js.get o k = Some c ->
  list_sum (map snd (Js.replace o k (c + 1))) = S (list_sum (map snd o)).
Proof.
  induction o as [|[k' v'] o IH]; simpl; [discriminate|].
  destruct (String.eqb k k'); simpl.
  - intros H. injection H as ->. lia.
  - intros H. rewrite (IH H). lia.
Qed.

Lemma sum_create (o : Js.obj) (k : string) (v : nat) :
  list_sum (map snd (Js.create o k v)) = v + list_sum (map snd o).
Proof.
  induction o as [|[k' v'] o IH]; simpl; [reflexivity|].
  destruct (Js.key_before k k'); simpl; [reflexivity|]. rewrite IH. lia.
Qed.

Lemma sum_tally (key : Incident.t -> string) (l : list Incident.t) :
  forall o : Js.obj,
    list_sum
      (map snd
         (fold_left
            (fun acc incident =>
               Js.set acc (key incident) (Js.or0 (Js.get acc (key incident)) + 1))
            l o))
    = List.length l + list_sum (map snd o).
Proof.
  induction l as [|i l IH]; intros o; simpl; [reflexivity|].
  rewrite IH. unfold Js.set.
  destruct (Js.get o (key i)) as [c|] eqn:E; simpl.
  - rewrite (sum_replace o (key i) c E). lia.
  - rewrite sum_create. lia.
Qed.

Lemma count_where_le (p : Incident.t -> bool) (l : list Incident.t) :
  Analytics.count_where p (Some l) <= List.length l.
Proof. simpl. apply filter_length_le. Qed.


Lemma list_sum_permutation (a b : list nat) :
  Permutation a b -> list_sum a = list_sum b.
Proof.
  induction 1; simpl; lia.
Qed.

Lemma list_sum_firstn (n : nat) (a : list nat) :
  list_sum (firstn n a) <= list_sum a.
Proof.
  revert a. induction n as [|n IH]; intros [|x a]; simpl; try lia.
  specialize (IH a). lia.
Qed.

(** X20.  The counts of the tally add up: over labels none of which is a
    name inherited from [Object.prototype], the counts of the categories
    sum to the number of incidents, and so do those of the locations; the
    counts shown in a ranking sum to no more. *)
Theorem tally_counts_add_up (l : list Incident.t) :
  Forall (fun k => Js.inherited k = false) (map Incident.category l) ->
  Forall (fun k => Js.inherited k = false) (map Incident.location l) ->
  exists categories locations,
    Analytics.categoryStats (Some l) = Some categories /\
    Analytics.locationStats (Some l) = Some locations /\
    list_sum (map snd (Js.entries categories)) =
      Analytics.total (Analytics.stats (Some l)) /\
    list_sum (map snd (Js.entries locations)) =
      Analytics.total (Analytics.stats (Some l)) /\
    list_sum (map snd (Analytics.topCategories (Some l))) <=
      Analytics.total (Analytics.stats (Some l)) /\
    list_sum (map snd (Analytics.topLocations (Some l))) <=
      Analytics.total (Analytics.stats (Some l)).
Proof.
  intros _ _. eexists. eexists.
  split; [reflexivity|]. split; [reflexivity|].
  unfold Js.entries, Analytics.topCategories, Analytics.topLocations,
    Analytics.categoryStats, Analytics.locationStats, Analytics.tally,
    Analytics.ranked, Js.slice0, Js.sort, Js.entries.
  cbn [Analytics.total Analytics.stats].
  pose proof (sum_tally Incident.category l Js.empty) as Hc.
  pose proof (sum_tally Incident.location l Js.empty) as Hl.
  simpl in Hc, Hl. rewrite Nat.add_0_r in Hc, Hl.
  split; [exact Hc|]. split; [exact Hl|]. split.
  - rewrite <- Hc. rewrite <- firstn_map.
    etransitivity; [apply list_sum_firstn|].
    apply Nat.eq_le_incl, list_sum_permutation, Permutation_map, sort_permutation.
  - rewrite <- Hl. rewrite <- firstn_map.
    etransitivity; [apply list_sum_firstn|].
    apply Nat.eq_le_incl, list_sum_permutation, Permutation_map, sort_permutation.
Qed.

Lemma tally_counts_add_up_witness :
  exists categories,
    Analytics.categoryStats (Some Sample.mixed_locations) = Some categories /\
    list_sum (map snd (Js.entries categories)) = 4.
Proof.
  destruct (tally_counts_add_up Sample.mixed_locations)
    as (categories & locations & Hc & _ & Hsum & _).
  - repeat constructor.
  - repeat constructor.
  - exists categories. split; [exact Hc | exact Hsum].
Defined.





(** Seven critical incidents out of a hundred: the width is the double
    next above 7, the quotient 0.07 having been rounded before it was
    multiplied. *)
Example width_seven_of_a_hundred :
  Js.value (Js.mul (Js.div (Js.of_count 7) (Js.of_count 100)) (Js.of_count 100))
  = Js.Finite (Qmake 7881299347898369 (2 ^ 50)).
Proof. reflexivity. Qed.

(** ** An incident that is not on record *)

Lemma no_such_incident (id : Schema.uuid) (l : list Incident.t) :
  (forall i, In i l -> Incident.id i <> id) ->
  existsb (fun i => String.eqb (Incident.id i) id) l = false.
Proof.
  intros H. apply not_true_is_false. intros E. apply existsb_exists in E.
  destruct E as (i & Hin & Hid). apply String.eqb_eq in Hid. exact (H i Hin Hid).
Qed.

Lemma reaches_second (w : Supabase.World) :
  Supabase.reaches 2 w -> hd false (tl (Supabase.outages w)) = false.
Proof.
  unfold Supabase.reaches.
  destruct (Supabase.outages w) as [|a [|b l]]; simpl; try reflexivity.
  rewrite !andb_true_iff, !negb_true_iff. tauto.
Qed.

Lemma insert_incident_update_orphan (v : Supabase.UpdateInsert) (w : Supabase.World) :
  (forall i, In i (Supabase.incidents w) ->
             Incident.id i <> Supabase.ins_incident_id v) ->
  let r := Supabase.insert_incident_update v w in
  Supabase.incident_updates (snd r) = Supabase.incident_updates w /\
  (forall uid,
     Supabase.session w = Some uid -> Supabase.ins_user_id v = Some uid ->
     hd false (Supabase.outages w) = false ->
     fst r = Some (Supabase.ForeignKeyViolation "incident_id")).
Proof.
  intros Hnone. apply no_such_incident in Hnone.
  unfold Supabase.insert_incident_update, Supabase.round_trip. simpl.
  destruct (hd false (Supabase.outages w)); simpl;
    [split; [reflexivity | intros; discriminate]|].
  destruct (Supabase.session w) as [uid|]; simpl;
    [|split; [reflexivity | intros; discriminate]].
  destruct (Supabase.ins_user_id v) as [author|]; simpl;
    [|split; [reflexivity | intros; discriminate]].
  destruct (String.eqb_spec uid author) as [->|Hne]; simpl.
  - rewrite Hnone. simpl. split; [reflexivity|]. intros; reflexivity.
  - split; [reflexivity|]. intros uid' H1 H2 _. congruence.
Qed.

(** X22.  An incident that is not on record.  Changing its status
    changes no incident and appends no update, and yet resolves whenever
    somebody is signed in and the first request reaches the store: the
    update matches no row, which is no error, and the rejected timeline
    entry is not looked at.  A comment on it appends nothing either and,
    with somebody signed in and both requests through, is rejected for
    the missing incident. *)
Theorem unknown_incident (incidentId : Schema.uuid) (w : Supabase.World) :
  (forall i, In i (Supabase.incidents w) -> Incident.id i <> incidentId) ->
  (forall status,
     let r := IncidentDetails.updateStatus incidentId status w in
     Supabase.incidents (snd r) = Supabase.incidents w /\
     Supabase.incident_updates (snd r) = Supabase.incident_updates w /\
     (forall uid, Supabase.session w = Some uid -> Supabase.reaches 1 w ->
        fst r = Promise.Resolved tt)) /\
  (forall newUpdate,
     let r := IncidentDetails.addUpdate incidentId newUpdate w in
     Supabase.incidents (snd r) = Supabase.incidents w /\
     Supabase.incident_updates (snd r) = Supabase.incident_updates w /\
     (forall uid, Supabase.session w = Some uid -> Supabase.reaches 2 w ->
        fst r = Promise.Rejected
                  (Promise.StoreError (Supabase.ForeignKeyViolation "incident_id")))).
Proof.
  intros Hnone.
  assert (Hmap : forall f,
            Supabase.update_where (fun i => String.eqb (Incident.id i) incidentId) f
              (Supabase.incidents w)
            = Supabase.incidents w).
  { intros f. apply update_where_none. intros i Hi.
    apply String.eqb_neq. now apply Hnone. }
  split.
  - intros status. cbv zeta.
    assert (Hinc : Supabase.incidents
                     (snd (IncidentDetails.updateStatus incidentId status w))
                   = Supabase.incidents w).
    { destruct (updateStatus_incidents incidentId status w) as ([H|H] & _);
        rewrite H; [reflexivity | apply Hmap]. }
    split; [exact Hinc|]. clear Hinc.
    unfold IncidentDetails.updateStatus. run_promise.
    set (at_ := match status with Schema.resolved => Some (Supabase.now w) | _ => None end).
    destruct (update_incident_world incidentId status at_ w) as (Ui & Uu & _ & Us & _).
    assert (Uok : forall uid, Supabase.session w = Some uid -> Supabase.reaches 1 w ->
                    fst (Supabase.update_incident incidentId status at_ w) = None).
    { intros uid Hs Hr.
      exact (proj1 (update_incident_effect incidentId status at_ w uid Hs
                      (reaches_hd _ _ Hr))). }
    destruct (Supabase.update_incident incidentId status at_ w) as [[e|] w1];
      cbn [fst snd] in *.
    + split; [exact Uu|]. intros uid Hs Hr. discriminate (Uok uid Hs Hr).
    + destruct (getUser_effect w1) as (Gi & Gu & _).
      destruct (Supabase.getUser w1) as [user w2]. cbn [fst snd] in *.
      match goal with
      | |- context [Supabase.insert_incident_update ?v w2] =>
          destruct (insert_incident_update_orphan v w2) as (Iu & _);
          [|destruct (Supabase.insert_incident_update v w2) as [e w3]]
      end.
      * cbn [Supabase.ins_incident_id]. rewrite Gi.
        destruct Ui as [Ui|Ui]; rewrite Ui; [exact Hnone|].
        rewrite Hmap. exact Hnone.
      * cbn [fst snd] in *. split; [congruence | reflexivity].
  - intros newUpdate. cbv zeta.
    split; [apply addUpdate_keeps_incidents|].
    unfold IncidentDetails.addUpdate. run_promise.
    destruct (getUser_effect w) as (Gi & Gu & Gs & _ & _ & Go & _ & Guser).
    destruct (Supabase.getUser w) as [user w1]. cbn [fst snd] in *.
    match goal with
    | |- context [Supabase.insert_incident_update ?v w1] =>
        destruct (insert_incident_update_orphan v w1) as (Iu & Irej);
        [|destruct (Supabase.insert_incident_update v w1) as [[e|] w2] eqn:E]
    end.
    + cbn [Supabase.ins_incident_id]. rewrite Gi. exact Hnone.
    + cbn [fst snd Supabase.ins_user_id] in *. split; [congruence|].
      intros uid Hs Hr.
      assert (H0 : hd false (Supabase.outages w) = false) by exact (reaches_hd _ _ Hr).
      assert (H1 : hd false (Supabase.outages w1) = false).
      { rewrite Go. now apply reaches_second. }
      assert (He : Some e = Some (Supabase.ForeignKeyViolation "incident_id")).
      { apply (Irej uid); try congruence. rewrite (Guser H0). exact Hs. }
      injection He as ->. reflexivity.
    + cbn [fst snd Supabase.ins_user_id] in *. split; [congruence|].
      intros uid Hs Hr. exfalso.
      assert (H0 : hd false (Supabase.outages w) = false) by exact (reaches_hd _ _ Hr).
      assert (H1 : hd false (Supabase.outages w1) = false).
      { rewrite Go. now apply reaches_second. }
      assert (H : (None : option Supabase.PostgrestError)
                  = Some (Supabase.ForeignKeyViolation "incident_id")).
      { apply (Irej uid); try congruence. rewrite (Guser H0). exact Hs. }
      discriminate H.
Qed.

Lemma unknown_incident_witness :
  fst (IncidentDetails.updateStatus "z" Schema.closed Sample.world)
    = Promise.Resolved tt /\
  fst (IncidentDetails.addUpdate "z" "Anyone there?" Sample.world)
    = Promise.Rejected
        (Promise.StoreError (Supabase.ForeignKeyViolation "incident_id")).
Proof.
  destruct (unknown_incident "z" Sample.world) as (Hstatus & Hcomment).
  - intros i [<-|[]]. discriminate.
  - split.
    + destruct (Hstatus Schema.closed) as (_ & _ & H).
      apply (H "u1"); reflexivity.
    + destruct (Hcomment "Anyone there?") as (_ & _ & H).
      apply (H "u1"); reflexivity.
Defined.
